(** * LL_parser.py: a shallow embedding and its verified properties

    The program reads a grammar with one production per nonterminal as a
    Python [dict] from nonterminal names to right-hand sides, removes the
    epsilon productions ([correction]), computes FIRST and FOLLOW
    ([firsts], [follows]), builds the predictive table ([creat_chart]) and
    runs the stack automaton ([parse]).

    Python values are modelled as follows.
    - [str] is a list of characters; a one-character string (what
      iterating a string or indexing it yields) is a one-element list.
    - a [dict] is an association list in insertion order with pairwise
      distinct keys ([is_dict]); iteration visits the keys in that order.
    - an operation that can raise returns an [outcome]; a [while] loop
      takes a bound on its number of iterations and answers [OutOfFuel]
      when the bound is reached.
    - the standard input is a list of lines, of which [input()] takes
      the first. *)

From Stdlib Require Import String Ascii List Bool Arith Lia.
Import ListNotations.

Open Scope string_scope.
Open Scope list_scope.

(** ** Python strings *)

Definition str := list ascii.

Definition py (s : string) : str := list_ascii_of_string s.
Coercion py : string >-> str.
Arguments py : simpl never.

(** [a == b] on strings. *)
Fixpoint eqb_str (a b : str) : bool :=
  match a, b with
  | [], [] => true
  | x :: a', y :: b' => Ascii.eqb x y && eqb_str a' b'
  | _, _ => false
  end.

(** [x in l] for a list of strings. *)
Definition mem (x : str) (l : list str) : bool := existsb (eqb_str x) l.

(** [s.startswith(p)]. *)
Fixpoint prefixb (p s : str) : bool :=
  match p, s with
  | [], _ => true
  | x :: p', y :: s' => Ascii.eqb x y && prefixb p' s'
  | _ :: _, [] => false
  end.

(** [sub in s]: the substring test. *)
Fixpoint contains (sub s : str) : bool :=
  prefixb sub s ||
  match s with
  | [] => false
  | _ :: s' => contains sub s'
  end.

(** [s.replace(old, new)] for a non-empty [old]: one scan from the left
    over non-overlapping occurrences; [skip] counts the characters of a
    matched occurrence that are still to be dropped. *)
Fixpoint replace_scan (old new : str) (skip : nat) (s : str) : str :=
  match s with
  | [] => []
  | c :: s' =>
      match skip with
      | S k => replace_scan old new k s'
      | O => if prefixb old s
             then new ++ replace_scan old new (length old - 1) s'
             else c :: replace_scan old new 0 s'
      end
  end.

Definition replace (s old new : str) : str :=
  match old with
  | [] => new ++ flat_map (fun c => c :: new) s
  | _ :: _ => replace_scan old new 0 s
  end.

(** [s[0:2]]. *)
Definition slice02 (s : str) : str := firstn 2 s.

(** [s[i:j]]. *)
Definition slice (s : str) (i j : nat) : str := firstn (j - i) (skipn i s).

(** ** Exceptions and results *)

Inductive exn : Type := KeyError | IndexError | ValueError.

Inductive outcome (A : Type) : Type :=
| Done (a : A)
| Raised (e : exn)
| OutOfFuel.

Arguments Done {A} a.
Arguments Raised {A} e.
Arguments OutOfFuel {A}.

Definition bind {A B : Type} (c : outcome A) (k : A -> outcome B) : outcome B :=
  match c with
  | Done a => k a
  | Raised e => Raised e
  | OutOfFuel => OutOfFuel
  end.

Notation "x <- c ;; k" := (bind c (fun x => k))
  (at level 61, c at next level, right associativity).

(** [for a in l: body]. *)
Fixpoint for_each {A St : Type} (l : list A) (body : A -> St -> outcome St) (s : St)
  : outcome St :=
  match l with
  | [] => Done s
  | a :: l' => s' <- body a s ;; for_each l' body s'
  end.

(** [s[i]] for [0 <= i]. *)
Definition char_at (s : str) (i : nat) : outcome str :=
  match nth_error s i with
  | Some c => Done [c]
  | None => Raised IndexError
  end.

(** [s[-1]]. *)
Definition last_char (s : str) : outcome str :=
  match s with
  | [] => Raised IndexError
  | c :: s' => Done [last s' c]
  end.

(** [l[i]] for a list. *)
Definition item {A : Type} (l : list A) (i : nat) : outcome A :=
  match nth_error l i with
  | Some a => Done a
  | None => Raised IndexError
  end.

(** [l.index(x)] for a list of strings. *)
Fixpoint index_of (x : str) (l : list str) : outcome nat :=
  match l with
  | [] => Raised ValueError
  | y :: l' => if eqb_str y x then Done 0
               else i <- index_of x l' ;; Done (S i)
  end.

(** ** Python dictionaries *)

Definition dict (V : Type) := list (str * V).

Definition keys {V : Type} (d : dict V) : list str := map fst d.

Definition is_dict {V : Type} (d : dict V) : Prop := NoDup (keys d).

(** [d[k]]. *)
Fixpoint getitem {V : Type} (d : dict V) (k : str) : outcome V :=
  match d with
  | [] => Raised KeyError
  | (k', v) :: d' => if eqb_str k' k then Done v else getitem d' k
  end.

(** [d[k] = v]: an existing key keeps its place, a new key goes last. *)
Fixpoint setitem {V : Type} (d : dict V) (k : str) (v : V) : dict V :=
  match d with
  | [] => [(k, v)]
  | (k', v') :: d' => if eqb_str k' k then (k', v) :: d'
                      else (k', v') :: setitem d' k v
  end.

Definition grammar := dict str.

(** ** [get_gramer] *)

(** [input()]: the next line of the standard input, when there is
    one; Python raises [EOFError] when there is none. *)
Definition input (lines : list str) : option (str * list str) :=
  match lines with
  | [] => None
  | line :: lines' => Some (line, lines')
  end.

(** Lines 4-7: [count] rounds of the loop, each of which reads a
    nonterminal and its production. *)
Fixpoint read_rules (count : nat) (rules : grammar) (lines : list str)
  : option (grammar * list str) :=
  match count with
  | O => Some (rules, lines)
  | S count' =>
      match input lines with
      | None => None
      | Some (none_terminal, lines) =>
          match input lines with
          | None => None
          | Some (none_terminal_result, lines) =>
              read_rules count' (setitem rules none_terminal none_terminal_result) lines
          end
      end
  end.

(** Lines 3-8, for the number [rules_number] that line 2 has read and
    the lines of the input that follow it.  The result is the
    dictionary together with the lines that are left, or nothing when
    the input ends too early.  A negative number gives no round of the
    loop, as 0 does. *)
Definition get_gramer (rules_number : nat) (lines : list str)
  : option (grammar * list str) :=
  read_rules rules_number [] lines.

(** ** [correction] *)

(** Lines 14-16: the inner loop for one epsilon nonterminal [r]. *)
Definition erase_symbol (r : str) (dr : str) (geramer : grammar) : outcome grammar :=
  w <- getitem geramer dr ;;
  if contains r w
  then Done (setitem geramer dr (replace w r ""))
  else Done geramer.

(** Lines 12-16: the first loop, which rewrites [geramer] in place. *)
Definition erase_epsilon (r : str) (geramer : grammar) : outcome grammar :=
  v <- getitem geramer r ;;
  if eqb_str v "ep"
  then for_each (keys geramer) (erase_symbol r) geramer
  else Done geramer.

(** Lines 17-19: the second loop, which copies what is not epsilon. *)
Definition keep_rule (geramer : grammar) (r : str) (corrected_geramer : grammar)
  : outcome grammar :=
  v <- getitem geramer r ;;
  if negb (eqb_str v "ep")
  then Done (setitem corrected_geramer r v)
  else Done corrected_geramer.

Definition correction (geramer : grammar) : outcome grammar :=
  geramer' <- for_each (keys geramer) erase_epsilon geramer ;;
  for_each (keys geramer') (keep_rule geramer') [].

(** ** [get_none_terminals] and [get_terminals] *)

Definition get_none_terminals (gramer : grammar) : list str := keys gramer.

(** Lines 31-37: one symbol of a right-hand side. *)
Definition add_terminal (none_terminals : list str) (c : ascii) (terminals : list str)
  : outcome (list str) :=
  let symbol : str := [c] in
  if negb (mem symbol terminals) && negb (eqb_str symbol "d")
     && negb (mem symbol none_terminals)
  then if eqb_str symbol "i"
       then if negb (mem ("id" : str) terminals)
            then Done (terminals ++ ["id" : str])
            else Done terminals
       else Done (terminals ++ [symbol])
  else Done terminals.

Definition get_terminals (gramer : grammar) (none_terminals : list str)
  : outcome (list str) :=
  terminals <- for_each (keys gramer)
                 (fun rule terminals =>
                    body <- getitem gramer rule ;;
                    for_each body (add_terminal none_terminals) terminals) [] ;;
  Done (terminals ++ ["$" : str]).

(** ** [firsts] *)

(** Lines 48-55: the [while] loop for the nonterminal [t]; the state is
    the dictionary under construction and the chain cursor [tg]. *)
Fixpoint first_loop (fuel : nat) (gramer : grammar) (none_terminals : list str)
  (t : str) (firsts_dict : dict str) (tg : str) : outcome (dict str) :=
  v <- getitem firsts_dict t ;;
  if eqb_str v ""
  then match fuel with
       | O => OutOfFuel
       | S fuel' =>
           body <- getitem gramer tg ;;
           c <- char_at body 0 ;;
           if negb (mem c none_terminals)
           then if eqb_str (slice02 body) "id"
                then first_loop fuel' gramer none_terminals t
                       (setitem firsts_dict t (slice02 body)) tg
                else first_loop fuel' gramer none_terminals t
                       (setitem firsts_dict t c) tg
           else first_loop fuel' gramer none_terminals t firsts_dict c
       end
  else Done firsts_dict.

(** Lines 43-57: the body of the [for] loop. *)
Definition first_of (fuel : nat) (gramer : grammar) (none_terminals : list str)
  (t : str) (firsts_dict : dict str) : outcome (dict str) :=
  body <- getitem gramer t ;;
  if eqb_str (slice02 body) "id"
  then Done (setitem firsts_dict t (slice02 body))
  else c <- char_at body 0 ;;
       if mem c none_terminals
       then first_loop fuel gramer none_terminals t (setitem firsts_dict t "") c
       else Done (setitem firsts_dict t c).

Definition firsts (fuel : nat) (gramer : grammar) (none_terminals : list str)
  : outcome (dict str) :=
  for_each (keys gramer) (first_of fuel gramer none_terminals) [].

(** ** [follows] *)

(** [s.index(sub, start)]. *)
Fixpoint index_scan (sub s : str) (start pos : nat) : outcome nat :=
  if Nat.leb start pos && prefixb sub s
  then Done pos
  else match s with
       | [] => Raised ValueError
       | _ :: s' => index_scan sub s' start (S pos)
       end.

Definition str_index (s sub : str) (start : nat) : outcome nat :=
  index_scan sub s start 0.

(** [s.count(sub)]: the number of non-overlapping occurrences. *)
Fixpoint count_scan (sub : str) (skip : nat) (s : str) : nat :=
  match s with
  | [] => 0
  | _ :: s' =>
      match skip with
      | S k => count_scan sub k s'
      | O => if prefixb sub s
             then S (count_scan sub (length sub - 1) s')
             else count_scan sub 0 s'
      end
  end.

Definition str_count (s sub : str) : nat :=
  match sub with
  | [] => S (length s)
  | _ :: _ => count_scan sub 0 s
  end.

(** Lines 77-83: the symbol after the occurrence of [n_t_s] at offset
    [i] of [gramer[rule]] is recorded in [follows_dict[n_t_s]].  The
    function reads the global [first], not its parameter [firsts]. *)
Definition follow_after (gramer : grammar) (first : dict str)
  (none_terminals : list str) (rule n_t_s : str) (i : nat)
  (follows_dict : dict str) : outcome (dict str) :=
  body <- getitem gramer rule ;;
  let string := body ++ ("|" : str) in
  nxt <- char_at string (i + 1) ;;
  c1 <- (if mem nxt none_terminals
         then f <- getitem first nxt ;;
              fo <- getitem follows_dict n_t_s ;;
              Done (negb (contains f fo))
         else Done false) ;;
  if (c1 : bool)
  then fo <- getitem follows_dict n_t_s ;;
       f <- getitem first nxt ;;
       Done (setitem follows_dict n_t_s (fo ++ f ++ ("," : str)))
  else
    c2 <- (if eqb_str (slice string (i + 1) (i + 3)) "id"
           then fo <- getitem follows_dict n_t_s ;;
                Done (negb (contains "id" fo))
           else Done false) ;;
    if (c2 : bool)
    then fo <- getitem follows_dict n_t_s ;;
         Done (setitem follows_dict n_t_s (fo ++ ("id," : str)))
    else
      c3 <- (if negb (eqb_str nxt "|")
             then fo <- getitem follows_dict n_t_s ;;
                  Done (negb (contains nxt fo))
             else Done false) ;;
      if (c3 : bool)
      then fo <- getitem follows_dict n_t_s ;;
           Done (setitem follows_dict n_t_s (fo ++ nxt ++ ("," : str)))
      else Done follows_dict.

(** Lines 72-83: one round of the occurrence loop; the state is
    [(follows_dict, n_t_s_indexes, indx)]. *)
Definition occurrence_round (gramer : grammar) (first : dict str)
  (none_terminals : list str) (rule n_t_s : str) (_ : nat)
  (st : dict str * list nat * nat) : outcome (dict str * list nat * nat) :=
  let '(follows_dict, n_t_s_indexes, indx) := st in
  body <- getitem gramer rule ;;
  indx <- str_index body n_t_s indx ;;
  let n_t_s_indexes := n_t_s_indexes ++ [indx] in
  let indx := indx + 1 in
  follows_dict <- for_each n_t_s_indexes
                    (follow_after gramer first none_terminals rule n_t_s)
                    follows_dict ;;
  Done (follows_dict, n_t_s_indexes, indx).

(** Lines 66-83: one symbol of [gramer[rule]]. *)
Definition rule2_symbol (gramer : grammar) (first : dict str)
  (none_terminals : list str) (rule : str) (c : ascii)
  (follows_dict : dict str) : outcome (dict str) :=
  let symbol : str := [c] in
  if mem symbol none_terminals
  then let n_t_s := symbol in
       body <- getitem gramer rule ;;
       let n_t_s_count := str_count body n_t_s in
       st <- for_each (seq 0 n_t_s_count)
               (occurrence_round gramer first none_terminals rule n_t_s)
               (follows_dict, [], 0) ;;
       Done (fst (fst st))
  else Done follows_dict.

Definition rule2 (gramer : grammar) (first : dict str)
  (none_terminals : list str) (rule : str) (follows_dict : dict str)
  : outcome (dict str) :=
  body <- getitem gramer rule ;;
  for_each body (rule2_symbol gramer first none_terminals rule) follows_dict.

(** Lines 88-101: one character of [follows_dict[rule]] is offered to
    the FOLLOW string of [target], the last symbol of [gramer[rule]]. *)
Definition rule3_symbol (target : str) (c : ascii) (follows_dict : dict str)
  : outcome (dict str) :=
  let symbol : str := [c] in
  t <- getitem follows_dict target ;;
  if negb (contains symbol t)
  then if eqb_str symbol "i"
       then if eqb_str t ""
            then Done (setitem follows_dict target (t ++ ("id" : str)))
            else Done (setitem follows_dict target (t ++ (",id" : str)))
       else if negb (eqb_str symbol ",")
            then if eqb_str t ""
                 then Done (setitem follows_dict target (t ++ symbol))
                 else l <- last_char t ;;
                      if negb (eqb_str l ",")
                      then Done (setitem follows_dict target (t ++ ("," : str) ++ symbol))
                      else Done (setitem follows_dict target (t ++ symbol))
            else Done follows_dict
  else Done follows_dict.

(** Lines 86-101; the [for] loop runs over the string that
    [follows_dict[rule]] holds when the loop starts. *)
Definition rule3 (gramer : grammar) (none_terminals : list str) (rule : str)
  (follows_dict : dict str) : outcome (dict str) :=
  body <- getitem gramer rule ;;
  l <- last_char body ;;
  if mem l none_terminals
  then src <- getitem follows_dict rule ;;
       for_each src (rule3_symbol l) follows_dict
  else Done follows_dict.

(** Lines 103-104. *)
Definition strip_comma (rule : str) (follows_dict : dict str) : outcome (dict str) :=
  v <- getitem follows_dict rule ;;
  if negb (eqb_str v "")
  then l <- last_char v ;;
       if eqb_str l ","
       then Done (setitem follows_dict rule (removelast v))
       else Done follows_dict
  else Done follows_dict.

(** Lines 107-110. *)
Definition rule1 (rule : str) (follows_dict : dict str) : outcome (dict str) :=
  v <- getitem follows_dict rule ;;
  if negb (eqb_str v "")
  then Done (setitem follows_dict rule (v ++ (",$" : str)))
  else Done (setitem follows_dict rule "$").

(** The dictionary after line 63, after rule 2 and after rule 3. *)
Definition follows_init (gramer : grammar) : outcome (dict str) :=
  for_each (keys gramer) (fun rule d => Done (setitem d rule ("" : str))) [].

Definition follows_rule2 (gramer : grammar) (first : dict str)
  (none_terminals : list str) : outcome (dict str) :=
  d <- follows_init gramer ;;
  for_each (keys gramer) (rule2 gramer first none_terminals) d.

Definition follows_rule3 (gramer : grammar) (first : dict str)
  (none_terminals : list str) : outcome (dict str) :=
  d <- follows_rule2 gramer first none_terminals ;;
  for_each (keys gramer) (rule3 gramer none_terminals) d.

(** [follows(gramer, firsts, none_terminals)]: the parameter [firsts] is
    never read, [first] is the global that the script sets at line 181. *)
Definition follows (first : dict str) (gramer : grammar) (firsts : dict str)
  (none_terminals : list str) : outcome (dict str) :=
  d <- follows_rule3 gramer first none_terminals ;;
  d <- for_each (keys d) strip_comma d ;;
  for_each (keys d) rule1 d.

(** ** [creat_chart] *)

(** [l[i] = v] for a list. *)
Fixpoint assign {A : Type} (l : list A) (i : nat) (v : A) : outcome (list A) :=
  match l, i with
  | [], _ => Raised IndexError
  | _ :: l', O => Done (v :: l')
  | a :: l', S i' => l'' <- assign l' i' v ;; Done (a :: l'')
  end.

Definition table := list (list str).

(** [chart[i][j]] and [chart[i][j] = v]. *)
Definition get_cell (chart : table) (i j : nat) : outcome str :=
  row <- item chart i ;;
  item row j.

Definition set_cell (chart : table) (i j : nat) (v : str) : outcome table :=
  row <- item chart i ;;
  row' <- assign row j v ;;
  assign chart i row'.

(** The string that fills the table before any production is entered
    (line 125). *)
Definition blank : str := " ".

(** Lines 134-136: one cell. *)
Definition fill_cell (gramer : grammar) (firsts : dict str) (i j : nat)
  (chart : table) : outcome table :=
  a <- get_cell chart (i + 1) 0 ;;
  f <- getitem firsts a ;;
  t <- get_cell chart 0 (j + 1) ;;
  if eqb_str f t
  then body <- getitem gramer a ;;
       set_cell chart (i + 1) (j + 1) body
  else Done chart.

(** Lines 133-136: one row. *)
Definition fill_row (gramer : grammar) (firsts : dict str) (i : nat)
  (chart : table) : outcome table :=
  row0 <- item chart 0 ;;
  for_each (seq 0 (length row0 - 1)) (fill_cell gramer firsts i) chart.

(** Lines 114-120 compute [longest_len] and [spaces], which nothing
    reads afterwards; [follows] is not read either. *)
Definition creat_chart (gramer : grammar) (firsts follows : dict str)
  (none_terminals terminals : list str) : outcome table :=
  let chart : table :=
    repeat (repeat blank (length terminals + 1)) (length none_terminals + 1) in
  chart <- set_cell chart 0 0 blank ;;
  chart <- for_each (seq 0 (length terminals))
             (fun i chart => t <- item terminals i ;; set_cell chart 0 (i + 1) t)
             chart ;;
  chart <- for_each (seq 0 (length chart - 1))
             (fun i chart => n <- item none_terminals i ;; set_cell chart (i + 1) 0 n)
             chart ;;
  for_each (seq 0 (length chart - 1)) (fill_row gramer firsts) chart.

(** ** [parse] *)

(** Lines 140-149. *)
Fixpoint make_list (st : str) : list str :=
  match st with
  | [] => []
  | c :: st' =>
      if eqb_str [c] "d" then make_list st'
      else if eqb_str [c] "i" then ("id" : str) :: make_list st'
      else [c] :: make_list st'
  end.

(** The three [return] statements of the loop: line 156, line 159 and
    line 169.  The first returns the message "Successful parse", the
    other two the message "String not accepted". *)
Inductive exit : Type :=
| Stack_at_dollar
| Empty_cell
| Symbol_mismatch.

Inductive verdict : Type := Accept | Reject.

Definition message (e : exit) : verdict :=
  match e with
  | Stack_at_dollar => Accept
  | Empty_cell => Reject
  | Symbol_mismatch => Reject
  end.

(** The variables of the loop. *)
Record config : Type := Config {
  stack : list str;
  i : nat;
  pointer : str
}.

(** One round of the loop either returns or goes on. *)
Inductive next : Type :=
| Return (e : exit) (c : config)
| Continue (c : config).

(** Lines 155-169: one round of the [while] loop. *)
Definition parse_step (string : list str) (chart : table)
  (none_terminals terminals : list str) (cf : config) : outcome next :=
  top <- item (stack cf) 0 ;;
  if eqb_str top "$"
  then Done (Return Stack_at_dollar cf)
  else if mem top none_terminals
  then r <- index_of top none_terminals ;;
       row <- item chart (r + 1) ;;
       c <- index_of (pointer cf) terminals ;;
       cell <- item row (c + 1) ;;
       if eqb_str cell ""
       then Done (Return Empty_cell cf)
       else let rule_result := make_list cell in
            Done (Continue (Config (rule_result ++ tl (stack cf)) (i cf) (pointer cf)))
  else if eqb_str top (pointer cf)
  then let i := i cf + 1 in
       pointer <- item string i ;;
       Done (Continue (Config (tl (stack cf)) i pointer))
  else Done (Return Symbol_mismatch cf).

(** Lines 154-169. *)
Fixpoint parse_loop (fuel : nat) (string : list str) (chart : table)
  (none_terminals terminals : list str) (cf : config) : outcome (exit * config) :=
  match fuel with
  | O => OutOfFuel
  | S fuel' =>
      n <- parse_step string chart none_terminals terminals cf ;;
      match n with
      | Return e cf' => Done (e, cf')
      | Continue cf' => parse_loop fuel' string chart none_terminals terminals cf'
      end
  end.

(** Line 150: the token list of the input. *)
Definition tokens (string : str) : list str := make_list string ++ ["$" : str].

(** Lines 150-153: the variables when the loop is entered. *)
Definition parse_init (string : str) (none_terminals : list str) : outcome config :=
  let string := tokens string in
  start <- item none_terminals 0 ;;
  let stack := [start; "$" : str] in
  let i := 0 in
  pointer <- item string i ;;
  Done (Config stack i pointer).

(** Lines 150-169, with the variables at the [return]. *)
Definition parse_run (fuel : nat) (string : str) (chart : table)
  (none_terminals terminals : list str) : outcome (exit * config) :=
  cf <- parse_init string none_terminals ;;
  parse_loop fuel (tokens string) chart none_terminals terminals cf.

Definition parse (fuel : nat) (string : str) (chart : table)
  (none_terminals terminals : list str) : outcome verdict :=
  r <- parse_run fuel string chart none_terminals terminals ;;
  Done (message (fst r)).

(** ** The script, lines 176-190 *)

Record analysis : Type := Analysis {
  Gramer : grammar;
  none_terminals : list str;
  first : dict str;
  follow : dict str;
  terminals : list str;
  chart : table
}.

Definition analyse (fuel : nat) (raw : grammar) : outcome analysis :=
  Gramer <- correction raw ;;
  let none_terminals := get_none_terminals Gramer in
  first <- firsts fuel Gramer none_terminals ;;
  follow <- follows first Gramer first none_terminals ;;
  terminals <- get_terminals Gramer none_terminals ;;
  chart <- creat_chart Gramer first follow none_terminals terminals ;;
  Done (Analysis Gramer none_terminals first follow terminals chart).

(** Lines 193-194. *)
Definition parse_with (fuel : nat) (a : analysis) (string : str) : outcome verdict :=
  parse fuel string (chart a) (none_terminals a) (terminals a).

(** The grammar in the comment at lines 172-175. *)
Definition example_grammar : grammar :=
  [("S" : str, "aBb" : str); ("B" : str, "+C" : str);
   ("C" : str, "(D)" : str); ("D" : str, "id" : str)].

(** * The vocabulary of the properties

    Predicates on grammars and strings, closed forms of what the loops
    compute, and the grammars used as examples. *)

(** ** Dictionaries and [correction] *)

(** A boolean check of [is_dict], for concrete dictionaries. *)
Fixpoint distinct (l : list str) : bool :=
  match l with
  | [] => true
  | x :: l' => negb (mem x l') && distinct l'
  end.

(** The test of line 18 on an entry of the dictionary. *)
Definition keepb (kv : str * str) : bool := negb (eqb_str (snd kv) "ep").

(** No production of [g] is the epsilon marker. *)
Definition no_epsilon (g : grammar) : Prop := forallb keepb g = true.

(** ** The table in closed form *)

(** What the cell of row [a] and column [t] holds. *)
Definition entry (gramer : grammar) (firsts : dict str) (a t : str) : str :=
  match getitem firsts a, getitem gramer a with
  | Done f, Done body => if eqb_str f t then body else blank
  | _, _ => blank
  end.

Definition header_row (terminals : list str) : list str := blank :: terminals.

Definition empty_row (terminals : list str) (a : str) : list str :=
  a :: repeat blank (length terminals).

Definition full_row (gramer : grammar) (firsts : dict str) (terminals : list str)
  (a : str) : list str :=
  a :: map (entry gramer firsts a) terminals.

(** The table while row [i], of nonterminal [a], is filled up to
    column [j]. *)
Definition partial_chart (gramer : grammar) (firsts : dict str)
  (none_terminals terminals : list str) (i : nat) (a : str) (j : nat) : table :=
  (header_row terminals
     :: map (full_row gramer firsts terminals) (firstn i none_terminals))
  ++ ((a :: map (entry gramer firsts a) (firstn j terminals))
      ++ repeat blank (length terminals - j))
  :: map (empty_row terminals) (skipn (S i) none_terminals).

(** [k in d] for every [k] of [l]. *)
Definition all_in {V : Type} (l : list str) (d : dict V) : bool :=
  forallb (fun k => mem k (keys d)) l.

(** FIRST of the example grammar, as the script prints it. *)
Definition example_first : dict str :=
  [("S" : str, "a" : str); ("B" : str, "+" : str);
   ("C" : str, "(" : str); ("D" : str, "id" : str)].

Definition example_terminals : list str :=
  ["a" : str; "b" : str; "+" : str; "(" : str; ")" : str; "id" : str; "$" : str].

(** ** FIRST values and chains of leading nonterminals *)

(** The value that the [while] loop assigns when it is entered with the
    cursor [tg]. *)
Fixpoint chain (fuel : nat) (gramer : grammar) (none_terminals : list str)
  (tg : str) : outcome str :=
  match fuel with
  | O => OutOfFuel
  | S fuel' =>
      body <- getitem gramer tg ;;
      c <- char_at body 0 ;;
      if negb (mem c none_terminals)
      then if eqb_str (slice02 body) "id" then Done (slice02 body) else Done c
      else chain fuel' gramer none_terminals c
  end.

(** The value that lines 43-57 assign to [firsts_dict[t]]. *)
Definition first_value (fuel : nat) (gramer : grammar) (none_terminals : list str)
  (t : str) : outcome str :=
  body <- getitem gramer t ;;
  if eqb_str (slice02 body) "id"
  then Done (slice02 body)
  else c <- char_at body 0 ;;
       if mem c none_terminals
       then chain fuel gramer none_terminals c
       else Done c.

(** The leading nonterminal of the production of [tg], when it has one:
    the reference that line 55 follows. *)
Definition link (gramer : grammar) (none_terminals : list str) (tg : str)
  : option str :=
  match getitem gramer tg with
  | Done (c :: _) => if mem [c] none_terminals then Some [c] else None
  | _ => None
  end.

Fixpoint iter_link (gramer : grammar) (none_terminals : list str) (n : nat)
  (tg : str) : option str :=
  match n with
  | O => Some tg
  | S n' => match link gramer none_terminals tg with
            | Some c => iter_link gramer none_terminals n' c
            | None => None
            end
  end.

(** No nonterminal leads back to itself. *)
Definition acyclic (gramer : grammar) (none_terminals : list str) : Prop :=
  forall a n, 0 < n -> iter_link gramer none_terminals n a <> Some a.

(** Every production has at least one symbol. *)
Definition nonempty_rules (gramer : grammar) : Prop :=
  forallb (fun kv => negb (eqb_str (snd kv) "")) gramer = true.

(** A string that is the atomic terminal [id] or one character that is
    not a nonterminal. *)
Definition single_terminal (none_terminals : list str) (v : str) : Prop :=
  v = "id" \/ exists c, v = [c] /\ mem [c] none_terminals = false.

(** The walk from [a] stops within [n] steps. *)
Fixpoint ends (g : grammar) (nts : list str) (n : nat) (a : str) : bool :=
  match n with
  | O => false
  | S n' => match link g nts a with
            | None => true
            | Some c => ends g nts n' c
            end
  end.

(** A check of [acyclic] for concrete grammars. *)
Definition acyclicb (g : grammar) (nts : list str) : bool :=
  forallb (ends g nts (length g)) (keys g).

(** The production of [a] begins with the characters [i], [d]. *)
Definition leads_with_id (g : grammar) (a : str) : bool :=
  match getitem g a with
  | Done body => eqb_str (slice02 body) "id"
  | _ => false
  end.

(** The grammar A -> B, B -> A. *)
Definition cyclic_grammar : grammar :=
  [("A" : str, "B" : str); ("B" : str, "A" : str)].

(** ** Runs of [parse] *)

(** The configurations that the loop goes through. *)
Inductive reaches (string : list str) (chart : table)
  (none_terminals terminals : list str) : config -> config -> Prop :=
| reaches_here (cf : config) :
    reaches string chart none_terminals terminals cf cf
| reaches_next (cf cf' cf'' : config) :
    parse_step string chart none_terminals terminals cf = Done (Continue cf') ->
    reaches string chart none_terminals terminals cf' cf'' ->
    reaches string chart none_terminals terminals cf cf''.

(** The table of the example grammar. *)
Definition example_chart : table :=
  Eval vm_compute in
    match creat_chart example_grammar example_first []
            (keys example_grammar) example_terminals with
    | Done chart => chart
    | _ => []
    end.

(** The grammar whose only production, that of S, is one space. *)
Definition space_grammar : grammar := [("S" : str, " " : str)].

(** The grammar S -> a. *)
Definition letter_grammar : grammar := [("S" : str, "a" : str)].

(** ** FOLLOW strings *)

(** The pieces of a string between its commas. *)
Fixpoint split_comma (s : str) : list str :=
  match s with
  | [] => [[]]
  | c :: s' =>
      if Ascii.eqb c ","%char
      then [] :: split_comma s'
      else match split_comma s' with
           | [] => [[c]]
           | h :: t => (c :: h) :: t
           end
  end.

(** The entries of a FOLLOW string: its non-empty pieces. *)
Definition fields (s : str) : list str :=
  filter (fun f => negb (eqb_str f "")) (split_comma s).

(** The same entry is not recorded twice. *)
Definition no_duplicate (s : str) : Prop := NoDup (fields s).

(** [d'] holds every string of [d], possibly with more text at its
    end. *)
Definition grows (d d' : dict str) : Prop :=
  forall k s, getitem d k = Done s -> exists more, getitem d' k = Done (s ++ more).

(** No production contains the character [$]. *)
Definition no_dollar (g : grammar) : Prop :=
  forallb (fun kv => negb (existsb (Ascii.eqb "$"%char) (snd kv))) g = true.

(** A FIRST value is [id] or one character of some production. *)
Definition first_shape (g : grammar) (v : str) : Prop :=
  v = "id" \/ exists c k body, v = [c] /\ getitem g k = Done body /\ In c body.

(** A FOLLOW string under construction: no entry twice and, when the
    grammar does not use [$], no [$] yet. *)
Definition tidy (g : grammar) (s : str) : Prop :=
  no_dollar g -> NoDup (fields s) /\ ~ In "$"%char s.

(** The shape of the strings while rule 2 runs. *)
Definition comma_ended (s : str) : Prop :=
  s = [] \/ exists s', s = s' ++ ("," : str).

Definition rule2_string (g : grammar) (s : str) : Prop :=
  comma_ended s /\ tidy g s.

(** A finished FOLLOW string. *)
Definition finished (g : grammar) (s : str) : Prop :=
  (exists earlier, fields s = earlier ++ [("$" : str)])
  /\ (no_dollar g -> no_duplicate s).

(** The dictionary of FOLLOW strings has an entry per nonterminal and
    every string in it satisfies [V]. *)
Definition ok (g : grammar) (V : str -> Prop) (d : dict str) : Prop :=
  is_dict d /\ (forall k, In k (keys g) -> In k (keys d))
  /\ (forall k s, getitem d k = Done s -> V s).

(** The grammar S -> A$, A -> a. *)
Definition dollar_grammar : grammar :=
  [("S" : str, "A$" : str); ("A" : str, "a" : str)].

(** What lines 103-104 leave of a FOLLOW string. *)
Definition stripped (v : str) : str :=
  match last_char v with
  | Done l => if eqb_str l "," then removelast v else v
  | _ => v
  end.

(** What lines 107-110 make of a FOLLOW string. *)
Definition with_dollar (v : str) : str :=
  if negb (eqb_str v "") then v ++ (",$" : str) else ("$" : str).

(** ** Epsilon nonterminals *)

(** No nonterminal is named [e], [p] or [ep]. *)
Definition plain_names (g : grammar) : Prop :=
  forallb (fun k => negb (eqb_str k "e" || eqb_str k "p" || eqb_str k "ep")) (keys g)
  = true.

(** No production in [s] contains the character [c]. *)
Definition clean (c : ascii) (s : grammar) : Prop :=
  forall k v, getitem s k = Done v -> ~ In c v.

(** The productions that are the epsilon marker in [g] are so in [s]. *)
Definition keeps_epsilon (g s : grammar) : Prop :=
  forall k, getitem g k = Done ("ep" : str) -> getitem s k = Done ("ep" : str).

(** ** The input of [get_gramer] *)

(** The lines that enter the rules [pairs], in this order. *)
Definition entered (pairs : list (str * str)) : list str :=
  flat_map (fun kv => [fst kv; snd kv]) pairs.

(** ** Terminal lists *)

(** The entry of the terminal list, and the token of [make_list], that
    stands for the character [c]. *)
Definition terminal_of (c : ascii) : str :=
  if eqb_str [c] "i" then ("id" : str) else [c].

(** The character [c] occurs in a production of [g]. *)
Definition occurs (g : grammar) (c : ascii) : Prop :=
  exists k body, getitem g k = Done body /\ In c body.

(** The characters that line 32 lets through: not [d] and not a
    nonterminal. *)
Definition listed (nts : list str) (c : ascii) : Prop :=
  c <> "d"%char /\ mem [c] nts = false.

(** The list under construction: no entry twice and no entry [i]. *)
Definition terminal_list (ts : list str) : Prop :=
  NoDup ts /\ ~ In ("i" : str) ts.

(** ** Deletions *)

(** [l1] is [l2] with some elements deleted. *)
Inductive subseq {A : Type} : list A -> list A -> Prop :=
| subseq_nil : subseq [] []
| subseq_skip (x : A) (l1 l2 : list A) : subseq l1 l2 -> subseq l1 (x :: l2)
| subseq_keep (x : A) (l1 l2 : list A) : subseq l1 l2 -> subseq (x :: l1) (x :: l2).

(** Under each of its keys [s] holds a production of [g] with some
    characters deleted. *)
Definition shrunk (g s : grammar) : Prop :=
  forall k v', getitem s k = Done v' -> exists v, getitem g k = Done v /\ subseq v' v.

(** The grammar S -> Ab, A -> ep. *)
Definition epsilon_grammar : grammar :=
  [("S" : str, "Ab" : str); ("A" : str, "ep" : str)].

(** ** Nonterminals in productions *)

(** The grammar S -> Ab, A -> Bc, B -> id and its FIRST values. *)
Definition chain_grammar : grammar :=
  [("S" : str, "Ab" : str); ("A" : str, "Bc" : str); ("B" : str, "id" : str)].

Definition chain_first : dict str :=
  [("S" : str, "id" : str); ("A" : str, "id" : str); ("B" : str, "id" : str)].

(** The nonterminal [a] occurs in no production. *)
Definition unreferenced (g : grammar) (a : str) : Prop :=
  forall c, occurs g c -> a <> [c].

(** ** Derivations *)

(** A sentential form is a list of stack symbols; a step replaces one
    occurrence of a nonterminal by the symbols of its production, as
    line 161 reads them off the table. *)
Inductive derives (g : grammar) (nts : list str) : list str -> list str -> Prop :=
| derives_refl (w : list str) : derives g nts w w
| derives_step (u v w : list str) (a body : str) :
    mem a nts = true -> getitem g a = Done body ->
    derives g nts (u ++ make_list body ++ v) w ->
    derives g nts (u ++ a :: v) w.

(** The tokens [w] are what the stack symbols [form] expand to, each
    nonterminal by its production. *)
Inductive yields (g : grammar) (nts : list str) : list str -> list str -> Prop :=
| yields_nil : yields g nts [] []
| yields_terminal (x : str) (form w : list str) :
    mem x nts = false -> yields g nts form w -> yields g nts (x :: form) (x :: w)
| yields_nonterminal (a body : str) (form w1 w2 : list str) :
    mem a nts = true -> getitem g a = Done body ->
    yields g nts (make_list body) w1 -> yields g nts form w2 ->
    yields g nts (a :: form) (w1 ++ w2).

(** No symbol of [w] is a nonterminal. *)
Definition sentence (nts : list str) (w : list str) : Prop :=
  forallb (fun x => negb (mem x nts)) w = true.

(** No nonterminal is named [d], [i], [id] or with the blank string:
    the strings that [make_list] and the table treat specially. *)
Definition token_names (g : grammar) : Prop :=
  forallb (fun k => negb (eqb_str k "d" || eqb_str k "i" || eqb_str k "id"
                          || eqb_str k blank)) (keys g) = true.

(** No production begins with the character [d], nor with an [i] that
    is not followed by [d]. *)
Definition leads_plainly (g : grammar) : Prop :=
  forallb (fun kv => match snd kv with
                     | [] => true
                     | c :: _ => negb (eqb_str [c] "d")
                                 && (negb (eqb_str [c] "i")
                                     || eqb_str (slice02 (snd kv)) "id")
                     end) g = true.

(** The sentence of the example grammar. *)
Definition example_sentence : list str :=
  ["a" : str; "+" : str; "(" : str; "id" : str; ")" : str; "b" : str].

(** ** Configurations of [parse] *)

(** The stack holds [$] at its bottom. *)
Definition bottomed (cf : config) : Prop :=
  exists pre, stack cf = pre ++ [("$" : str)].

(** The cell of the table that [parse] reads for a nonterminal with the
    FIRST value [f] and the production [body] under the token [t]. *)
Definition cell_of (f body t : str) : str :=
  if eqb_str f t then body else blank.

(** What holds of the variables of the loop on the input [string] with
    the start symbol [start]: no token before the cursor is a
    nonterminal, and these tokens followed by the stack above [$] are
    derived from the start symbol; or the blank string is on top of the
    stack. *)
Definition derived (g : grammar) (string : str) (start : str) (cf : config) : Prop :=
  item (tokens string) (i cf) = Done (pointer cf) /\
  sentence (keys g) (firstn (i cf) (tokens string)) /\
  ((exists pre,
      stack cf = pre ++ [("$" : str)] /\
      derives g (keys g) [start] (firstn (i cf) (tokens string) ++ pre) /\
      (no_dollar g -> mem ("$" : str) (keys g) = false -> ~ In ("$" : str) pre))
   \/ exists rest, stack cf = blank :: rest).

(** The variables of the loop, by the stack and the cursor. *)
Definition at_cursor (string : list str) (st : list str) (n : nat) : config :=
  Config st n (nth n string []).

(** The loop, entered with the variables [cf], returns at line 156. *)
Definition accepts (string : list str) (chart : table) (nts ts : list str)
  (cf : config) : Prop :=
  exists k r, parse_loop k string chart nts ts cf = Done (Stack_at_dollar, r).

(** The number of leading nonterminals that are walked through from
    [a], counted up to [n]. *)
Fixpoint rank (g : grammar) (nts : list str) (n : nat) (a : str) : nat :=
  match n with
  | O => 0
  | S n' => match link g nts a with
            | None => 0
            | Some c => S (rank g nts n' c)
            end
  end.

(** The rounds that the symbol on top of the stack still allows before
    a token is consumed or the loop is left. *)
Definition potential (g : grammar) (n : nat) (stack : list str) : nat :=
  match stack with
  | [] => 0
  | top :: _ => if mem top (keys g) then rank g (keys g) n top + 2 else 1
  end.

(** The measure that every round of the loop decreases. *)
Definition rounds_left (g : grammar) (n : nat) (string : list str) (cf : config) : nat :=
  (length string - i cf) * (n + 3) + potential g n (stack cf).

(** ** What [follows] records *)

(** What lines 78-83 have to record for the occurrence of a nonterminal
    at offset [i] of [body]: the FIRST value of the next symbol when it
    is a nonterminal, [id] when the next two characters are [i], [d],
    the next character otherwise, and nothing at the end of [body]. *)
Definition recorded (fd : dict str) (nts : list str) (body : str) (i : nat) : str :=
  let string := body ++ ("|" : str) in
  match nth_error string (i + 1) with
  | Some y =>
      if mem [y] nts
      then match getitem fd [y] with
           | Done f => f
           | _ => []
           end
      else if eqb_str (slice string (i + 1) (i + 3)) "id" then ("id" : str)
      else if eqb_str [y] "|" then [] else [y]
  | None => []
  end.

(** The FOLLOW string of [n] in [d] has the text [e] in it, in the
    sense of the test [e in follows_dict[n]] of lines 78-82. *)
Definition holds (d : dict str) (n e : str) : Prop :=
  exists s, getitem d n = Done s /\ contains e s = true.

(** ** Grammars that use the space *)

(** The grammar S -> a b, whose production holds a space. *)
Definition spaced_grammar : grammar := [("S" : str, "a b" : str)].

(** The grammar whose only production, that of S, is empty. *)
Definition empty_grammar : grammar := [("S" : str, "" : str)].

(** The grammar S -> ab with a second nonterminal, named with one
    space, whose production is b. *)
Definition blank_named_grammar : grammar :=
  [("S" : str, "ab" : str); (" " : str, "b" : str)].

(** * Properties *)

(** ** Strings, results and dictionaries *)

Lemma eqb_str_spec (a b : str) : reflect (a = b) (eqb_str a b).
Proof.
  revert b; induction a as [|x a IH]; intros [|y b]; simpl;
    try (constructor; congruence).
  destruct (Ascii.eqb_spec x y) as [->|Hxy]; simpl.
  - destruct (IH b) as [->|Hab]; constructor; congruence.
  - constructor; congruence.
Qed.

Lemma eqb_str_refl (a : str) : eqb_str a a = true.
Proof. destruct (eqb_str_spec a a); congruence. Qed.

Lemma eqb_str_eq (a b : str) : eqb_str a b = true <-> a = b.
Proof. destruct (eqb_str_spec a b); split; congruence. Qed.

Lemma eqb_str_neq (a b : str) : eqb_str a b = false <-> a <> b.
Proof. destruct (eqb_str_spec a b); split; congruence. Qed.

Lemma mem_In (x : str) (l : list str) : mem x l = true <-> In x l.
Proof.
  unfold mem; rewrite existsb_exists; split.
  - intros (y & Hy & E); apply eqb_str_eq in E; subst; exact Hy.
  - intros H; exists x; split; [exact H | apply eqb_str_refl].
Qed.

Lemma mem_not_In (x : str) (l : list str) : mem x l = false <-> ~ In x l.
Proof.
  rewrite <- mem_In; destruct (mem x l); split; congruence.
Qed.

Lemma bind_Done {A B : Type} (c : outcome A) (k : A -> outcome B) (b : B) :
  bind c k = Done b -> exists a, c = Done a /\ k a = Done b.
Proof. destruct c; simpl; intros H; try discriminate; eauto. Qed.

(** A loop whose body keeps an invariant and cannot fail under it runs
    to completion and ends in a state with the invariant. *)
Lemma for_each_total {A S : Type} (P : S -> Prop) (body : A -> S -> outcome S)
  (l : list A) :
  (forall a s, In a l -> P s -> exists s', body a s = Done s' /\ P s') ->
  forall s, P s -> exists s', for_each l body s = Done s' /\ P s'.
Proof.
  induction l as [|a l IH]; intros Hb s Hs; simpl.
  - eauto.
  - destruct (Hb a s (or_introl eq_refl) Hs) as (s1 & -> & H1); simpl.
    apply IH; [|exact H1].
    intros a' s' Ha'; apply Hb; right; exact Ha'.
Qed.

(** An invariant of the body is an invariant of the loop. *)
Lemma for_each_inv {A S : Type} (P : S -> Prop) (body : A -> S -> outcome S)
  (l : list A) :
  (forall a s s', In a l -> P s -> body a s = Done s' -> P s') ->
  forall s s', P s -> for_each l body s = Done s' -> P s'.
Proof.
  induction l as [|a l IH]; intros Hb s s' Hs; simpl.
  - intros [= <-]; exact Hs.
  - intros H; apply bind_Done in H as (s1 & H1 & H2).
    apply (IH (fun a' t t' Ha' => Hb a' t t' (or_intror Ha')) s1 s'); [|exact H2].
    apply (Hb a s s1); [left; reflexivity | exact Hs | exact H1].
Qed.

Lemma getitem_In {V : Type} (d : dict V) (k : str) :
  In k (keys d) -> exists v, getitem d k = Done v.
Proof.
  induction d as [|[k' v'] d IH]; simpl; [tauto|].
  intros [->|H].
  - rewrite eqb_str_refl; eauto.
  - destruct (eqb_str k' k); eauto.
Qed.

Lemma getitem_Done_In {V : Type} (d : dict V) (k : str) (v : V) :
  getitem d k = Done v -> In (k, v) d.
Proof.
  induction d as [|[k' v'] d IH]; simpl; [discriminate|].
  destruct (eqb_str_spec k' k) as [->|Hk].
  - intros [= ->]; left; reflexivity.
  - intros H; right; apply IH, H.
Qed.

Lemma getitem_Done_key {V : Type} (d : dict V) (k : str) (v : V) :
  getitem d k = Done v -> In k (keys d).
Proof.
  intros H; apply getitem_Done_In in H.
  apply (in_map fst) in H; exact H.
Qed.

Lemma getitem_not_In {V : Type} (d : dict V) (k : str) :
  ~ In k (keys d) -> getitem d k = Raised KeyError.
Proof.
  induction d as [|[k' v'] d IH]; simpl; [reflexivity|].
  intros H; destruct (eqb_str_spec k' k) as [->|Hk]; [tauto|].
  apply IH; tauto.
Qed.

Lemma In_getitem {V : Type} (d : dict V) (k : str) (v : V) :
  is_dict d -> In (k, v) d -> getitem d k = Done v.
Proof.
  unfold is_dict; induction d as [|[k' v'] d IH]; simpl; [tauto|].
  intros Hnd [[= -> ->]|H].
  - rewrite eqb_str_refl; reflexivity.
  - inversion Hnd as [|? ? Hk' Hd]; subst.
    destruct (eqb_str_spec k' k) as [->|Hk].
    + exfalso; apply Hk'. apply (in_map fst) in H; exact H.
    + apply IH; assumption.
Qed.

Lemma getitem_setitem_same {V : Type} (d : dict V) (k : str) (v : V) :
  getitem (setitem d k v) k = Done v.
Proof.
  induction d as [|[k' v'] d IH]; simpl.
  - rewrite eqb_str_refl; reflexivity.
  - destruct (eqb_str k' k) eqn:E; simpl; rewrite E; auto.
Qed.

Lemma getitem_setitem_other {V : Type} (d : dict V) (k k0 : str) (v : V) :
  k <> k0 -> getitem (setitem d k v) k0 = getitem d k0.
Proof.
  intros Hk; induction d as [|[k' v'] d IH]; simpl.
  - apply eqb_str_neq in Hk; rewrite Hk; reflexivity.
  - destruct (eqb_str_spec k' k) as [->|Hk']; simpl.
    + apply eqb_str_neq in Hk; rewrite Hk; reflexivity.
    + rewrite IH; reflexivity.
Qed.

Lemma keys_setitem_In {V : Type} (d : dict V) (k : str) (v : V) :
  In k (keys d) -> keys (setitem d k v) = keys d.
Proof.
  induction d as [|[k' v'] d IH]; simpl; [tauto|].
  intros H; destruct (eqb_str_spec k' k) as [->|Hk]; simpl; [reflexivity|].
  f_equal; apply IH; destruct H; [contradiction | assumption].
Qed.

Lemma keys_setitem_new {V : Type} (d : dict V) (k : str) (v : V) :
  ~ In k (keys d) -> setitem d k v = d ++ [(k, v)].
Proof.
  induction d as [|[k' v'] d IH]; simpl; [reflexivity|].
  intros H; destruct (eqb_str_spec k' k) as [->|Hk]; [tauto|].
  f_equal; apply IH; tauto.
Qed.

Lemma In_keys_setitem {V : Type} (d : dict V) (k k0 : str) (v : V) :
  In k0 (keys (setitem d k v)) <-> k0 = k \/ In k0 (keys d).
Proof.
  induction d as [|[k' v'] d IH]; simpl.
  - intuition.
  - destruct (eqb_str_spec k' k) as [->|Hk]; simpl; [intuition|].
    rewrite IH; intuition.
Qed.

Lemma distinct_NoDup (l : list str) : distinct l = true -> NoDup l.
Proof.
  induction l as [|x l IH]; simpl; intros H; constructor;
    apply andb_true_iff in H as [H1 H2].
  - apply mem_not_In; destruct (mem x l); [discriminate | reflexivity].
  - apply IH, H2.
Qed.

Lemma is_dict_check {V : Type} (d : dict V) : distinct (keys d) = true -> is_dict d.
Proof. apply distinct_NoDup. Qed.

(** ** [correction] *)

Lemma keys_filter_incl (f : str * str -> bool) (g : grammar) (k : str) :
  In k (keys (filter f g)) -> In k (keys g).
Proof.
  unfold keys; rewrite !in_map_iff.
  intros (kv & E & H); apply filter_In in H as [H _]; eauto.
Qed.

Lemma is_dict_filter (f : str * str -> bool) (g : grammar) :
  is_dict g -> is_dict (filter f g).
Proof.
  unfold is_dict; induction g as [|[k v] g IH]; simpl; [auto|].
  intros H; inversion H as [|? ? Hk Hg]; subst.
  destruct (f (k, v)); simpl; [constructor|]; auto.
  intros Hin; apply Hk; apply (keys_filter_incl f g), Hin.
Qed.

(** The second loop copies the entries that are not epsilon, in order. *)
Lemma keep_loop (g2 g1 : grammar) :
  is_dict (g1 ++ g2) ->
  for_each (keys g2) (keep_rule (g1 ++ g2)) (filter keepb g1)
  = Done (filter keepb (g1 ++ g2)).
Proof.
  revert g1; induction g2 as [|[k v] g2 IH]; intros g1 Hd; simpl.
  - rewrite app_nil_r; reflexivity.
  - unfold keep_rule at 1.
    rewrite (In_getitem (g1 ++ (k, v) :: g2) k v Hd)
      by (apply in_or_app; right; left; reflexivity).
    simpl.
    assert (Hk : ~ In k (keys g1)).
    { unfold is_dict, keys in Hd; rewrite map_app in Hd; simpl in Hd.
      apply NoDup_remove_2 in Hd; intros H; apply Hd, in_or_app; left; exact H. }
    assert (E : g1 ++ (k, v) :: g2 = (g1 ++ [(k, v)]) ++ g2)
      by (rewrite <- app_assoc; reflexivity).
    destruct (negb (eqb_str v "ep")) eqn:Ev.
    + rewrite keys_setitem_new
        by (intros H; apply Hk; apply (keys_filter_incl keepb g1), H).
      rewrite E; rewrite <- IH by (rewrite <- E; exact Hd).
      rewrite filter_app; simpl.
      replace (keepb (k, v)) with true by (symmetry; exact Ev); reflexivity.
    + rewrite E; rewrite <- IH by (rewrite <- E; exact Hd).
      rewrite filter_app; simpl.
      replace (keepb (k, v)) with false by (symmetry; exact Ev).
      rewrite app_nil_r; reflexivity.
Qed.

Lemma erase_symbol_keys (r dr : str) (g : grammar) :
  In dr (keys g) ->
  exists g', erase_symbol r dr g = Done g' /\ keys g' = keys g.
Proof.
  intros H; unfold erase_symbol.
  destruct (getitem_In g dr H) as (w & ->); simpl.
  destruct (contains r w); eexists; split; try reflexivity.
  apply keys_setitem_In, H.
Qed.

Lemma erase_epsilon_keys (r : str) (g : grammar) :
  In r (keys g) ->
  exists g', erase_epsilon r g = Done g' /\ keys g' = keys g.
Proof.
  intros H; unfold erase_epsilon.
  destruct (getitem_In g r H) as (v & ->); simpl.
  destruct (eqb_str v "ep"); [|eauto].
  apply (for_each_total (fun s => keys s = keys g)); [|reflexivity].
  intros dr s Hdr Hs.
  destruct (erase_symbol_keys r dr s) as (s' & E & Hs'); [rewrite Hs; exact Hdr|].
  exists s'; split; [exact E | congruence].
Qed.

Lemma erase_loop_keys (g : grammar) :
  exists g1, for_each (keys g) erase_epsilon g = Done g1 /\ keys g1 = keys g.
Proof.
  apply (for_each_total (fun s => keys s = keys g)); [|reflexivity].
  intros r s Hr Hs.
  destruct (erase_epsilon_keys r s) as (s' & E & Hs'); [rewrite Hs; exact Hr|].
  exists s'; split; [exact E | congruence].
Qed.

(** [correction] returns on every dictionary; the result is what the
    second loop keeps of the rewritten dictionary. *)
Lemma correction_Done (g : grammar) :
  is_dict g ->
  exists g1, for_each (keys g) erase_epsilon g = Done g1 /\ keys g1 = keys g
             /\ correction g = Done (filter keepb g1).
Proof.
  intros Hd; destruct (erase_loop_keys g) as (g1 & E & Hk).
  exists g1; repeat split; auto.
  unfold correction; rewrite E; simpl.
  apply (keep_loop g1 []); simpl; unfold is_dict; rewrite Hk; exact Hd.
Qed.

Lemma correction_no_epsilon (g g' : grammar) :
  is_dict g -> correction g = Done g' -> is_dict g' /\ no_epsilon g'.
Proof.
  intros Hd H; destruct (correction_Done g Hd) as (g1 & _ & Hk & E).
  rewrite E in H; injection H as <-; split.
  - apply is_dict_filter; unfold is_dict; rewrite Hk; exact Hd.
  - unfold no_epsilon; apply forallb_forall; intros kv Hkv.
    apply filter_In in Hkv; tauto.
Qed.

Lemma erase_loop_noop (g : grammar) (l : list str) :
  no_epsilon g -> incl l (keys g) -> for_each l erase_epsilon g = Done g.
Proof.
  intros He; induction l as [|r l IH]; intros Hl; simpl; [reflexivity|].
  assert (Hr : In r (keys g)) by (apply Hl; left; reflexivity).
  destruct (getitem_In g r Hr) as (v & Ev).
  unfold erase_epsilon at 1; rewrite Ev; simpl.
  assert (Hv : eqb_str v "ep" = false).
  { apply getitem_Done_In in Ev.
    unfold no_epsilon in He; rewrite forallb_forall in He.
    specialize (He _ Ev); unfold keepb in He; simpl in He.
    destruct (eqb_str v "ep"); [discriminate | reflexivity]. }
  rewrite Hv; simpl; apply IH.
  intros x Hx; apply Hl; right; exact Hx.
Qed.

Lemma filter_all {A : Type} (f : A -> bool) (l : list A) :
  forallb f l = true -> filter f l = l.
Proof.
  induction l as [|a l IH]; simpl; [reflexivity|].
  intros H; apply andb_true_iff in H as [-> H]; f_equal; apply IH, H.
Qed.

Lemma correction_noop (g : grammar) :
  is_dict g -> no_epsilon g -> correction g = Done g.
Proof.
  intros Hd He; unfold correction.
  rewrite (erase_loop_noop g (keys g) He (incl_refl _)); simpl.
  pose proof (keep_loop g [] Hd) as E; simpl in E; rewrite E.
  rewrite (filter_all keepb g He); reflexivity.
Qed.

(** C8.  On a grammar without an epsilon production [correction]
    returns the grammar unchanged; and [correction] is idempotent: on
    every grammar it returns a grammar on which a second call returns
    the same grammar again. *)
Theorem correction_noop_idempotent (g : grammar)
  (Hdict : is_dict g) (Heps : no_epsilon g) :
  correction g = Done g /\
  (forall h : grammar, is_dict h ->
     exists h', correction h = Done h' /\ correction h' = Done h').
Proof.
  split; [apply correction_noop; assumption|].
  intros h Hh; destruct (correction_Done h Hh) as (h1 & _ & _ & E).
  exists (filter keepb h1); split; [exact E|].
  destruct (correction_no_epsilon h _ Hh E); apply correction_noop; assumption.
Qed.

(** The example grammar has no epsilon production. *)
Lemma correction_noop_idempotent_witness :
  correction example_grammar = Done example_grammar /\
  (forall h : grammar, is_dict h ->
     exists h', correction h = Done h' /\ correction h' = Done h').
Proof.
  apply (correction_noop_idempotent example_grammar).
  - apply is_dict_check; reflexivity.
  - reflexivity.
Defined.

(** ** Lists updated by index *)

Lemma for_each_seq {St : Type} (P : nat -> St -> Prop) (body : nat -> St -> outcome St)
  (m : nat) :
  forall k,
  (forall n s, k <= n < k + m -> P n s -> exists s', body n s = Done s' /\ P (1 + n) s') ->
  forall s, P k s -> exists s', for_each (seq k m) body s = Done s' /\ P (k + m) s'.
Proof.
  induction m as [|m IH]; intros k Hb s Hs; simpl.
  - rewrite Nat.add_0_r; eauto.
  - destruct (Hb k s) as (s1 & -> & H1); [lia | exact Hs |]; simpl.
    destruct (IH (S k)) with (s := s1) as (s2 & E & H2); [|exact H1|].
    + intros n s' Hn; apply Hb; lia.
    + exists s2; split; [exact E|].
      replace (k + S m) with (S k + m) by lia; exact H2.
Qed.

Lemma item_middle {A : Type} (l1 l2 : list A) (x : A) :
  item (l1 ++ x :: l2) (length l1) = Done x.
Proof.
  unfold item; rewrite nth_error_app2 by lia.
  rewrite Nat.sub_diag; reflexivity.
Qed.

Lemma assign_middle {A : Type} (l1 l2 : list A) (x v : A) :
  assign (l1 ++ x :: l2) (length l1) v = Done (l1 ++ v :: l2).
Proof.
  induction l1 as [|a l1 IH]; simpl; [reflexivity|].
  rewrite IH; reflexivity.
Qed.

Lemma get_cell_middle (R1 R2 : table) (c1 c2 : list str) (x : str) :
  get_cell (R1 ++ (c1 ++ x :: c2) :: R2) (length R1) (length c1) = Done x.
Proof.
  unfold get_cell; rewrite item_middle; simpl; apply item_middle.
Qed.

Lemma set_cell_middle (R1 R2 : table) (c1 c2 : list str) (x v : str) :
  set_cell (R1 ++ (c1 ++ x :: c2) :: R2) (length R1) (length c1) v
  = Done (R1 ++ (c1 ++ v :: c2) :: R2).
Proof.
  unfold set_cell; rewrite item_middle; simpl.
  rewrite assign_middle; simpl; apply assign_middle.
Qed.

Lemma firstn_snoc {A : Type} (l : list A) (n : nat) (x : A) :
  nth_error l n = Some x -> firstn (S n) l = firstn n l ++ [x].
Proof.
  revert n; induction l as [|a l IH]; intros [|n] H; try discriminate.
  - injection H as ->; reflexivity.
  - change (a :: firstn (S n) l = a :: (firstn n l ++ [x])).
    f_equal; apply IH, H.
Qed.

Lemma skipn_cons {A : Type} (l : list A) (n : nat) (x : A) :
  nth_error l n = Some x -> skipn n l = x :: skipn (S n) l.
Proof.
  revert n; induction l as [|a l IH]; intros [|n]; simpl; try discriminate.
  - intros [= ->]; reflexivity.
  - intros H; apply (IH n H).
Qed.

Lemma nth_error_Some_lt {A : Type} (l : list A) (n : nat) :
  n < length l -> exists x, nth_error l n = Some x.
Proof.
  intros H; destruct (nth_error l n) eqn:E; eauto.
  apply nth_error_None in E; lia.
Qed.

Lemma repeat_S_sub {A : Type} (x : A) (n m : nat) :
  n < m -> repeat x (m - n) = x :: repeat x (m - S n).
Proof.
  intros H; replace (m - n) with (S (m - S n)) by lia; reflexivity.
Qed.

(** ** [creat_chart] *)

Section Chart.

Variable gramer : grammar.
Variables firsts follows : dict str.
Variables none_terminals terminals : list str.

(** Every nonterminal has a FIRST entry and a production. *)
Hypothesis defined :
  forall a, In a none_terminals ->
    exists f body, getitem firsts a = Done f /\ getitem gramer a = Done body.

Local Abbreviation entry := (entry gramer firsts).
Local Abbreviation header_row := (header_row terminals).
Local Abbreviation empty_row := (empty_row terminals).
Local Abbreviation full_row := (full_row gramer firsts terminals).
Local Abbreviation partial_chart := (partial_chart gramer firsts none_terminals terminals).

Lemma header_loop (rest : table) :
  for_each (seq 0 (length terminals))
    (fun i chart => t <- item terminals i ;; set_cell chart 0 (i + 1) t)
    (repeat blank (length terminals + 1) :: rest)
  = Done (header_row :: rest).
Proof.
  destruct (@for_each_seq table
    (fun n ch => ch = (blank :: firstn n terminals
                         ++ repeat blank (length terminals - n)) :: rest)
    (fun i chart => t <- item terminals i ;; set_cell chart 0 (i + 1) t)
    (length terminals) 0) with (s := repeat blank (length terminals + 1) :: rest)
    as (s' & E & Hs').
  - intros n s Hn ->.
    destruct (nth_error_Some_lt terminals n) as (t & Ht); [lia|].
    unfold item; rewrite Ht; simpl.
    rewrite (repeat_S_sub blank) by lia.
    pose proof (set_cell_middle [] rest (blank :: firstn n terminals)
                  (repeat blank (length terminals - S n)) blank t) as E.
    simpl in E. rewrite length_firstn, Nat.min_l in E by lia.
    replace (n + 1) with (S n) by lia. rewrite E.
    eexists; split; [reflexivity|].
    pose proof (firstn_snoc _ _ _ Ht) as F; simpl in F |- *.
    rewrite F, <- app_assoc; reflexivity.
  - simpl; rewrite Nat.sub_0_r, Nat.add_1_r; reflexivity.
  - rewrite E, Hs'; simpl; rewrite firstn_all, Nat.sub_diag, app_nil_r; reflexivity.
Qed.

Lemma column_loop :
  for_each (seq 0 (length none_terminals))
    (fun i chart => n <- item none_terminals i ;; set_cell chart (i + 1) 0 n)
    (header_row :: repeat (repeat blank (length terminals + 1)) (length none_terminals))
  = Done (header_row :: map empty_row none_terminals).
Proof.
  rewrite Nat.add_1_r.
  destruct (for_each_seq
    (fun n ch => ch = header_row :: map empty_row (firstn n none_terminals)
                        ++ repeat (repeat blank (S (length terminals)))
                             (length none_terminals - n))
    (fun i chart => n <- item none_terminals i ;; set_cell chart (i + 1) 0 n)
    (length none_terminals) 0)
    with (s := header_row :: repeat (repeat blank (S (length terminals)))
                               (length none_terminals))
    as (s' & E & Hs').
  - intros n s Hn ->.
    destruct (nth_error_Some_lt none_terminals n) as (a & Ha); [lia|].
    unfold item; rewrite Ha. cbn [bind].
    rewrite (repeat_S_sub (repeat blank (S (length terminals)))) by lia.
    pose proof (set_cell_middle (header_row :: map empty_row (firstn n none_terminals))
                  (repeat (repeat blank (S (length terminals)))
                     (length none_terminals - S n))
                  [] (repeat blank (length terminals)) blank a) as E.
    cbn [length app] in E. rewrite length_map, length_firstn, Nat.min_l in E by lia.
    rewrite Nat.add_1_r. cbn [repeat] in E |- *. rewrite E.
    eexists; split; [reflexivity|].
    change (1 + n) with (S n).
    rewrite (firstn_snoc _ _ _ Ha), map_app, <- app_assoc; reflexivity.
  - rewrite Nat.sub_0_r; reflexivity.
  - subst s'. cbn [plus] in E.
    rewrite firstn_all, Nat.sub_diag, app_nil_r in E; exact E.
Qed.

Lemma get_cell_at (ch R1 R2 : table) (c1 c2 : list str) (x : str) (i j : nat) :
  ch = R1 ++ (c1 ++ x :: c2) :: R2 -> i = length R1 -> j = length c1 ->
  get_cell ch i j = Done x.
Proof. intros -> -> ->; apply get_cell_middle. Qed.

Lemma set_cell_at (ch R1 R2 : table) (c1 c2 : list str) (x v : str) (i j : nat) :
  ch = R1 ++ (c1 ++ x :: c2) :: R2 -> i = length R1 -> j = length c1 ->
  set_cell ch i j v = Done (R1 ++ (c1 ++ v :: c2) :: R2).
Proof. intros -> -> ->; apply set_cell_middle. Qed.

Lemma entry_eq (a f body t : str) :
  getitem firsts a = Done f -> getitem gramer a = Done body ->
  entry a t = if eqb_str f t then body else blank.
Proof. intros Hf Hb; unfold entry; rewrite Hf, Hb; reflexivity. Qed.

Lemma fill_cell_step (i j : nat) (a : str) :
  nth_error none_terminals i = Some a -> j < length terminals ->
  fill_cell gramer firsts i j (partial_chart i a j) = Done (partial_chart i a (S j)).
Proof.
  intros Ha Hj.
  destruct (nth_error_Some_lt terminals j Hj) as (t & Ht).
  destruct (defined a (nth_error_In _ _ Ha)) as (f & body & Hf & Hb).
  assert (Hi : i < length none_terminals) by (apply nth_error_Some; congruence).
  assert (L1 : i + 1 = length (header_row :: map full_row (firstn i none_terminals))).
  { cbn [length]; rewrite length_map, length_firstn, Nat.min_l by lia; lia. }
  assert (L2 : j + 1 = length (a :: map (entry a) (firstn j terminals))).
  { cbn [length]; rewrite length_map, length_firstn, Nat.min_l by lia; lia. }
  unfold fill_cell.
  rewrite (get_cell_at (partial_chart i a j)
             (header_row :: map full_row (firstn i none_terminals))
             (map empty_row (skipn (S i) none_terminals))
             [] (map (entry a) (firstn j terminals)
                   ++ repeat blank (length terminals - j)) a (i + 1) 0
             eq_refl L1 eq_refl).
  cbn [bind]; rewrite Hf; cbn [bind].
  rewrite (get_cell_at (partial_chart i a j) []
             (map full_row (firstn i none_terminals)
                ++ ((a :: map (entry a) (firstn j terminals))
                      ++ repeat blank (length terminals - j))
                :: map empty_row (skipn (S i) none_terminals))
             (blank :: firstn j terminals) (skipn (S j) terminals) t 0 (j + 1)).
  2:{ unfold partial_chart, header_row.
      rewrite <- (firstn_skipn j terminals) at 1.
      rewrite (skipn_cons _ _ _ Ht); reflexivity. }
  2: reflexivity.
  2:{ cbn [length]; rewrite length_firstn, Nat.min_l by lia; lia. }
  cbn [bind].
  assert (Hnext : forall v, v = entry a t ->
     (header_row :: map full_row (firstn i none_terminals))
     ++ ((a :: map (entry a) (firstn j terminals))
           ++ v :: repeat blank (length terminals - S j))
     :: map empty_row (skipn (S i) none_terminals) = partial_chart i a (S j)).
  { intros v ->; unfold partial_chart.
    rewrite (firstn_snoc _ _ _ Ht), map_app.
    cbn [map]. rewrite app_comm_cons, <- app_assoc. reflexivity. }
  rewrite (entry_eq a f body t Hf Hb) in Hnext.
  destruct (eqb_str f t).
  - rewrite Hb; cbn [bind].
    rewrite (set_cell_at (partial_chart i a j)
               (header_row :: map full_row (firstn i none_terminals))
               (map empty_row (skipn (S i) none_terminals))
               (a :: map (entry a) (firstn j terminals))
               (repeat blank (length terminals - S j)) blank body (i + 1) (j + 1)).
    + rewrite Hnext; reflexivity.
    + unfold partial_chart; rewrite (repeat_S_sub blank) by lia; reflexivity.
    + exact L1.
    + exact L2.
  - rewrite <- (Hnext blank eq_refl).
    unfold partial_chart; rewrite (repeat_S_sub blank) by lia; reflexivity.
Qed.

Lemma fill_row_step (i : nat) (a : str) :
  nth_error none_terminals i = Some a ->
  fill_row gramer firsts i
    (header_row :: map full_row (firstn i none_terminals)
       ++ map empty_row (skipn i none_terminals))
  = Done (header_row :: map full_row (firstn (S i) none_terminals)
            ++ map empty_row (skipn (S i) none_terminals)).
Proof.
  intros Ha.
  assert (E0 : header_row :: map full_row (firstn i none_terminals)
                 ++ map empty_row (skipn i none_terminals) = partial_chart i a 0).
  { unfold partial_chart; rewrite (skipn_cons _ _ _ Ha).
    cbn [firstn map app]. rewrite Nat.sub_0_r. reflexivity. }
  assert (E1 : partial_chart i a (length terminals)
               = header_row :: map full_row (firstn (S i) none_terminals)
                   ++ map empty_row (skipn (S i) none_terminals)).
  { unfold partial_chart.
    rewrite firstn_all, Nat.sub_diag, app_nil_r, (firstn_snoc _ _ _ Ha), map_app.
    rewrite <- app_assoc. reflexivity. }
  rewrite E0, <- E1.
  unfold fill_row.
  replace (item (partial_chart i a 0) 0) with (Done header_row) by reflexivity.
  cbn [bind].
  replace (length header_row - 1) with (length terminals)
    by (unfold header_row; cbn [length]; lia).
  destruct (for_each_seq (fun j ch => ch = partial_chart i a j)
              (fill_cell gramer firsts i) (length terminals) 0)
    with (s := partial_chart i a 0) as (s' & E & ->).
  - intros j s Hj ->; eexists; split; [|reflexivity].
    apply fill_cell_step; [exact Ha | lia].
  - reflexivity.
  - exact E.
Qed.

(** The table in closed form: the header row, then one row per
    nonterminal. *)
Lemma creat_chart_Done :
  creat_chart gramer firsts follows none_terminals terminals
  = Done (header_row :: map full_row none_terminals).
Proof.
  unfold creat_chart.
  replace (length none_terminals + 1) with (S (length none_terminals)) by lia.
  cbn [repeat].
  assert (E0 : set_cell
                 (repeat blank (length terminals + 1)
                    :: repeat (repeat blank (length terminals + 1)) (length none_terminals))
                 0 0 blank
               = Done (repeat blank (length terminals + 1)
                    :: repeat (repeat blank (length terminals + 1)) (length none_terminals))).
  { replace (length terminals + 1) with (S (length terminals)) by lia; reflexivity. }
  rewrite E0; cbn [bind].
  rewrite header_loop; cbn [bind].
  cbn [length]. rewrite repeat_length, Nat.sub_succ, Nat.sub_0_r.
  rewrite column_loop; cbn [bind].
  cbn [length]. rewrite length_map, Nat.sub_succ, Nat.sub_0_r.
  destruct (for_each_seq
              (fun i ch => ch = header_row :: map full_row (firstn i none_terminals)
                                  ++ map empty_row (skipn i none_terminals))
              (fill_row gramer firsts) (length none_terminals) 0)
    with (s := header_row :: map empty_row none_terminals) as (s' & E & ->).
  - intros i s Hi ->.
    destruct (nth_error_Some_lt none_terminals i) as (a & Ha); [lia|].
    eexists; split; [apply (fill_row_step i a Ha) | reflexivity].
  - reflexivity.
  - cbn [plus] in E.
    rewrite firstn_all, skipn_all, app_nil_r in E; exact E.
Qed.

End Chart.

Lemma all_in_getitem {V : Type} (l : list str) (d : dict V) (k : str) :
  all_in l d = true -> In k l -> exists v, getitem d k = Done v.
Proof.
  unfold all_in; rewrite forallb_forall; intros H Hk.
  apply getitem_In, mem_In, H, Hk.
Qed.

(** C4 (amended).  When every nonterminal has a FIRST entry and a
    production, [creat_chart] returns a table in which, for the
    nonterminal [a] at position [i] and the terminal [t] at position [j]
    of the two lists, the cell in row [i + 1] and column [j + 1] holds
    the production of [a] when FIRST([a]) equals [t] and the string of
    one space otherwise; so, when the production is not itself that
    string, the cell holds the production if and only if FIRST([a])
    equals [t].  The table depends on the grammar, the FIRST dictionary
    and the two lists only: the FOLLOW dictionary is not read. *)
Theorem creat_chart_cells (gramer : grammar) (firsts follows : dict str)
  (none_terminals terminals : list str)
  (Hfirst : all_in none_terminals firsts = true)
  (Hrule : all_in none_terminals gramer = true) :
  exists chart,
    creat_chart gramer firsts follows none_terminals terminals = Done chart /\
    (forall i j a t,
       nth_error none_terminals i = Some a -> nth_error terminals j = Some t ->
       exists f body,
         getitem firsts a = Done f /\ getitem gramer a = Done body /\
         get_cell chart (i + 1) (j + 1)
         = Done (if eqb_str f t then body else (" " : str)) /\
         (body <> (" " : str) ->
          (get_cell chart (i + 1) (j + 1) = Done body <-> f = t))) /\
    (forall follows',
       creat_chart gramer firsts follows' none_terminals terminals = Done chart).
Proof.
  assert (defined : forall a, In a none_terminals ->
            exists f body, getitem firsts a = Done f /\ getitem gramer a = Done body).
  { intros a Ha.
    destruct (all_in_getitem _ _ a Hfirst Ha) as (f & Hf).
    destruct (all_in_getitem _ _ a Hrule Ha) as (body & Hb); eauto. }
  exists (header_row terminals
            :: map (full_row gramer firsts terminals) none_terminals).
  split; [apply creat_chart_Done, defined|].
  split; [|intros follows'; apply creat_chart_Done, defined].
  intros i j a t Ha Ht.
  destruct (defined a (nth_error_In _ _ Ha)) as (f & body & Hf & Hb).
  exists f, body; split; [exact Hf|]; split; [exact Hb|].
  assert (Hcell : get_cell (header_row terminals
                     :: map (full_row gramer firsts terminals) none_terminals)
                    (i + 1) (j + 1)
                  = Done (if eqb_str f t then body else (" " : str))).
  { unfold get_cell, item.
    rewrite Nat.add_1_r; cbn [nth_error].
    rewrite (nth_error_map (full_row gramer firsts terminals)), Ha; cbn [option_map bind].
    rewrite Nat.add_1_r; unfold full_row; cbn [nth_error].
    rewrite (nth_error_map (entry gramer firsts a)), Ht; cbn [option_map].
    rewrite (entry_eq gramer firsts a f body t Hf Hb); reflexivity. }
  split; [exact Hcell|].
  intros Hbody; rewrite Hcell.
  destruct (eqb_str_spec f t) as [E|E]; split; auto.
  - intros [= H]; exfalso; apply Hbody; symmetry; exact H.
  - intros H; contradiction.
Qed.

(** The table of the example grammar. *)
Lemma creat_chart_cells_witness :
  exists chart,
    creat_chart example_grammar example_first [] (keys example_grammar)
      example_terminals = Done chart /\
    (forall i j a t,
       nth_error (keys example_grammar) i = Some a ->
       nth_error example_terminals j = Some t ->
       exists f body,
         getitem example_first a = Done f /\ getitem example_grammar a = Done body /\
         get_cell chart (i + 1) (j + 1)
         = Done (if eqb_str f t then body else (" " : str)) /\
         (body <> (" " : str) ->
          (get_cell chart (i + 1) (j + 1) = Done body <-> f = t))) /\
    (forall follows',
       creat_chart example_grammar example_first follows' (keys example_grammar)
         example_terminals = Done chart).
Proof.
  apply (creat_chart_cells example_grammar example_first [] (keys example_grammar)
           example_terminals); reflexivity.
Defined.

(** C4 as stated fails.  The cell of [S] and [b] in the table of the
    example grammar holds the string of one space, not the empty string
    that line 158 tests for.  And in the table of the grammar whose only
    production, that of [S], is one space, the cell of [S] and [$] holds
    the production of [S] although FIRST([S]) is not [$]. *)
Lemma blank_cell_not_empty :
  (get_cell example_chart 1 2 = Done (" " : str)
   /\ (" " : str) <> ("" : str)) /\
  exists a,
    analyse 1 space_grammar = Done a /\
    getitem (Gramer a) ("S" : str) = Done (" " : str) /\
    getitem (first a) ("S" : str) = Done (" " : str) /\
    nth_error (none_terminals a) 0 = Some ("S" : str) /\
    nth_error (terminals a) 1 = Some ("$" : str) /\
    ~ (get_cell (chart a) 1 2 = getitem (Gramer a) ("S" : str)
       <-> getitem (first a) ("S" : str) = Done ("$" : str)).
Proof.
  split; [split; [reflexivity | discriminate]|].
  eexists; split; [reflexivity|]; repeat (split; [reflexivity|]).
  cbn [chart Gramer first]; intros [H _].
  specialize (H eq_refl); discriminate.
Qed.

(** ** [firsts] *)

Lemma setitem_setitem {V : Type} (d : dict V) (k : str) (v w : V) :
  setitem (setitem d k v) k w = setitem d k w.
Proof.
  induction d as [|[k' v'] d IH]; simpl.
  - rewrite eqb_str_refl; reflexivity.
  - destruct (eqb_str k' k) eqn:E; simpl; rewrite E; [reflexivity|].
    rewrite IH; reflexivity.
Qed.

Lemma first_loop_chain (fuel : nat) (g : grammar) (nts : list str)
  (t : str) (d : dict str) (tg : str) :
  getitem d t = Done ("" : str) ->
  first_loop fuel g nts t d tg = (v <- chain fuel g nts tg ;; Done (setitem d t v)).
Proof.
  revert tg; induction fuel as [|fuel IH]; intros tg Hd.
  - simpl; rewrite Hd; reflexivity.
  - cbn [first_loop chain]. rewrite Hd; cbn [bind].
    change (eqb_str "" "") with true; cbv iota.
    destruct (getitem g tg) as [body| |]; cbn [bind]; try reflexivity.
    destruct (char_at body 0) as [c| |] eqn:Ec; cbn [bind]; try reflexivity.
    destruct (mem c nts); cbn [negb]; cbv iota; [apply IH, Hd|].
    assert (Hnext : forall v, eqb_str v "" = false ->
              first_loop fuel g nts t (setitem d t v) tg = Done (setitem d t v)).
    { intros v Hv; destruct fuel; simpl; rewrite getitem_setitem_same; simpl;
        rewrite Hv; reflexivity. }
    destruct (eqb_str_spec (slice02 body) "id") as [E|E]; cbn [bind].
    + apply Hnext; rewrite E; reflexivity.
    + apply Hnext. unfold char_at in Ec.
      destruct (nth_error body 0); [injection Ec as <-; reflexivity | discriminate].
Qed.

Lemma first_of_value (fuel : nat) (g : grammar) (nts : list str)
  (t : str) (d : dict str) :
  first_of fuel g nts t d = (v <- first_value fuel g nts t ;; Done (setitem d t v)).
Proof.
  unfold first_of, first_value.
  destruct (getitem g t) as [body| |]; cbn [bind]; try reflexivity.
  destruct (eqb_str (slice02 body) "id"); [reflexivity|].
  destruct (char_at body 0) as [c| |]; cbn [bind]; try reflexivity.
  destruct (mem c nts); [|reflexivity].
  rewrite first_loop_chain by apply getitem_setitem_same.
  destruct (chain fuel g nts c); cbn [bind]; try reflexivity.
  rewrite setitem_setitem; reflexivity.
Qed.

(** A loop that stores one computed value per key. *)
Lemma store_loop {V : Type} (F : str -> outcome V) (l : list str) :
  forall d d',
  for_each l (fun t d => v <- F t ;; Done (setitem d t v)) d = Done d' ->
  (forall t, In t l -> exists v, F t = Done v /\ getitem d' t = Done v) /\
  (forall k, ~ In k l -> getitem d' k = getitem d k) /\
  (forall k, In k (keys d') <-> In k l \/ In k (keys d)).
Proof.
  induction l as [|a l IH]; intros d d' H; simpl in H.
  - injection H as <-; repeat split; simpl; tauto.
  - apply bind_Done in H as (d1 & H1 & H2).
    apply bind_Done in H1 as (v & Hv & [= <-]).
    destruct (IH _ _ H2) as (I1 & I2 & I3); repeat split.
    + intros t [<-|Ht]; [|apply I1, Ht].
      destruct (in_dec (list_eq_dec ascii_dec) a l) as [Hin|Hnin].
      * apply I1, Hin.
      * exists v; split; [exact Hv|].
        rewrite (I2 a Hnin); apply getitem_setitem_same.
    + intros k Hk; simpl in Hk.
      rewrite (I2 k) by tauto.
      apply getitem_setitem_other; intros ->; tauto.
    + rewrite I3, In_keys_setitem; simpl; intuition.
    + rewrite I3, In_keys_setitem; simpl; intuition.
Qed.

Lemma store_loop_total {V : Type} (F : str -> outcome V) (l : list str) (d : dict V) :
  (forall t, In t l -> exists v, F t = Done v) ->
  exists d', for_each l (fun t d => v <- F t ;; Done (setitem d t v)) d = Done d'.
Proof.
  intros H.
  destruct (for_each_total (fun _ => True)
              (fun t d => v <- F t ;; Done (setitem d t v)) l) with (s := d)
    as (d' & E & _); [|exact I|eauto].
  intros a s Ha _; destruct (H a Ha) as (v & ->); simpl; eauto.
Qed.

Lemma firsts_store (fuel : nat) (g : grammar) (nts : list str) :
  firsts fuel g nts
  = for_each (keys g)
      (fun t d => v <- first_value fuel g nts t ;; Done (setitem d t v)) [].
Proof.
  unfold firsts; generalize (@nil (str * str)) as d.
  induction (keys g) as [|a l IH]; intros d; simpl; [reflexivity|].
  rewrite first_of_value.
  destruct (first_value fuel g nts a); simpl; auto.
Qed.

(** What a result of [firsts] tells about the grammar. *)
Lemma firsts_Done (fuel : nat) (g : grammar) (nts : list str) (fd : dict str) :
  firsts fuel g nts = Done fd ->
  forall t, In t (keys g) ->
    exists v body, first_value fuel g nts t = Done v /\ getitem fd t = Done v
                   /\ getitem g t = Done body /\ body <> [].
Proof.
  rewrite firsts_store; intros H t Ht.
  destruct (store_loop _ _ _ _ H) as (I1 & _ & _).
  destruct (I1 t Ht) as (v & Hv & Hfd).
  pose proof Hv as Hb; unfold first_value in Hb.
  destruct (getitem g t) as [body| |] eqn:Eg; simpl in Hb; try discriminate.
  exists v, body; split; [|split; [|split]]; auto.
  intros ->; discriminate.
Qed.

Lemma nonempty_rules_getitem (g : grammar) (k body : str) :
  nonempty_rules g -> getitem g k = Done body -> exists c rest, body = c :: rest.
Proof.
  unfold nonempty_rules; rewrite forallb_forall; intros H E.
  apply getitem_Done_In in E; specialize (H _ E); simpl in H.
  destruct body as [|c rest]; [discriminate | eauto].
Qed.

Lemma link_Some (g : grammar) (nts : list str) (tg c : str) :
  link g nts tg = Some c ->
  exists x rest, c = [x] /\ getitem g tg = Done (x :: rest) /\ mem [x] nts = true.
Proof.
  unfold link; destruct (getitem g tg) as [[|x rest]| |]; try discriminate.
  destruct (mem [x] nts) eqn:E; [|discriminate].
  intros [= <-]; eauto.
Qed.

Lemma iter_link_snoc (g : grammar) (nts : list str) (m : nat) (a b c : str) :
  iter_link g nts m a = Some b -> link g nts b = Some c ->
  iter_link g nts (S m) a = Some c.
Proof.
  revert a; induction m as [|m IH]; intros a.
  - intros [= ->] H; simpl; rewrite H; reflexivity.
  - cbn [iter_link]; destruct (link g nts a) as [a'|]; [|discriminate].
    intros H1 H2; apply (IH a' H1 H2).
Qed.

Lemma iter_link_add (g : grammar) (nts : list str) (p q : nat) (a : str) :
  iter_link g nts (p + q) a
  = match iter_link g nts p a with
    | Some b => iter_link g nts q b
    | None => None
    end.
Proof.
  revert a; induction p as [|p IH]; intros a; [reflexivity|].
  cbn [plus iter_link]; destruct (link g nts a); [apply IH | reflexivity].
Qed.

Section Acyclic.

Variable g : grammar.
Variable nts : list str.
Hypothesis nts_defined : forall k, In k nts -> In k (keys g).
Hypothesis rules_nonempty : nonempty_rules g.
Hypothesis no_cycle : acyclic g nts.

(** The walk from [tg] leaves the loop before it has seen more
    nonterminals than there are: [visited] lists the ones behind it. *)
Lemma chain_ends (fuel : nat) :
  forall visited tg,
  In tg nts -> NoDup (tg :: visited) -> incl visited nts ->
  (forall v, In v visited -> exists m, 0 < m /\ iter_link g nts m v = Some tg) ->
  length nts <= fuel + length visited ->
  exists v, chain fuel g nts tg = Done v /\ single_terminal nts v.
Proof.
  induction fuel as [|fuel IH]; intros visited tg Htg Hnd Hincl Hreach Hlen.
  - exfalso.
    assert (length (tg :: visited) <= length nts).
    { apply NoDup_incl_length; [exact Hnd|].
      intros x [<-|Hx]; [exact Htg | apply Hincl, Hx]. }
    simpl in *; lia.
  - cbn [chain].
    destruct (getitem_In g tg (nts_defined tg Htg)) as (body & Eb).
    destruct (nonempty_rules_getitem g tg body rules_nonempty Eb) as (c & rest & ->).
    rewrite Eb; cbn [bind char_at nth_error].
    destruct (mem [c] nts) eqn:Ec; cbn [negb]; cbv iota.
    + assert (Hl : link g nts tg = Some [c])
        by (unfold link; rewrite Eb, Ec; reflexivity).
      apply (IH (tg :: visited) [c]).
      * apply mem_In, Ec.
      * constructor; [|exact Hnd].
        intros [E|Hv].
        -- apply (no_cycle tg 1); [lia | simpl; rewrite Hl, E; reflexivity].
        -- destruct (Hreach _ Hv) as (m & Hm & E).
           apply (no_cycle [c] (S m)); [lia|].
           apply (iter_link_snoc g nts m [c] tg [c] E Hl).
      * intros x [<-|Hx]; [exact Htg | apply Hincl, Hx].
      * intros v [<-|Hv].
        -- exists 1; split; [lia | simpl; rewrite Hl; reflexivity].
        -- destruct (Hreach _ Hv) as (m & Hm & E).
           exists (S m); split; [lia|].
           apply (iter_link_snoc g nts m v tg [c] E Hl).
      * simpl; lia.
    + destruct (eqb_str_spec (slice02 (c :: rest)) "id") as [E|E];
        eexists; (split; [reflexivity|]).
      * left; exact E.
      * right; exists c; auto.
Qed.

Lemma first_value_ends (fuel : nat) (t : str) :
  In t (keys g) -> length nts <= fuel ->
  exists v, first_value fuel g nts t = Done v /\ single_terminal nts v.
Proof.
  intros Ht Hlen; unfold first_value.
  destruct (getitem_In g t Ht) as (body & Eb).
  destruct (nonempty_rules_getitem g t body rules_nonempty Eb) as (c & rest & ->).
  rewrite Eb; cbn [bind].
  destruct (eqb_str_spec (slice02 (c :: rest)) "id") as [E|E].
  - eexists; split; [reflexivity | left; exact E].
  - cbn [char_at nth_error bind].
    destruct (mem [c] nts) eqn:Ec.
    + apply (chain_ends fuel [] [c]).
      * apply mem_In, Ec.
      * constructor; [simpl; tauto | constructor].
      * intros x [].
      * intros v [].
      * simpl; lia.
    + eexists; split; [reflexivity | right; exists c; auto].
Qed.

End Acyclic.

Lemma chain_mono (g : grammar) (nts : list str) (fuel fuel' : nat) (tg v : str) :
  chain fuel g nts tg = Done v -> fuel <= fuel' -> chain fuel' g nts tg = Done v.
Proof.
  revert fuel' tg; induction fuel as [|fuel IH]; intros fuel' tg; [discriminate|].
  intros H Hle; destruct fuel' as [|fuel']; [lia|].
  cbn [chain] in *.
  destruct (getitem g tg); cbn [bind] in *; try discriminate.
  destruct (char_at a 0); cbn [bind] in *; try discriminate.
  destruct (negb (mem a0 nts)); [exact H|].
  apply IH; [exact H | lia].
Qed.

Lemma first_value_mono (g : grammar) (nts : list str) (fuel fuel' : nat) (t v : str) :
  first_value fuel g nts t = Done v -> fuel <= fuel' ->
  first_value fuel' g nts t = Done v.
Proof.
  unfold first_value; intros H Hle.
  destruct (getitem g t); cbn [bind] in *; try discriminate.
  destruct (eqb_str (slice02 a) "id"); [exact H|].
  destruct (char_at a 0); cbn [bind] in *; try discriminate.
  destruct (mem a0 nts); [|exact H].
  apply (chain_mono g nts fuel fuel'); assumption.
Qed.

Lemma for_each_Done_ext {A St : Type} (body body' : A -> St -> outcome St) (l : list A) :
  (forall a s s', In a l -> body a s = Done s' -> body' a s = Done s') ->
  forall s s', for_each l body s = Done s' -> for_each l body' s = Done s'.
Proof.
  induction l as [|a l IH]; intros Hb s s'; simpl; [auto|].
  intros H; apply bind_Done in H as (s1 & H1 & H2).
  rewrite (Hb a s s1 (or_introl eq_refl) H1); simpl.
  apply IH; [|exact H2].
  intros a' t t' Ha'; apply Hb; right; exact Ha'.
Qed.

Lemma firsts_mono (g : grammar) (nts : list str) (fuel fuel' : nat) (fd : dict str) :
  firsts fuel g nts = Done fd -> fuel <= fuel' -> firsts fuel' g nts = Done fd.
Proof.
  rewrite !firsts_store; intros H Hle.
  apply (for_each_Done_ext
           (fun t d => v <- first_value fuel g nts t ;; Done (setitem d t v))); [|exact H].
  intros a s s' _ Ha; apply bind_Done in Ha as (v & Hv & E).
  rewrite (first_value_mono g nts fuel fuel' a v Hv Hle); exact E.
Qed.

Lemma ends_stops (g : grammar) (nts : list str) (n : nat) (a : str) :
  ends g nts n a = true -> iter_link g nts n a = None.
Proof.
  revert a; induction n as [|n IH]; intros a; cbn [ends iter_link]; [discriminate|].
  destruct (link g nts a); [apply IH | reflexivity].
Qed.

Lemma cycle_endless (g : grammar) (nts : list str) (n : nat) (a : str) :
  0 < n -> iter_link g nts n a = Some a ->
  forall m, iter_link g nts m a <> None.
Proof.
  intros Hn Hc m.
  assert (Hk : forall k, iter_link g nts (k * n) a = Some a).
  { induction k as [|k IH]; [reflexivity|].
    cbn [Nat.mul]; rewrite iter_link_add, Hc; exact IH. }
  specialize (Hk m).
  replace (m * n) with (m + (m * n - m)) in Hk by nia.
  rewrite iter_link_add in Hk.
  destruct (iter_link g nts m a); [discriminate | discriminate].
Qed.

Lemma acyclic_check (g : grammar) (nts : list str) :
  acyclicb g nts = true -> acyclic g nts.
Proof.
  unfold acyclicb; rewrite forallb_forall; intros H a n Hn Hc.
  destruct (mem a (keys g)) eqn:Ea.
  - apply mem_In in Ea.
    apply (cycle_endless g nts n a Hn Hc (length g)).
    apply ends_stops, H, Ea.
  - apply mem_not_In in Ea.
    destruct n as [|n]; [lia|].
    cbn [iter_link] in Hc; unfold link in Hc.
    rewrite (getitem_not_In g a Ea) in Hc; discriminate.
Qed.

Lemma endless_chain (g : grammar) (nts : list str) (fuel : nat) :
  forall tg, (forall m, iter_link g nts m tg <> None) ->
  chain fuel g nts tg = OutOfFuel.
Proof.
  induction fuel as [|fuel IH]; intros tg H; [reflexivity|].
  cbn [chain].
  destruct (link g nts tg) as [c|] eqn:El.
  - destruct (link_Some g nts tg c El) as (x & rest & -> & Eb & Ex).
    rewrite Eb; cbn [bind char_at nth_error]; rewrite Ex; cbn [negb]; cbv iota.
    apply IH; intros m.
    specialize (H (S m)); cbn [iter_link] in H; rewrite El in H; exact H.
  - exfalso; apply (H 1); cbn [iter_link]; rewrite El; reflexivity.
Qed.

(** On a nonterminal of a cycle whose production does not begin with
    [id], the loop runs out of every bound. *)
Lemma first_value_cycle (g : grammar) (nts : list str) (n : nat) (a : str) :
  0 < n -> iter_link g nts n a = Some a -> leads_with_id g a = false ->
  In a (keys g) /\ forall fuel, first_value fuel g nts a = OutOfFuel.
Proof.
  intros Hn Hc Hid.
  pose proof (cycle_endless g nts n a Hn Hc) as He.
  destruct (link g nts a) as [c|] eqn:El;
    [|exfalso; apply (He 1); cbn [iter_link]; rewrite El; reflexivity].
  destruct (link_Some g nts a c El) as (x & rest & -> & Eb & Ex).
  split; [apply (getitem_Done_key g a _ Eb)|].
  intros fuel; unfold first_value.
  unfold leads_with_id in Hid; rewrite Eb in Hid.
  rewrite Eb; cbn [bind]; rewrite Hid.
  cbn [char_at nth_error bind]; rewrite Ex.
  apply endless_chain; intros m.
  specialize (He (S m)); cbn [iter_link] in He; rewrite El in He; exact He.
Qed.

Lemma chain_raises (g : grammar) (fuel : nat) (tg : str) (e : exn) :
  In tg (keys g) -> chain fuel g (keys g) tg = Raised e -> e = IndexError.
Proof.
  revert tg; induction fuel as [|fuel IH]; intros tg Htg; [discriminate|].
  cbn [chain].
  destruct (getitem_In g tg Htg) as (body & ->); cbn [bind].
  destruct body as [|c rest]; cbn [char_at nth_error bind]; [congruence|].
  destruct (mem [c] (keys g)) eqn:Ec; cbn [negb]; cbv iota.
  - apply IH, mem_In, Ec.
  - destruct (eqb_str (slice02 (c :: rest)) "id"); discriminate.
Qed.

Lemma first_value_raises (g : grammar) (fuel : nat) (t : str) (e : exn) :
  In t (keys g) -> first_value fuel g (keys g) t = Raised e -> e = IndexError.
Proof.
  intros Ht; unfold first_value.
  destruct (getitem_In g t Ht) as (body & ->); cbn [bind].
  destruct (eqb_str (slice02 body) "id"); [discriminate|].
  destruct body as [|c rest]; cbn [char_at nth_error bind]; [congruence|].
  destruct (mem [c] (keys g)) eqn:Ec; [|discriminate].
  apply chain_raises, mem_In, Ec.
Qed.

Lemma first_value_nonempty_raises (g : grammar) (fuel : nat) (t : str) (e : exn) :
  nonempty_rules g -> In t (keys g) -> first_value fuel g (keys g) t <> Raised e.
Proof.
  intros Hne Ht; unfold first_value.
  destruct (getitem_In g t Ht) as (body & Eb); rewrite Eb; cbn [bind].
  destruct (eqb_str (slice02 body) "id"); [discriminate|].
  destruct (nonempty_rules_getitem g t body Hne Eb) as (c & rest & ->).
  cbn [char_at nth_error bind].
  destruct (mem [c] (keys g)) eqn:Ec; [|discriminate].
  apply mem_In in Ec; clear Eb Ht t rest; revert c Ec.
  induction fuel as [|fuel IH]; intros c Hc; [discriminate|].
  cbn [chain].
  destruct (getitem_In g [c] Hc) as (body & Eb); rewrite Eb; cbn [bind].
  destruct (nonempty_rules_getitem g [c] body Hne Eb) as (c' & rest & ->).
  cbn [char_at nth_error bind].
  destruct (mem [c'] (keys g)) eqn:Ec'; cbn [negb]; cbv iota.
  - apply IH, mem_In, Ec'.
  - destruct (eqb_str (slice02 (c' :: rest)) "id"); discriminate.
Qed.

(** A loop with a round that never ends does not end. *)
Lemma for_each_stuck {A St : Type} (body : A -> St -> outcome St) (l : list A) (a : A) :
  In a l -> (forall s, body a s = OutOfFuel) ->
  forall s, (exists e, for_each l body s = Raised e) \/ for_each l body s = OutOfFuel.
Proof.
  induction l as [|x l IH]; intros Ha Hs s; [destruct Ha|].
  cbn [for_each].
  destruct (body x s) as [s1|e|] eqn:Ex; cbn [bind]; [|left; eauto|right; reflexivity].
  destruct Ha as [->|Ha]; [rewrite Hs in Ex; discriminate|].
  apply IH; assumption.
Qed.

Lemma for_each_Raised {A St : Type} (body : A -> St -> outcome St) (l : list A)
  (s : St) (e : exn) :
  for_each l body s = Raised e -> exists a s', In a l /\ body a s' = Raised e.
Proof.
  revert s; induction l as [|x l IH]; intros s; cbn [for_each]; [discriminate|].
  destruct (body x s) as [s1|e'|] eqn:Ex; cbn [bind]; try discriminate.
  - intros H; destruct (IH _ H) as (a & s' & Ha & E); exists a, s'; split; auto.
    right; exact Ha.
  - intros [= ->]; exists x, s; split; [left; reflexivity | exact Ex].
Qed.

Lemma firsts_cycle (g : grammar) (n : nat) (a : str) :
  0 < n -> iter_link g (keys g) n a = Some a -> leads_with_id g a = false ->
  forall fuel,
    (firsts fuel g (keys g) = OutOfFuel \/ firsts fuel g (keys g) = Raised IndexError)
    /\ (nonempty_rules g -> firsts fuel g (keys g) = OutOfFuel).
Proof.
  intros Hn Hc Hid fuel.
  destruct (first_value_cycle g (keys g) n a Hn Hc Hid) as (Ha & Hv).
  assert (Hr : forall e, firsts fuel g (keys g) = Raised e ->
            exists t, In t (keys g) /\ first_value fuel g (keys g) t = Raised e).
  { rewrite firsts_store; intros e He.
    apply for_each_Raised in He as (t & s' & Ht & E).
    exists t; split; [exact Ht|].
    destruct (first_value fuel g (keys g) t); simpl in E; congruence. }
  assert (Hs : (exists e, firsts fuel g (keys g) = Raised e)
               \/ firsts fuel g (keys g) = OutOfFuel).
  { rewrite firsts_store.
    apply (for_each_stuck _ _ a Ha); intros s; rewrite Hv; reflexivity. }
  split.
  - destruct Hs as [(e & He)|Hs]; [right | left; exact Hs].
    destruct (Hr e He) as (t & Ht & E).
    rewrite He, (first_value_raises g fuel t e Ht E); reflexivity.
  - intros Hne; destruct Hs as [(e & He)|Hs]; [exfalso | exact Hs].
    destruct (Hr e He) as (t & Ht & E).
    apply (first_value_nonempty_raises g fuel t e Hne Ht E).
Qed.

Lemma firsts_acyclic (g : grammar) :
  nonempty_rules g -> acyclic g (keys g) ->
  exists fd,
    firsts (length g) g (keys g) = Done fd /\
    forall a, In a (keys g) ->
      exists v, getitem fd a = Done v /\ single_terminal (keys g) v.
Proof.
  intros Hne Hac.
  assert (Hlen : length (keys g) <= length g)
    by (unfold keys; rewrite length_map; lia).
  assert (Hv : forall t, In t (keys g) ->
            exists v, first_value (length g) g (keys g) t = Done v
                      /\ single_terminal (keys g) v).
  { intros t Ht; apply first_value_ends; auto. }
  destruct (store_loop_total (first_value (length g) g (keys g)) (keys g) [])
    as (fd & Efd).
  { intros t Ht; destruct (Hv t Ht) as (v & E & _); eauto. }
  exists fd; split; [rewrite firsts_store; exact Efd|].
  intros a Ha.
  destruct (store_loop _ _ _ _ Efd) as (I1 & _ & _).
  destruct (I1 a Ha) as (v & E1 & E2), (Hv a Ha) as (v' & E3 & Hs).
  exists v; split; [exact E2|]; congruence.
Qed.

(** C6 (amended).  On a grammar in which every production is non-empty
    and no nonterminal leads back to itself, [firsts] returns as soon as
    the loop bound reaches the number of productions, and the entry of
    every nonterminal is a single terminal: the atomic [id] or one
    character that is not a nonterminal. *)
Theorem firsts_single_terminal (g : grammar)
  (Hrules : nonempty_rules g) (Hacyclic : acyclic g (get_none_terminals g)) :
  exists fd,
    (forall fuel, length g <= fuel ->
       firsts fuel g (get_none_terminals g) = Done fd) /\
    (forall a, In a (get_none_terminals g) ->
       exists v, getitem fd a = Done v
                 /\ single_terminal (get_none_terminals g) v).
Proof.
  destruct (firsts_acyclic g Hrules Hacyclic) as (fd & E & H).
  exists fd; split; [|exact H].
  intros fuel Hle; apply (firsts_mono g (keys g) (length g) fuel fd E Hle).
Qed.

(** The example grammar has non-empty productions and no cycle. *)
Lemma firsts_single_terminal_witness :
  exists fd,
    (forall fuel, length example_grammar <= fuel ->
       firsts fuel example_grammar (get_none_terminals example_grammar) = Done fd) /\
    (forall a, In a (get_none_terminals example_grammar) ->
       exists v, getitem fd a = Done v
                 /\ single_terminal (get_none_terminals example_grammar) v).
Proof.
  apply (firsts_single_terminal example_grammar).
  - reflexivity.
  - apply acyclic_check; reflexivity.
Defined.

(** C6 as stated fails: the grammar S -> A, A -> ep is corrected to a
    grammar whose only production, that of S, is the empty string; it
    has no cycle, and [firsts] raises [IndexError] on it. *)
Lemma firsts_empty_rule_raises :
  correction [("S" : str, "A" : str); ("A" : str, "ep" : str)]
  = Done [("S" : str, "" : str)] /\
  acyclic [("S" : str, "" : str)] (get_none_terminals [("S" : str, "" : str)]) /\
  ~ (exists fuel fd,
       firsts fuel [("S" : str, "" : str)]
         (get_none_terminals [("S" : str, "" : str)]) = Done fd).
Proof.
  split; [reflexivity|]; split; [apply acyclic_check; reflexivity|].
  intros (fuel & fd & H); cbv in H; discriminate.
Qed.

(** C3 (amended).  When the leading-nonterminal references form a cycle
    through a nonterminal whose production does not begin with [id],
    [firsts] never returns a FIRST dictionary and never reports the
    cycle: whatever the bound on the loop, it is still looping, or it
    has stopped at an empty production with [IndexError]; when no
    production is empty it is still looping. *)
Theorem firsts_cycle_never_returns (g : grammar) (a : str) (n fuel : nat)
  (Hn : 0 < n)
  (Hcycle : iter_link g (get_none_terminals g) n a = Some a)
  (Hid : leads_with_id g a = false) :
  (firsts fuel g (get_none_terminals g) = OutOfFuel
   \/ firsts fuel g (get_none_terminals g) = Raised IndexError)
  /\ (nonempty_rules g -> firsts fuel g (get_none_terminals g) = OutOfFuel).
Proof. exact (firsts_cycle g n a Hn Hcycle Hid fuel). Qed.

(** The cycle of A -> B, B -> A through [A]. *)
Lemma firsts_cycle_never_returns_witness :
  (firsts 1000 cyclic_grammar (get_none_terminals cyclic_grammar) = OutOfFuel
   \/ firsts 1000 cyclic_grammar (get_none_terminals cyclic_grammar)
      = Raised IndexError)
  /\ (nonempty_rules cyclic_grammar ->
      firsts 1000 cyclic_grammar (get_none_terminals cyclic_grammar) = OutOfFuel).
Proof.
  apply (firsts_cycle_never_returns cyclic_grammar ("A" : str) 2 1000).
  - lia.
  - reflexivity.
  - reflexivity.
Defined.

(** C3 as stated fails: on A -> B, B -> A the computation neither
    returns nor raises, whatever the bound on the loop. *)
Lemma firsts_cycle_loops :
  ~ (exists fuel,
       firsts fuel cyclic_grammar (get_none_terminals cyclic_grammar) <> OutOfFuel).
Proof.
  intros (fuel & H); apply H.
  apply (firsts_cycle cyclic_grammar 2 ("A" : str)); reflexivity || lia.
Qed.

(** ** [parse] *)

Lemma index_of_Done (x : str) (l : list str) (n : nat) :
  index_of x l = Done n -> nth_error l n = Some x.
Proof.
  revert n; induction l as [|y l IH]; intros n; cbn [index_of]; [discriminate|].
  destruct (eqb_str_spec y x) as [->|Hyx].
  - intros [= <-]; reflexivity.
  - intros H; apply bind_Done in H as (m & Hm & [= <-]).
    cbn [nth_error]; apply IH, Hm.
Qed.

Lemma index_of_In (x : str) (l : list str) :
  In x l -> exists n, index_of x l = Done n.
Proof.
  induction l as [|y l IH]; intros H; [destruct H|].
  cbn [index_of]; destruct (eqb_str_spec y x) as [->|Hyx]; [eauto|].
  destruct H as [H|H]; [contradiction|].
  destruct (IH H) as (n & ->); cbn [bind]; eauto.
Qed.

Lemma make_list_app (s1 s2 : str) :
  make_list (s1 ++ s2) = make_list s1 ++ make_list s2.
Proof.
  induction s1 as [|c s1 IH]; [reflexivity|].
  cbn [app make_list]; rewrite IH.
  destruct (eqb_str [c] "d"); [reflexivity|].
  destruct (eqb_str [c] "i"); reflexivity.
Qed.

Lemma make_list_no_d (s : str) : ~ In ("d" : str) (make_list s).
Proof.
  induction s as [|c s IH]; [intros []|].
  cbn [make_list].
  destruct (eqb_str_spec [c] "d") as [E|E]; [exact IH|].
  destruct (eqb_str [c] "i"); intros [H|H]; try (apply IH, H).
  - discriminate.
  - apply E; exact H.
Qed.

Lemma tokens_no_d (s : str) : ~ In ("d" : str) (tokens s).
Proof.
  unfold tokens; intros H; apply in_app_or in H as [H|[H|[]]].
  - apply (make_list_no_d s), H.
  - discriminate.
Qed.

Lemma item_In {A : Type} (l : list A) (n : nat) (a : A) :
  item l n = Done a -> In a l.
Proof.
  unfold item; destruct (nth_error l n) eqn:E; [|discriminate].
  intros [= <-]; apply (nth_error_In _ _ E).
Qed.

(** The pointer is the token under the cursor all along. *)
Lemma parse_step_pointer (string : list str) (chart : table)
  (nts ts : list str) (cf cf' : config) :
  parse_step string chart nts ts cf = Done (Continue cf') ->
  item string (i cf) = Done (pointer cf) ->
  item string (i cf') = Done (pointer cf').
Proof.
  unfold parse_step; intros H Hp.
  destruct (item (stack cf) 0) as [top| |]; cbn [bind] in H; try discriminate.
  destruct (eqb_str top "$"); [discriminate|].
  destruct (mem top nts).
  - destruct (index_of top nts); cbn [bind] in H; try discriminate.
    destruct (item chart (a + 1)); cbn [bind] in H; try discriminate.
    destruct (index_of (pointer cf) ts); cbn [bind] in H; try discriminate.
    destruct (item a0 (a1 + 1)); cbn [bind] in H; try discriminate.
    destruct (eqb_str a2 ""); [discriminate|].
    injection H as <-; exact Hp.
  - destruct (eqb_str top (pointer cf)); [|discriminate].
    destruct (item string (i cf + 1)) eqn:E; cbn [bind] in H; try discriminate.
    injection H as <-; exact E.
Qed.

Lemma reaches_pointer (string : list str) (chart : table)
  (nts ts : list str) (cf cf' : config) :
  reaches string chart nts ts cf cf' ->
  item string (i cf) = Done (pointer cf) ->
  item string (i cf') = Done (pointer cf').
Proof.
  induction 1 as [cf|cf cf1 cf2 Hs _ IH]; [auto|].
  intros Hp; apply IH, (parse_step_pointer _ _ _ _ _ _ Hs Hp).
Qed.

Lemma parse_init_pointer (string : str) (nts : list str) (cf : config) :
  parse_init string nts = Done cf ->
  item (tokens string) (i cf) = Done (pointer cf).
Proof.
  unfold parse_init; intros H.
  destruct (item nts 0); cbn [bind] in H; try discriminate.
  destruct (item (tokens string) 0) eqn:E; cbn [bind] in H; try discriminate.
  injection H as <-; exact E.
Qed.

Section Empty_cell_unreachable.

Variables (fuel : nat) (g : grammar) (fd fo : dict str) (ts : list str) (chart : table).
Hypothesis Hfirst : firsts fuel g (keys g) = Done fd.
Hypothesis Hchart : creat_chart g fd fo (keys g) ts = Done chart.

Lemma analysed_defined :
  forall a, In a (keys g) ->
    exists f body, getitem fd a = Done f /\ getitem g a = Done body.
Proof.
  intros a Ha.
  destruct (firsts_Done fuel g (keys g) fd Hfirst a Ha) as (v & body & _ & E1 & E2 & _).
  eauto.
Qed.

Lemma analysed_chart :
  chart = header_row ts :: map (full_row g fd ts) (keys g).
Proof.
  pose proof (creat_chart_Done g fd fo (keys g) ts analysed_defined) as E.
  rewrite Hchart in E; injection E as ->; reflexivity.
Qed.

(** The cell that [parse] looks up for the nonterminal [a] and the
    token [t]. *)
Lemma analysed_lookup (a t : str) (r c : nat) :
  index_of a (keys g) = Done r -> index_of t ts = Done c ->
  exists f body row,
    getitem fd a = Done f /\ getitem g a = Done body /\ body <> [] /\
    item chart (r + 1) = Done row /\
    item row (c + 1) = Done (if eqb_str f t then body else blank).
Proof.
  intros Hr Hc.
  apply index_of_Done in Hr; apply index_of_Done in Hc.
  destruct (firsts_Done fuel g (keys g) fd Hfirst a (nth_error_In _ _ Hr))
    as (f & body & _ & Ef & Eb & Hne).
  exists f, body, (full_row g fd ts a); repeat split; auto.
  - rewrite analysed_chart; unfold item.
    rewrite Nat.add_1_r; cbn [nth_error].
    rewrite (nth_error_map (full_row g fd ts)), Hr; reflexivity.
  - unfold item, full_row; rewrite Nat.add_1_r; cbn [nth_error].
    rewrite (nth_error_map (entry g fd a)), Hc; cbn [option_map].
    rewrite (entry_eq g fd a f body t Ef Eb); reflexivity.
Qed.

Lemma parse_step_not_empty_cell (string : list str) (cf cf' : config) (e : exit) :
  parse_step string chart (keys g) ts cf = Done (Return e cf') -> e <> Empty_cell.
Proof.
  unfold parse_step; intros H.
  destruct (item (stack cf) 0) as [top| |]; cbn [bind] in H; try discriminate.
  destruct (eqb_str top "$"); [injection H as <- _; discriminate|].
  destruct (mem top (keys g)).
  - destruct (index_of top (keys g)) as [r| |] eqn:Er; cbn [bind] in H; try discriminate.
    destruct (item chart (r + 1)) as [row| |] eqn:Erow; cbn [bind] in H; try discriminate.
    destruct (index_of (pointer cf) ts) as [c| |] eqn:Ec; cbn [bind] in H; try discriminate.
    destruct (analysed_lookup top (pointer cf) r c Er Ec)
      as (f & body & row' & _ & _ & Hne & E1 & E2).
    rewrite Erow in E1; injection E1 as <-.
    rewrite E2 in H; cbn [bind] in H.
    assert (Hcell : eqb_str (if eqb_str f (pointer cf) then body else blank) "" = false).
    { destruct (eqb_str f (pointer cf)); [|reflexivity].
      destruct body; [contradiction | reflexivity]. }
    rewrite Hcell in H; discriminate.
  - destruct (eqb_str top (pointer cf)).
    + destruct (item string (i cf + 1)); cbn [bind] in H; discriminate.
    + injection H as <- _; discriminate.
Qed.

Lemma parse_loop_not_empty_cell (bound : nat) (string : list str) :
  forall (cf cf' : config) (e : exit),
  parse_loop bound string chart (keys g) ts cf = Done (e, cf') -> e <> Empty_cell.
Proof.
  induction bound as [|bound IH]; intros cf cf' e; cbn [parse_loop]; [discriminate|].
  destruct (parse_step string chart (keys g) ts cf) as [[e1 c1|c1]| |] eqn:Es;
    cbn [bind]; try discriminate.
  - intros [= <- <-]; apply (parse_step_not_empty_cell _ _ _ _ Es).
  - apply IH.
Qed.

(** With no production for the nonterminal on top and the token under
    the cursor, the round pushes the blank string. *)
Lemma parse_step_blank (string : list str) (cf : config) (a f : str) (rest : list str) :
  stack cf = a :: rest -> a <> ("$" : str) -> In a (keys g) -> In (pointer cf) ts ->
  getitem fd a = Done f -> f <> pointer cf ->
  parse_step string chart (keys g) ts cf
  = Done (Continue (Config (blank :: rest) (i cf) (pointer cf))).
Proof.
  intros Hs Ha Hin Hp Hf Hne.
  unfold parse_step; rewrite Hs; cbn [item nth_error bind].
  apply eqb_str_neq in Ha; rewrite Ha.
  pose proof Hin as Hm; apply mem_In in Hm; rewrite Hm.
  destruct (index_of_In a (keys g) Hin) as (r & Er).
  destruct (index_of_In (pointer cf) ts Hp) as (c & Ec).
  destruct (analysed_lookup a (pointer cf) r c Er Ec)
    as (f' & body & row & Ef' & _ & _ & E1 & E2).
  rewrite Er; cbn [bind]. fold (item chart (r + 1)). rewrite E1; cbn [bind].
  rewrite Ec; cbn [bind]; rewrite E2; cbn [bind].
  assert (f' = f) by congruence; subst f'.
  apply eqb_str_neq in Hne; rewrite Hne.
  reflexivity.
Qed.

(** The blank string on top of the stack fails the comparison with the
    token under the cursor. *)
Lemma parse_step_blank_mismatch (string : list str) (cf : config) (rest : list str) :
  stack cf = blank :: rest -> mem blank (keys g) = false -> pointer cf <> blank ->
  parse_step string chart (keys g) ts cf = Done (Return Symbol_mismatch cf).
Proof.
  intros Hs Hm Hp.
  unfold parse_step; rewrite Hs; cbn [item nth_error bind].
  change (eqb_str blank "$") with false; cbv iota.
  rewrite Hm.
  assert (E : eqb_str blank (pointer cf) = false)
    by (apply eqb_str_neq; congruence).
  rewrite E; reflexivity.
Qed.

End Empty_cell_unreachable.

(** What a result of the script holds. *)
Lemma analyse_Done (fuel : nat) (raw : grammar) (a : analysis) :
  analyse fuel raw = Done a ->
  correction raw = Done (Gramer a)
  /\ none_terminals a = get_none_terminals (Gramer a)
  /\ firsts fuel (Gramer a) (none_terminals a) = Done (first a)
  /\ follows (first a) (Gramer a) (first a) (none_terminals a) = Done (follow a)
  /\ get_terminals (Gramer a) (none_terminals a) = Done (terminals a)
  /\ creat_chart (Gramer a) (first a) (follow a) (none_terminals a) (terminals a)
     = Done (chart a).
Proof.
  unfold analyse; intros H.
  apply bind_Done in H as (g & Eg & H).
  apply bind_Done in H as (fd & Efd & H).
  apply bind_Done in H as (fo & Efo & H).
  apply bind_Done in H as (ts & Ets & H).
  apply bind_Done in H as (ch & Ech & [= <-]).
  cbn [Gramer none_terminals first follow terminals chart]; auto 10.
Qed.

(** The rejecting test of line 158 is dead code for every table that
    the script builds. *)
Lemma analyse_never_empty_cell (fuel bound : nat) (raw : grammar) (a : analysis)
  (string : str) (e : exit) (cf : config) :
  analyse fuel raw = Done a ->
  parse_run bound string (chart a) (none_terminals a) (terminals a) = Done (e, cf) ->
  e <> Empty_cell.
Proof.
  intros Ha H; destruct (analyse_Done fuel raw a Ha) as (_ & En & Ef & _ & _ & Ec).
  rewrite En in *; unfold parse_run in H.
  apply bind_Done in H as (cf0 & _ & H).
  apply (parse_loop_not_empty_cell fuel (Gramer a) (first a) (follow a)
           (terminals a) (chart a) Ef Ec _ _ _ _ _ H).
Qed.

(** The first and the third end-to-end scenario: FIRST of the example
    grammar, the input [a+(id)b] is accepted and the truncated input
    [a+(id)] is rejected at the mismatch of [b] with [$]. *)
Example scenario_accept_reject :
  exists a,
    analyse 4 example_grammar = Done a /\
    first a = example_first /\
    terminals a = example_terminals /\
    chart a = example_chart /\
    parse_with 20 a "a+(id)b" = Done Accept /\
    parse_run 20 "a+(id)" (chart a) (none_terminals a) (terminals a)
    = Done (Symbol_mismatch, Config [("b" : str); ("$" : str)] 5 "$").
Proof. eexists; split; [reflexivity|]; repeat split. Qed.

(** C1.  The code returns "Successful parse" as soon as [$] is on top of
    the stack, wherever the cursor is: for the grammar S -> a and the
    input [ab] the loop returns at line 156 with the cursor on the
    token [b], before the sentinel. *)
Theorem parse_accepts_before_sentinel :
  exists a,
    analyse 1 letter_grammar = Done a /\
    tokens "ab" = [("a" : str); ("b" : str); ("$" : str)] /\
    forall fuel, 3 <= fuel ->
      parse_run fuel "ab" (chart a) (none_terminals a) (terminals a)
      = Done (Stack_at_dollar, Config [("$" : str)] 1 "b")
      /\ parse_with fuel a "ab" = Done Accept.
Proof.
  eexists; split; [reflexivity|]; split; [reflexivity|].
  intros fuel H.
  do 3 (destruct fuel as [|fuel]; [lia|]).
  split; reflexivity.
Qed.

(** C2.  [parse] raises [ValueError] on the input [a+(x)b] for the
    example grammar: with the nonterminal [D] on top of the stack,
    [terminals.index] does not find the token [x]. *)
Theorem parse_raises_on_unknown_token :
  exists a,
    analyse 4 example_grammar = Done a /\
    forall fuel, 7 <= fuel -> parse_with fuel a "a+(x)b" = Raised ValueError.
Proof.
  eexists; split; [reflexivity|].
  intros fuel H.
  do 7 (destruct fuel as [|fuel]; [lia|]).
  reflexivity.
Qed.

(** ** FOLLOW strings *)

Lemma split_comma_cons (s : str) : exists h t, split_comma s = h :: t.
Proof.
  destruct s as [|c s]; cbn [split_comma]; [eauto|].
  destruct (Ascii.eqb c ","%char); [eauto|].
  destruct (split_comma s); eauto.
Qed.

Lemma split_comma_app (a b : str) :
  split_comma (a ++ ","%char :: b) = split_comma a ++ split_comma b.
Proof.
  induction a as [|c a IH]; [reflexivity|].
  cbn [app split_comma]; rewrite IH.
  destruct (Ascii.eqb c ","%char); [reflexivity|].
  destruct (split_comma_cons a) as (h & t & ->); reflexivity.
Qed.

Lemma fields_app (a b : str) :
  fields (a ++ ","%char :: b) = fields a ++ fields b.
Proof. unfold fields; rewrite split_comma_app, filter_app; reflexivity. Qed.

Lemma fields_nil : fields [] = [].
Proof. reflexivity. Qed.

Lemma fields_comma_end (a : str) : fields (a ++ (",": str)) = fields a.
Proof.
  change (a ++ ("," : str)) with (a ++ ","%char :: []).
  rewrite fields_app, fields_nil, app_nil_r; reflexivity.
Qed.

Lemma fields_char (c : ascii) :
  fields [c] = if Ascii.eqb c ","%char then [] else [[c]].
Proof.
  unfold fields; cbn [split_comma].
  destruct (Ascii.eqb c ","%char); reflexivity.
Qed.

Lemma fields_id : fields ("id" : str) = [("id" : str)].
Proof. reflexivity. Qed.

Lemma fields_dollar : fields ("$" : str) = [("$" : str)].
Proof. reflexivity. Qed.

(** The characters of a piece are characters of the string. *)
Lemma split_comma_chars (s f : str) (x : ascii) :
  In f (split_comma s) -> In x f -> In x s.
Proof.
  revert f; induction s as [|c s IH]; intros f; cbn [split_comma].
  - intros [<-|[]] [].
  - destruct (Ascii.eqb c ","%char).
    + intros [<-|Hf] Hx; [destruct Hx | right; apply (IH f Hf Hx)].
    + destruct (split_comma s) as [|h t] eqn:E.
      * intros [<-|[]] [<-|[]]; left; reflexivity.
      * intros [<-|Hf] Hx.
        -- destruct Hx as [<-|Hx]; [left; reflexivity|].
           right; apply (IH h); [left; reflexivity | exact Hx].
        -- right; apply (IH f); [right; exact Hf | exact Hx].
Qed.

Lemma fields_chars (s f : str) (x : ascii) :
  In f (fields s) -> In x f -> In x s.
Proof.
  unfold fields; intros H; apply filter_In in H as [H _].
  apply split_comma_chars, H.
Qed.

Lemma split_comma_head_prefix (s h : str) (t : list str) :
  split_comma s = h :: t -> prefixb h s = true.
Proof.
  revert h t; induction s as [|c s IH]; intros h t; cbn [split_comma].
  - intros [= <- <-]; reflexivity.
  - destruct (Ascii.eqb c ","%char); [intros [= <- <-]; reflexivity|].
    destruct (split_comma s) as [|h' t'] eqn:E.
    + destruct (split_comma_cons s) as (? & ? & E'); congruence.
    + intros [= <- <-]; cbn [prefixb].
      rewrite Ascii.eqb_refl; apply (IH h' t' eq_refl).
Qed.

(** A piece is a substring. *)
Lemma split_comma_contains (s f : str) :
  In f (split_comma s) -> contains f s = true.
Proof.
  revert f; induction s as [|c s IH]; intros f; cbn [split_comma].
  - intros [<-|[]]; reflexivity.
  - destruct (Ascii.eqb c ","%char).
    + intros [<-|Hf]; [reflexivity|].
      cbn [contains]; rewrite (IH f Hf); apply orb_true_r.
    + destruct (split_comma s) as [|h t] eqn:E.
      * destruct (split_comma_cons s) as (? & ? & E'); congruence.
      * intros [<-|Hf].
        -- cbn [contains prefixb].
           rewrite Ascii.eqb_refl, (split_comma_head_prefix s h t E); reflexivity.
        -- cbn [contains]; rewrite (IH f (or_intror Hf)); apply orb_true_r.
Qed.

Lemma fields_contains (s f : str) : In f (fields s) -> contains f s = true.
Proof.
  unfold fields; intros H; apply filter_In in H as [H _].
  apply split_comma_contains, H.
Qed.

(** [c in s] for a one-character string [c]. *)
Lemma contains_char (c : ascii) (s : str) :
  contains [c] s = true <-> In c s.
Proof.
  induction s as [|x s IH]; cbn [contains prefixb].
  - split; [discriminate | intros []].
  - rewrite orb_true_iff, IH, andb_true_r; simpl.
    destruct (Ascii.eqb_spec c x); intuition congruence.
Qed.

Lemma contains_char_false (c : ascii) (s : str) :
  contains [c] s = false <-> ~ In c s.
Proof.
  rewrite <- contains_char; destruct (contains [c] s); split; congruence.
Qed.

Lemma last_cons {A : Type} (t : list A) (c d : A) : last (c :: t) d = last t c.
Proof.
  revert c d; induction t as [|x t IH]; intros c d; [reflexivity|].
  change (last (c :: x :: t) d) with (last (x :: t) d).
  rewrite (IH x d), (IH x c); reflexivity.
Qed.

Lemma last_char_snoc (t l : str) :
  last_char t = Done l -> t = removelast t ++ l.
Proof.
  unfold last_char; destruct t as [|c t]; [discriminate|].
  intros [= <-].
  rewrite <- (last_cons t c c).
  apply app_removelast_last; discriminate.
Qed.

Lemma last_char_Done (t : str) : t <> [] -> exists c, last_char t = Done [c].
Proof. destruct t; [contradiction | simpl; eauto]. Qed.

(** [count] and [index] of a one-character string. *)
Lemma str_count_char (s : str) (c : ascii) :
  str_count s [c] = count_occ ascii_dec s c.
Proof.
  unfold str_count; induction s as [|x s IH]; [reflexivity|].
  cbn [count_scan prefixb length Nat.sub count_occ].
  rewrite andb_true_r, IH.
  destruct (ascii_dec x c) as [->|Hxc].
  - rewrite Ascii.eqb_refl; reflexivity.
  - destruct (Ascii.eqb_spec c x); [congruence | reflexivity].
Qed.

Lemma index_scan_char (c : ascii) (s : str) :
  forall start pos,
  0 < count_occ ascii_dec (skipn (start - pos) s) c ->
  exists j,
    index_scan [c] s start pos = Done (pos + j) /\
    start - pos <= j /\ nth_error s j = Some c /\
    count_occ ascii_dec (skipn (S j) s) c + 1
    = count_occ ascii_dec (skipn (start - pos) s) c.
Proof.
  induction s as [|x s IH]; intros start pos H.
  - rewrite skipn_nil in H; simpl in H; lia.
  - cbn [index_scan prefixb]; rewrite andb_true_r.
    destruct (Nat.leb_spec start pos) as [Hle|Hlt].
    + replace (start - pos) with 0 in * by lia. cbn [skipn] in H |- *.
      destruct (Ascii.eqb_spec c x) as [<-|Hcx]; cbn [andb].
      * exists 0; rewrite Nat.add_0_r; repeat split; [lia|].
        cbn [skipn count_occ]; destruct (ascii_dec c c); [lia | congruence].
      * cbn [count_occ] in H; destruct (ascii_dec x c); [congruence|].
        destruct (IH start (S pos)) as (j & E & _ & Hn & Hc).
        { replace (start - S pos) with 0 by lia; exact H. }
        exists (S j); rewrite E; repeat split; [f_equal; lia | lia | exact Hn |].
        replace (start - S pos) with 0 in Hc by lia. cbn [skipn] in Hc.
        cbn [skipn count_occ]; destruct (ascii_dec x c); [congruence | exact Hc].
    + cbn [andb].
      replace (start - pos) with (S (start - S pos)) in * by lia.
      cbn [skipn] in H |- *.
      destruct (IH start (S pos) H) as (j & E & Hj & Hn & Hc).
      exists (S j); rewrite E; repeat split; [f_equal; lia | lia | exact Hn | exact Hc].
Qed.

Lemma str_index_char (s : str) (c : ascii) (start : nat) :
  0 < count_occ ascii_dec (skipn start s) c ->
  exists j,
    str_index s [c] start = Done j /\ nth_error s j = Some c /\
    count_occ ascii_dec (skipn (j + 1) s) c + 1
    = count_occ ascii_dec (skipn start s) c.
Proof.
  intros H; unfold str_index.
  destruct (index_scan_char c s start 0) as (j & E & _ & Hn & Hc).
  - rewrite Nat.sub_0_r; exact H.
  - rewrite Nat.sub_0_r in Hc.
    exists j; replace (j + 1) with (S j) by lia.
    repeat split; [exact E | exact Hn | exact Hc].
Qed.

Lemma chain_shape (g : grammar) (nts : list str) (fuel : nat) (tg v : str) :
  chain fuel g nts tg = Done v -> first_shape g v.
Proof.
  revert tg; induction fuel as [|fuel IH]; intros tg; cbn [chain]; [discriminate|].
  destruct (getitem g tg) as [body| |] eqn:Eb; cbn [bind]; try discriminate.
  destruct body as [|c rest]; cbn [char_at nth_error bind]; [discriminate|].
  destruct (mem [c] nts); cbn [negb]; cbv iota; [apply IH|].
  destruct (eqb_str_spec (slice02 (c :: rest)) "id") as [E|E]; intros [= <-].
  - left; exact E.
  - right; exists c, tg, (c :: rest); repeat split; auto. left; reflexivity.
Qed.

Lemma first_value_shape (g : grammar) (nts : list str) (fuel : nat) (t v : str) :
  first_value fuel g nts t = Done v -> first_shape g v.
Proof.
  unfold first_value.
  destruct (getitem g t) as [body| |] eqn:Eb; cbn [bind]; try discriminate.
  destruct (eqb_str_spec (slice02 body) "id") as [E|E].
  - intros [= <-]; left; exact E.
  - destruct body as [|c rest]; cbn [char_at nth_error bind]; [discriminate|].
    destruct (mem [c] nts); [apply chain_shape|].
    intros [= <-]; right; exists c, t, (c :: rest); repeat split; auto.
    left; reflexivity.
Qed.

Lemma no_dollar_In (g : grammar) (k body : str) :
  no_dollar g -> getitem g k = Done body -> ~ In "$"%char body.
Proof.
  unfold no_dollar; rewrite forallb_forall; intros H E Hin.
  apply getitem_Done_In in E; specialize (H _ E); cbn [snd] in H.
  apply negb_true_iff in H.
  assert (existsb (Ascii.eqb "$"%char) body = true); [|congruence].
  apply existsb_exists; exists "$"%char; split; [exact Hin | apply Ascii.eqb_refl].
Qed.

Lemma first_shape_no_dollar (g : grammar) (v : str) :
  no_dollar g -> first_shape g v -> ~ In "$"%char v.
Proof.
  intros Hd [->|(c & k & body & -> & E & Hc)].
  - intros [H|[H|[]]]; discriminate.
  - intros [->|[]]; apply (no_dollar_In g k body Hd E Hc).
Qed.

Lemma is_dict_setitem {V : Type} (d : dict V) (k : str) (v : V) :
  is_dict d -> is_dict (setitem d k v).
Proof.
  unfold is_dict; induction d as [|[k' v'] d IH]; cbn [setitem keys map fst].
  - intros _; constructor; [intros [] | constructor].
  - intros H; inversion H as [|? ? Hk Hd]; subst.
    destruct (eqb_str_spec k' k) as [->|Hne]; cbn [map fst].
    + constructor; assumption.
    + constructor; [|apply IH, Hd].
      intros Hin; apply (In_keys_setitem d k k' v) in Hin as [E|Hin]; [congruence|].
      apply Hk, Hin.
Qed.

Lemma grows_refl (d : dict str) : grows d d.
Proof. intros k s H; exists []; rewrite app_nil_r; exact H. Qed.

Lemma grows_setitem (d : dict str) (n s more : str) :
  getitem d n = Done s -> grows d (setitem d n (s ++ more)).
Proof.
  intros Hn k s' Hk.
  destruct (eqb_str_spec n k) as [<-|Hne].
  - rewrite Hn in Hk; injection Hk as <-.
    exists more; apply getitem_setitem_same.
  - exists []; rewrite getitem_setitem_other, app_nil_r by exact Hne; exact Hk.
Qed.

(** Each recording step of rule 2 and of rule 3 only appends. *)
Lemma follow_after_grows (g : grammar) (fd : dict str) (nts : list str)
  (rule n : str) (i : nat) (d d' : dict str) :
  follow_after g fd nts rule n i d = Done d' -> grows d d'.
Proof.
  unfold follow_after; intros H.
  apply bind_Done in H as (body & _ & H).
  apply bind_Done in H as (nxt & _ & H).
  apply bind_Done in H as (c1 & _ & H).
  destruct c1.
  - apply bind_Done in H as (fo & Efo & H).
    apply bind_Done in H as (f & _ & [= <-]).
    apply grows_setitem, Efo.
  - apply bind_Done in H as (c2 & _ & H).
    destruct c2.
    + apply bind_Done in H as (fo & Efo & [= <-]).
      apply grows_setitem, Efo.
    + apply bind_Done in H as (c3 & _ & H).
      destruct c3.
      * apply bind_Done in H as (fo & Efo & [= <-]).
        apply grows_setitem, Efo.
      * injection H as <-; apply grows_refl.
Qed.

Lemma rule3_symbol_grows (target : str) (c : ascii) (d d' : dict str) :
  rule3_symbol target c d = Done d' -> grows d d'.
Proof.
  unfold rule3_symbol; intros H.
  apply bind_Done in H as (t & Et & H).
  destruct (negb (contains [c] t)); [|injection H as <-; apply grows_refl].
  destruct (eqb_str [c] "i").
  - destruct (eqb_str t ""); injection H as <-; apply grows_setitem, Et.
  - destruct (negb (eqb_str [c] ",")); [|injection H as <-; apply grows_refl].
    destruct (eqb_str t ""); [injection H as <-; apply grows_setitem, Et|].
    apply bind_Done in H as (l & _ & H).
    destruct (negb (eqb_str l ",")); injection H as <-; apply grows_setitem, Et.
Qed.

Lemma NoDup_snoc {A : Type} (l : list A) (x : A) :
  NoDup l -> ~ In x l -> NoDup (l ++ [x]).
Proof.
  induction l as [|a l IH]; intros Hl Hx; cbn [app].
  - constructor; [intros [] | constructor].
  - inversion Hl as [|? ? Ha Hl']; subst; constructor.
    + intros H; apply in_app_or in H as [H|[H|[]]]; [tauto|].
      apply Hx; left; symmetry; exact H.
    + apply IH; [exact Hl' | intros H; apply Hx; right; exact H].
Qed.

Section Follows.

Variables (fuel : nat) (g : grammar) (fd : dict str).
Hypothesis Hfirst : firsts fuel g (keys g) = Done fd.

Local Abbreviation tidy := (tidy g).
Local Abbreviation rule2_string := (rule2_string g).
Local Abbreviation finished := (finished g).
Local Abbreviation ok := (ok g).

Lemma rule_defined (t : str) :
  In t (keys g) -> exists body, getitem g t = Done body /\ body <> [].
Proof.
  intros Ht.
  destruct (firsts_Done fuel g (keys g) fd Hfirst t Ht) as (v & body & _ & _ & E & Hne).
  eauto.
Qed.

Lemma first_defined (t : str) :
  In t (keys g) -> exists v, getitem fd t = Done v /\ first_shape g v.
Proof.
  intros Ht.
  destruct (firsts_Done fuel g (keys g) fd Hfirst t Ht) as (v & body & Ev & E & _ & _).
  exists v; split; [exact E | apply (first_value_shape g (keys g) fuel t v Ev)].
Qed.

Lemma ok_setitem (V : str -> Prop) (d : dict str) (n s : str) :
  ok V d -> V s -> ok V (setitem d n s).
Proof.
  intros (H1 & H2 & H3) Hs; repeat split.
  - apply is_dict_setitem, H1.
  - intros k Hk; apply In_keys_setitem; right; apply H2, Hk.
  - intros k s' Hk.
    destruct (eqb_str_spec n k) as [<-|Hne].
    + rewrite getitem_setitem_same in Hk; injection Hk as <-; exact Hs.
    + rewrite getitem_setitem_other in Hk by exact Hne; apply (H3 k s' Hk).
Qed.

Lemma ok_getitem (V : str -> Prop) (d : dict str) (n : str) :
  ok V d -> In n (keys g) -> exists s, getitem d n = Done s /\ V s.
Proof.
  intros (_ & H2 & H3) Hn.
  destruct (getitem_In d n (H2 n Hn)) as (s & E); eauto.
Qed.

Lemma ok_weaken (V W : str -> Prop) (d : dict str) :
  (forall s, V s -> W s) -> ok V d -> ok W d.
Proof. intros H (H1 & H2 & H3); repeat split; eauto. Qed.

Lemma fields_append (s x : str) :
  comma_ended s -> fields (s ++ x ++ ("," : str)) = fields s ++ fields x.
Proof.
  intros [->|(s' & ->)].
  - cbn [app]; rewrite fields_comma_end; reflexivity.
  - rewrite fields_comma_end.
    replace ((s' ++ ("," : str)) ++ x ++ ("," : str))
      with (s' ++ ","%char :: (x ++ ("," : str)))
      by (rewrite <- app_assoc; reflexivity).
    rewrite fields_app, fields_comma_end; reflexivity.
Qed.

Lemma fields_symbol (x : str) :
  x = "id" \/ (exists c, x = [c]) -> fields x = [] \/ fields x = [x].
Proof.
  intros [->|(c & ->)]; [right; reflexivity|].
  rewrite fields_char; destruct (Ascii.eqb c ","%char); auto.
Qed.

(** Rule 2 appends the symbol [x] and a comma. *)
Lemma rule2_append (s x : str) :
  rule2_string s -> contains x s = false ->
  x = "id" \/ (exists c, x = [c]) ->
  (no_dollar g -> ~ In "$"%char x) ->
  rule2_string (s ++ x ++ ("," : str)).
Proof.
  intros (Hc & Ht) Hx Hshape Hd; split.
  - right; exists (s ++ x); rewrite app_assoc; reflexivity.
  - intros Hg; destruct (Ht Hg) as (Hnd & Hns); split.
    + rewrite (fields_append s x Hc).
      destruct (fields_symbol x Hshape) as [->| ->]; [rewrite app_nil_r; exact Hnd|].
      apply NoDup_snoc; [exact Hnd|].
      intros Hin; apply fields_contains in Hin; congruence.
    + intros Hin; apply in_app_or in Hin as [Hin|Hin]; [tauto|].
      apply in_app_or in Hin as [Hin|[Hin|[]]]; [apply (Hd Hg Hin) | discriminate].
Qed.

Lemma first_shape_symbol (v : str) :
  first_shape g v -> v = "id" \/ (exists c, v = [c]).
Proof. intros [->|(c & _ & _ & -> & _)]; eauto. Qed.

(** Lines 77-83 on a dictionary in order. *)
Lemma follow_after_ok (rule n body : str) (i : nat) (x : ascii) (d : dict str) :
  getitem g rule = Done body -> nth_error body i = Some x -> In n (keys g) ->
  ok rule2_string d ->
  exists d', follow_after g fd (keys g) rule n i d = Done d' /\ ok rule2_string d'.
Proof.
  intros Eb Hi Hn Hd.
  destruct (ok_getitem _ d n Hd Hn) as (fo & Efo & Hfo).
  assert (Hnext : exists y, char_at (body ++ ("|" : str)) (i + 1) = Done [y]
                            /\ (In y body \/ y = "|"%char)).
  { assert (Hlt : i < length body) by (apply nth_error_Some; congruence).
    unfold char_at.
    destruct (nth_error body (i + 1)) as [y|] eqn:Ey.
    - exists y; rewrite nth_error_app1 by (apply nth_error_Some; congruence).
      rewrite Ey; split; [reflexivity | left; apply (nth_error_In _ _ Ey)].
    - apply nth_error_None in Ey.
      exists "|"%char; rewrite nth_error_app2 by lia.
      replace (i + 1 - length body) with 0 by lia; split; [reflexivity | right; reflexivity]. }
  destruct Hnext as (y & Ey & Hy).
  unfold follow_after; rewrite Eb; cbn [bind]; rewrite Ey; cbn [bind].
  assert (H1 : exists c1,
     (if mem [y] (keys g)
      then f <- getitem fd [y] ;; fo <- getitem d n ;; Done (negb (contains f fo))
      else Done false) = Done c1
     /\ (c1 = true -> exists f, getitem fd [y] = Done f /\ contains f fo = false
                                /\ first_shape g f)).
  { destruct (mem [y] (keys g)) eqn:Em; [|exists false; split; [reflexivity | discriminate]].
    apply mem_In in Em; destruct (first_defined [y] Em) as (f & Ef & Hf).
    rewrite Ef, Efo; cbn [bind]; eexists; split; [reflexivity|].
    intros E; apply negb_true_iff in E; eauto. }
  destruct H1 as (c1 & -> & H1); cbn [bind].
  destruct c1.
  { destruct (H1 eq_refl) as (f & Ef & Hc & Hf).
    rewrite Efo, Ef; cbn [bind]; eexists; split; [reflexivity|].
    apply ok_setitem; [exact Hd|].
    apply (rule2_append fo f Hfo Hc (first_shape_symbol f Hf)).
    intros Hg; apply (first_shape_no_dollar g f Hg Hf). }
  assert (H3 : exists d',
     (c3 <- (if negb (eqb_str [y] "|")
             then fo0 <- getitem d n ;; Done (negb (contains [y] fo0))
             else Done false) ;;
      if (c3 : bool)
      then fo0 <- getitem d n ;; Done (setitem d n (fo0 ++ [y] ++ ("," : str)))
      else Done d) = Done d' /\ ok rule2_string d').
  { destruct (eqb_str_spec [y] "|") as [E|E]; cbn [negb bind]; cbv iota;
      [eexists; split; [reflexivity | exact Hd]|].
    rewrite Efo; cbn [bind]; destruct (contains [y] fo) eqn:Hcy; cbn [negb]; cbv iota;
      [eexists; split; [reflexivity | exact Hd]|].
    eexists; split; [reflexivity|].
    apply ok_setitem; [exact Hd|].
    apply (rule2_append fo [y] Hfo Hcy); [right; eauto|].
    intros Hg [->|[]]; destruct Hy as [Hy|Hy]; [|discriminate].
    apply (no_dollar_In g rule body Hg Eb Hy). }
  destruct (eqb_str (slice (body ++ ("|" : str)) (i + 1) (i + 3)) "id");
    [|cbn [bind]; cbv iota; exact H3].
  destruct (contains "id" fo) eqn:Hc.
  { destruct H3 as (d' & E3 & Hd'); exists d'; split; [|exact Hd'].
    rewrite Efo; cbn [bind]; rewrite Hc; cbn [negb]; cbv iota.
    rewrite Efo in E3; exact E3. }
  rewrite Efo; cbn [bind]; rewrite Hc; cbn [negb bind]; cbv iota.
  eexists; split; [reflexivity|].
  apply ok_setitem; [exact Hd|].
  change (fo ++ ("id," : str)) with (fo ++ ("id" : str) ++ ("," : str)).
  apply (rule2_append fo "id" Hfo Hc); [left; reflexivity|].
  intros _ [H|[H|[]]]; discriminate.
Qed.

(** Lines 72-83 for the nonterminal [c] in the production [body]. *)
Lemma occurrence_loop_ok (rule body : str) (c : ascii) (d : dict str) :
  getitem g rule = Done body -> In [c] (keys g) -> ok rule2_string d ->
  exists st,
    for_each (seq 0 (str_count body [c]))
      (occurrence_round g fd (keys g) rule [c]) (d, [], 0) = Done st
    /\ ok rule2_string (fst (fst st)).
Proof.
  intros Eb Hc Hd.
  destruct (for_each_seq
    (fun k (st : dict str * list nat * nat) =>
       ok rule2_string (fst (fst st))
       /\ (forall i, In i (snd (fst st)) -> exists x, nth_error body i = Some x)
       /\ str_count body [c] - k <= count_occ ascii_dec (skipn (snd st) body) c)
    (occurrence_round g fd (keys g) rule [c]) (str_count body [c]) 0)
    with (s := (d, @nil nat, 0)) as (st & E & Hst & _).
  - intros k [[d1 idxs] indx] Hk (H1 & H2 & H3); cbn [fst snd] in *.
    unfold occurrence_round; rewrite Eb; cbn [bind].
    destruct (str_index_char body c indx) as (j & Ej & Hj & Hcount); [lia|].
    rewrite Ej; cbn [bind].
    destruct (for_each_total (ok rule2_string)
                (follow_after g fd (keys g) rule [c]) (idxs ++ [j])) with (s := d1)
      as (d2 & E2 & Hd2); [|exact H1|].
    + intros i s Hi Hs.
      assert (Hx : exists x, nth_error body i = Some x).
      { apply in_app_or in Hi as [Hi|[<-|[]]]; [apply H2, Hi | eauto]. }
      destruct Hx as (x & Hx).
      apply (follow_after_ok rule [c] body i x s Eb Hx Hc Hs).
    + rewrite E2; cbn [bind]; eexists; split; [reflexivity|]; cbn [fst snd].
      split; [exact Hd2 | split; [|cbn [Nat.add]; lia]].
      intros i Hi; apply in_app_or in Hi as [Hi|[<-|[]]]; [apply H2, Hi | eauto].
  - cbn [fst snd]; split; [exact Hd | split; [intros i [] |]].
    rewrite str_count_char; cbn [skipn]; lia.
  - exists st; split; [exact E | exact Hst].
Qed.

Lemma rule2_symbol_ok (rule body : str) (c : ascii) (d : dict str) :
  getitem g rule = Done body -> ok rule2_string d ->
  exists d', rule2_symbol g fd (keys g) rule c d = Done d' /\ ok rule2_string d'.
Proof.
  intros Eb Hd; unfold rule2_symbol.
  destruct (mem [c] (keys g)) eqn:Em; [|eauto].
  apply mem_In in Em; rewrite Eb; cbn [bind].
  destruct (occurrence_loop_ok rule body c d Eb Em Hd) as (st & -> & Hst).
  cbn [bind]; eauto.
Qed.

Lemma rule2_ok (rule : str) (d : dict str) :
  In rule (keys g) -> ok rule2_string d ->
  exists d', rule2 g fd (keys g) rule d = Done d' /\ ok rule2_string d'.
Proof.
  intros Hr Hd; unfold rule2.
  destruct (rule_defined rule Hr) as (body & Eb & _); rewrite Eb; cbn [bind].
  apply (for_each_total (ok rule2_string)); [|exact Hd].
  intros c s _ Hs; apply (rule2_symbol_ok rule body c s Eb Hs).
Qed.

Lemma tidy_nil : tidy [].
Proof. intros _; split; [constructor | intros []]. Qed.

Lemma follows_init_ok :
  exists d, follows_init g = Done d /\ ok rule2_string d.
Proof.
  unfold follows_init.
  destruct (store_loop_total (fun _ : str => Done ("" : str)) (keys g) [])
    as (d & E); [eauto|].
  exists d; split; [exact E|].
  destruct (store_loop _ _ _ _ E) as (I1 & _ & I3).
  assert (H : is_dict d /\ forall k s, getitem d k = Done s -> rule2_string s).
  { apply (for_each_inv
             (fun d => is_dict d /\ forall k s, getitem d k = Done s -> rule2_string s)
             (fun t d => v <- Done ("" : str) ;; Done (setitem d t v)) (keys g))
      with (s := []); [| |exact E].
    - intros a s s' _ (H1 & H2) [= <-]; split; [apply is_dict_setitem, H1|].
      intros k v Hk.
      destruct (eqb_str_spec a k) as [<-|Hne].
      + rewrite getitem_setitem_same in Hk; injection Hk as <-.
        split; [left; reflexivity | apply tidy_nil].
      + rewrite getitem_setitem_other in Hk by exact Hne; apply (H2 k v Hk).
    - split; [constructor | intros k s; discriminate]. }
  destruct H as (H1 & H2); split; [exact H1 | split; [|exact H2]].
  intros k Hk; apply I3; left; exact Hk.
Qed.

Lemma follows_rule2_ok :
  exists d, follows_rule2 g fd (keys g) = Done d /\ ok rule2_string d.
Proof.
  unfold follows_rule2.
  destruct follows_init_ok as (d0 & -> & H0); cbn [bind].
  apply (for_each_total (ok rule2_string)); [|exact H0].
  intros rule s Hr Hs; apply (rule2_ok rule s Hr Hs).
Qed.

(** Lines 88-101 on a dictionary in order. *)
Lemma rule3_symbol_ok (target : str) (c : ascii) (d : dict str) :
  In target (keys g) -> (no_dollar g -> c <> "$"%char) -> ok tidy d ->
  exists d', rule3_symbol target c d = Done d' /\ ok tidy d'.
Proof.
  intros Ht Hc Hd; unfold rule3_symbol.
  destruct (ok_getitem _ d target Hd Ht) as (t & Et & Htidy).
  rewrite Et; cbn [bind].
  destruct (contains [c] t) eqn:Ec; cbn [negb]; cbv iota; [eauto|].
  apply contains_char_false in Ec.
  assert (Hfresh : forall f, In c f -> ~ In f (fields t))
    by (intros f Hcf Hf; apply Ec, (fields_chars t f c Hf Hcf)).
  destruct (eqb_str_spec [c] "i") as [Ei|Ei].
  { injection Ei as ->.
    destruct (eqb_str_spec t "") as [->|Hne]; (eexists; split; [reflexivity|]);
      apply ok_setitem; try exact Hd; intros Hg; destruct (Htidy Hg) as (Hnd & Hns).
    - split; [repeat constructor; intros [] | intros [H|[H|[]]]; discriminate].
    - change (t ++ (",id" : str)) with (t ++ ","%char :: ("id" : str)).
      rewrite fields_app, fields_id; split.
      + apply NoDup_snoc; [exact Hnd | apply Hfresh; left; reflexivity].
      + intros H; apply in_app_or in H as [H|[H|[H|[H|[]]]]]; try discriminate; tauto. }
  destruct (eqb_str_spec [c] ",") as [Ek|Ek]; cbn [negb]; cbv iota; [eauto|].
  assert (Hck : Ascii.eqb c ","%char = false)
    by (apply Ascii.eqb_neq; intros ->; apply Ek; reflexivity).
  assert (Hfc : fields [c] = [[c]]) by (rewrite fields_char, Hck; reflexivity).
  assert (Hgoal : forall s, fields s = fields t ++ [[c]] ->
            (forall x, In x s -> In x t \/ x = c \/ x = ","%char) -> tidy s).
  { intros s Hs Hx Hg; destruct (Htidy Hg) as (Hnd & Hns); split.
    - rewrite Hs; apply NoDup_snoc; [exact Hnd | apply Hfresh; left; reflexivity].
    - intros H; destruct (Hx _ H) as [H'|[H'|H']]; [tauto | | discriminate].
      apply (Hc Hg); symmetry; exact H'. }
  destruct (eqb_str_spec t "") as [->|Hne].
  { eexists; split; [reflexivity|]; apply ok_setitem; [exact Hd|].
    apply Hgoal; [exact Hfc|]. intros x [<-|[]]; auto. }
  destruct (last_char_Done t Hne) as (l & El); rewrite El; cbn [bind].
  destruct (eqb_str_spec [l] ",") as [Elc|Elc]; cbn [negb]; cbv iota;
    (eexists; split; [reflexivity|]); apply ok_setitem; try exact Hd; apply Hgoal.
  - rewrite Elc in El; apply last_char_snoc in El.
    rewrite El at 1.
    replace ((removelast t ++ ("," : str)) ++ [c])
      with (removelast t ++ ","%char :: [c]) by (rewrite <- app_assoc; reflexivity).
    rewrite fields_app, Hfc. f_equal.
    rewrite El at 2; rewrite fields_comma_end; reflexivity.
  - intros x H; apply in_app_or in H as [H|[<-|[]]]; auto.
  - change (t ++ ("," : str) ++ [c]) with (t ++ ","%char :: [c]).
    rewrite fields_app, Hfc; reflexivity.
  - intros x H; apply in_app_or in H as [H|[<-|[<-|[]]]]; auto.
Qed.

Lemma rule3_ok (rule : str) (d : dict str) :
  In rule (keys g) -> ok tidy d ->
  exists d', rule3 g (keys g) rule d = Done d' /\ ok tidy d'.
Proof.
  intros Hr Hd; unfold rule3.
  destruct (rule_defined rule Hr) as (body & Eb & Hne); rewrite Eb; cbn [bind].
  destruct (last_char_Done body Hne) as (l & ->); cbn [bind].
  destruct (mem [l] (keys g)) eqn:Em; [|eauto].
  apply mem_In in Em.
  destruct (ok_getitem _ d rule Hd Hr) as (src & Es & Hsrc).
  rewrite Es; cbn [bind].
  apply (for_each_total (ok tidy)); [|exact Hd].
  intros c s Hc Hs; apply (rule3_symbol_ok [l] c s Em); [|exact Hs].
  intros Hg ->; destruct (Hsrc Hg) as (_ & Hns); apply Hns, Hc.
Qed.

Lemma follows_rule3_ok :
  exists d, follows_rule3 g fd (keys g) = Done d /\ ok tidy d.
Proof.
  unfold follows_rule3.
  destruct follows_rule2_ok as (d2 & -> & H2); cbn [bind].
  apply (for_each_total (ok tidy)).
  - intros rule s Hr Hs; apply (rule3_ok rule s Hr Hs).
  - apply (ok_weaken rule2_string tidy); [intros s (_ & H); exact H | exact H2].
Qed.

Lemma strip_comma_ok (keys0 : list str) (rule : str) (d : dict str) :
  In rule keys0 ->
  ok tidy d /\ incl keys0 (keys d) ->
  exists d', strip_comma rule d = Done d' /\ ok tidy d' /\ incl keys0 (keys d').
Proof.
  intros Hr (Hd & Hk); unfold strip_comma.
  destruct (getitem_In d rule (Hk rule Hr)) as (v & Ev); rewrite Ev; cbn [bind].
  assert (Hv : tidy v) by (destruct Hd as (_ & _ & H); apply (H rule v Ev)).
  destruct (eqb_str_spec v "") as [->|Hne]; cbn [negb]; cbv iota; [eauto|].
  destruct (last_char_Done v Hne) as (l & El); rewrite El; cbn [bind].
  destruct (eqb_str_spec [l] ",") as [E|E]; [|eauto].
  eexists; split; [reflexivity|]; split.
  - apply ok_setitem; [exact Hd|].
    rewrite E in El; apply last_char_snoc in El.
    intros Hg; destruct (Hv Hg) as (Hnd & Hns); split.
    + rewrite El, fields_comma_end in Hnd; exact Hnd.
    + intros H; apply Hns; rewrite El; apply in_or_app; left; exact H.
  - intros k Hin; apply In_keys_setitem; right; apply Hk, Hin.
Qed.

Lemma strip_loop_ok (d : dict str) :
  ok tidy d ->
  exists d', for_each (keys d) strip_comma d = Done d' /\ ok tidy d'.
Proof.
  intros Hd.
  destruct (for_each_total (fun s => ok tidy s /\ incl (keys d) (keys s))
              strip_comma (keys d)) with (s := d) as (d' & E & Hd' & _).
  - intros rule s Hr Hs; apply (strip_comma_ok (keys d) rule s Hr Hs).
  - split; [exact Hd | apply incl_refl].
  - eauto.
Qed.

Lemma rule1_finished (v : str) :
  tidy v ->
  finished (if negb (eqb_str v "") then v ++ (",$" : str) else ("$" : str)).
Proof.
  intros Hv; destruct (eqb_str_spec v "") as [->|Hne]; cbn [negb]; cbv iota.
  - split; [exists []; reflexivity|].
    intros _; repeat constructor; intros [].
  - change (v ++ (",$" : str)) with (v ++ ","%char :: ("$" : str)).
    unfold finished, no_duplicate; rewrite fields_app, fields_dollar; split; [eauto|].
    intros Hg; destruct (Hv Hg) as (Hnd & Hns).
    apply NoDup_snoc; [exact Hnd|].
    intros H; apply Hns, (fields_chars v "$" _ H); left; reflexivity.
Qed.

(** Lines 106-110: every key is visited once. *)
Lemma rule1_loop (l : list str) :
  forall d, NoDup l ->
  (forall k, In k l -> exists s, getitem d k = Done s /\ tidy s) ->
  exists d',
    for_each l rule1 d = Done d'
    /\ (forall k, In k l -> exists s, getitem d' k = Done s /\ finished s)
    /\ (forall k, ~ In k l -> getitem d' k = getitem d k).
Proof.
  induction l as [|a l IH]; intros d Hl Hd.
  - exists d; split; [reflexivity | split; [intros k [] | reflexivity]].
  - inversion Hl as [|? ? Ha Hl']; subst.
    destruct (Hd a (or_introl eq_refl)) as (v & Ev & Hv).
    cbn [for_each]; unfold rule1 at 1; rewrite Ev; cbn [bind].
    set (w := if negb (eqb_str v "") then v ++ (",$" : str) else ("$" : str)).
    assert (E1 : (if negb (eqb_str v "")
                  then Done (setitem d a (v ++ (",$" : str)))
                  else Done (setitem d a ("$" : str))) = Done (setitem d a w))
      by (unfold w; destruct (negb (eqb_str v "")); reflexivity).
    rewrite E1; cbn [bind].
    destruct (IH (setitem d a w) Hl') as (d' & E & H1 & H2).
    { intros k Hk; rewrite getitem_setitem_other by (intros ->; tauto).
      apply Hd; right; exact Hk. }
    exists d'; split; [exact E|]; split.
    + intros k [<-|Hk]; [|apply H1, Hk].
      rewrite (H2 a Ha), getitem_setitem_same.
      exists w; split; [reflexivity | apply rule1_finished, Hv].
    + intros k Hk; rewrite (H2 k) by (intros H; apply Hk; right; exact H).
      apply getitem_setitem_other; intros ->; apply Hk; left; reflexivity.
Qed.

(** [follows] returns, and every FOLLOW string is finished. *)
Lemma follows_finished :
  exists fo,
    follows fd g fd (keys g) = Done fo /\
    forall a, In a (keys g) -> exists s, getitem fo a = Done s /\ finished s.
Proof.
  unfold follows.
  destruct follows_rule3_ok as (d3 & -> & H3); cbn [bind].
  destruct (strip_loop_ok d3 H3) as (d4 & -> & H4); cbn [bind].
  destruct H4 as (Hdict & Hkeys & Hvals).
  destruct (rule1_loop (keys d4) d4 Hdict) as (fo & E & H1 & _).
  { intros k Hk; destruct (getitem_In d4 k Hk) as (s & Es); eauto. }
  exists fo; split; [exact E|].
  intros a Ha; apply H1, Hkeys, Ha.
Qed.

End Follows.

Lemma setitem_same {V : Type} (d : dict V) (k : str) (v : V) :
  getitem d k = Done v -> setitem d k v = d.
Proof.
  induction d as [|[k' v'] d IH]; cbn [getitem setitem]; [discriminate|].
  destruct (eqb_str k' k); [intros [= ->]; reflexivity|].
  intros H; rewrite (IH H); reflexivity.
Qed.

Lemma for_each_ext {A St : Type} (body body' : A -> St -> outcome St) (l : list A) :
  (forall a s, body a s = body' a s) ->
  forall s, for_each l body s = for_each l body' s.
Proof.
  intros H; induction l as [|a l IH]; intros s; cbn [for_each]; [reflexivity|].
  rewrite H; destruct (body' a s); cbn [bind]; auto.
Qed.

Lemma strip_comma_update (rule : str) (d : dict str) :
  strip_comma rule d = (v <- getitem d rule ;; Done (setitem d rule (stripped v))).
Proof.
  unfold strip_comma, stripped.
  destruct (getitem d rule) as [v| |] eqn:Ev; cbn [bind]; try reflexivity.
  destruct v as [|c v].
  - cbn [last_char]; rewrite (setitem_same d rule _ Ev); reflexivity.
  - change (negb (eqb_str (c :: v) "")) with true; cbv iota.
    cbn [last_char bind].
    destruct (eqb_str [last v c] ","); [reflexivity|].
    rewrite (setitem_same d rule _ Ev); reflexivity.
Qed.

Lemma rule1_update (rule : str) (d : dict str) :
  rule1 rule d = (v <- getitem d rule ;; Done (setitem d rule (with_dollar v))).
Proof.
  unfold rule1, with_dollar.
  destruct (getitem d rule) as [v| |]; cbn [bind]; try reflexivity.
  destruct (negb (eqb_str v "")); reflexivity.
Qed.

(** A loop that rewrites the entry of each key once. *)
Lemma update_loop (F : str -> str) (l : list str) :
  forall d, NoDup l -> incl l (keys d) ->
  exists d',
    for_each l (fun k d => v <- getitem d k ;; Done (setitem d k (F v))) d = Done d'
    /\ keys d' = keys d
    /\ (forall k v, In k l -> getitem d k = Done v -> getitem d' k = Done (F v))
    /\ (forall k, ~ In k l -> getitem d' k = getitem d k).
Proof.
  induction l as [|a l IH]; intros d Hl Hin.
  - exists d; split; [reflexivity|]; split; [reflexivity|]; split;
      [intros k v [] | reflexivity].
  - inversion Hl as [|? ? Ha Hl']; subst.
    assert (Hak : In a (keys d)) by (apply Hin; left; reflexivity).
    destruct (getitem_In d a Hak) as (v & Ev).
    cbn [for_each]; rewrite Ev; cbn [bind].
    destruct (IH (setitem d a (F v)) Hl') as (d' & E & K & H1 & H2).
    { intros k Hk; rewrite (keys_setitem_In d a (F v) Hak); apply Hin; right; exact Hk. }
    exists d'; split; [exact E|]; split;
      [rewrite K; apply keys_setitem_In, Hak|]; split.
    + intros k w [<-|Hk] Hw.
      * rewrite (H2 a Ha), getitem_setitem_same; congruence.
      * apply (H1 k w Hk).
        rewrite getitem_setitem_other by (intros ->; tauto); exact Hw.
    + intros k Hk; rewrite (H2 k) by (intros H; apply Hk; right; exact H).
      apply getitem_setitem_other; intros ->; apply Hk; left; reflexivity.
Qed.

(** From the dictionary after rule 3 to the result of [follows]. *)
Lemma follows_from_rule3 (first : dict str) (g : grammar) (firsts : dict str)
  (nts : list str) (d3 : dict str) :
  follows_rule3 g first nts = Done d3 -> is_dict d3 ->
  exists fo,
    follows first g firsts nts = Done fo /\
    forall a s3, getitem d3 a = Done s3 ->
      getitem fo a = Done (with_dollar (stripped s3)).
Proof.
  intros E3 Hd3; unfold follows; rewrite E3; cbn [bind].
  rewrite (for_each_ext strip_comma _ (keys d3) strip_comma_update).
  destruct (update_loop stripped (keys d3) d3 Hd3 (incl_refl _))
    as (d4 & -> & K4 & H4 & _); cbn [bind].
  rewrite (for_each_ext rule1 _ (keys d4) rule1_update).
  destruct (update_loop with_dollar (keys d4) d4) as (fo & -> & _ & H5 & _).
  { unfold is_dict in Hd3; rewrite K4; exact Hd3. }
  { apply incl_refl. }
  exists fo; split; [reflexivity|].
  intros a s3 Ha.
  pose proof (getitem_Done_key d3 a s3 Ha) as Hk.
  apply (H5 a); [rewrite K4; exact Hk|].
  apply (H4 a s3 Hk Ha).
Qed.

(** C5 (amended).  When [firsts] has returned, [follows] returns a
    FOLLOW string for every nonterminal, and its last entry is [$].
    When no production contains the character [$], no entry occurs
    twice in it.  Every recording step of rule 2 and of rule 3 leaves
    the strings it finds as prefixes of the strings it returns, and the
    returned string is the one that rule 3 leaves, without its trailing
    comma and followed by [$]: the entries stay in the order in which
    they were first recorded. *)
Theorem follows_ends_with_dollar (fuel : nat) (g : grammar) (fd : dict str)
  (Hfirst : firsts fuel g (get_none_terminals g) = Done fd) :
  exists fo,
    follows fd g fd (get_none_terminals g) = Done fo /\
    (forall a, In a (get_none_terminals g) ->
       exists s earlier,
         getitem fo a = Done s /\ fields s = earlier ++ [("$" : str)]
         /\ (no_dollar g -> no_duplicate s)) /\
    (forall rule n i d d',
       follow_after g fd (get_none_terminals g) rule n i d = Done d' -> grows d d') /\
    (forall target c d d', rule3_symbol target c d = Done d' -> grows d d') /\
    (exists d3,
       follows_rule3 g fd (get_none_terminals g) = Done d3 /\
       forall a s3, getitem d3 a = Done s3 ->
         getitem fo a = Done (with_dollar (stripped s3))).
Proof.
  destruct (follows_finished fuel g fd Hfirst) as (fo & E & H).
  exists fo; split; [exact E|]; split; [|split; [|split]].
  - intros a Ha; destruct (H a Ha) as (s & Es & (earlier & Hf) & Hnd).
    exists s, earlier; auto.
  - intros rule n i d d'; apply follow_after_grows.
  - intros target c d d'; apply rule3_symbol_grows.
  - destruct (follows_rule3_ok fuel g fd Hfirst) as (d3 & E3 & Hd3 & _).
    exists d3; split; [exact E3|].
    destruct (follows_from_rule3 fd g fd (keys g) d3 E3 Hd3) as (fo' & E' & H').
    unfold get_none_terminals in E; rewrite E in E'; injection E' as <-.
    exact H'.
Qed.

(** FOLLOW of the example grammar. *)
Lemma follows_ends_with_dollar_witness :
  exists fo,
    follows example_first example_grammar example_first
      (get_none_terminals example_grammar) = Done fo /\
    (forall a, In a (get_none_terminals example_grammar) ->
       exists s earlier,
         getitem fo a = Done s /\ fields s = earlier ++ [("$" : str)]
         /\ (no_dollar example_grammar -> no_duplicate s)) /\
    (forall rule n i d d',
       follow_after example_grammar example_first
         (get_none_terminals example_grammar) rule n i d = Done d' -> grows d d') /\
    (forall target c d d', rule3_symbol target c d = Done d' -> grows d d') /\
    (exists d3,
       follows_rule3 example_grammar example_first
         (get_none_terminals example_grammar) = Done d3 /\
       forall a s3, getitem d3 a = Done s3 ->
         getitem fo a = Done (with_dollar (stripped s3))).
Proof.
  apply (follows_ends_with_dollar 4 example_grammar example_first); reflexivity.
Defined.

(** C5 as stated fails: in the grammar S -> A$, A -> a, which
    [correction] leaves as it is, FOLLOW(A) is the string "$,$", in
    which the entry [$] occurs twice. *)
Lemma follows_repeats_dollar :
  correction dollar_grammar = Done dollar_grammar /\
  exists fd fo s,
    firsts 2 dollar_grammar (get_none_terminals dollar_grammar) = Done fd /\
    follows fd dollar_grammar fd (get_none_terminals dollar_grammar) = Done fo /\
    getitem fo ("A" : str) = Done s /\
    s = ("$,$" : str) /\
    fields s = [("$" : str); ("$" : str)] /\
    ~ no_duplicate s.
Proof.
  split; [reflexivity|].
  do 3 eexists; repeat (split; [reflexivity|]).
  unfold no_duplicate; intros H; inversion H as [|? ? Hin _]; subst.
  apply Hin; left; reflexivity.
Qed.

(** ** [correction] and the epsilon nonterminals *)

(** [replace] with the empty string only deletes characters. *)
Lemma replace_scan_chars (old : str) (x : ascii) (s : str) :
  forall skip, In x (replace_scan old [] skip s) -> In x s.
Proof.
  induction s as [|c s IH]; intros skip; cbn [replace_scan]; [auto|].
  destruct skip as [|k].
  - destruct (prefixb old (c :: s)); cbn [app].
    + intros H; right; apply (IH _ H).
    + intros [<-|H]; [left; reflexivity | right; apply (IH _ H)].
  - intros H; right; apply (IH _ H).
Qed.

Lemma replace_chars (w old : str) (x : ascii) :
  In x (replace w old "") -> In x w.
Proof.
  unfold replace; destruct old as [|o old].
  - cbn [app py list_ascii_of_string].
    induction w as [|c w IH]; cbn [flat_map app]; [auto|].
    intros [<-|H]; [left; reflexivity | right; apply IH, H].
  - apply replace_scan_chars.
Qed.

(** Replacing a one-character string deletes the character. *)
Lemma replace_char_gone (w : str) (c : ascii) : ~ In c (replace w [c] "").
Proof.
  unfold replace; change (py "") with (@nil ascii).
  induction w as [|x w IH]; cbn [replace_scan]; [intros []|].
  cbn [prefixb length Nat.sub app]; rewrite andb_true_r.
  destruct (Ascii.eqb_spec c x) as [->|Hne]; [exact IH|].
  intros [H|H]; [congruence | apply IH, H].
Qed.

(** The strings that occur in the epsilon marker. *)
Lemma contains_ep (r : str) :
  contains r "ep" = true ->
  r = "" \/ r = "e" \/ r = "p" \/ r = "ep".
Proof.
  change (py "ep") with ["e"%char; "p"%char].
  destruct r as [|a [|b [|c r]]]; [auto| | |]; cbn.
  - destruct (Ascii.eqb_spec a "e"%char) as [->|He]; [auto|].
    destruct (Ascii.eqb_spec a "p"%char) as [->|Hp]; [auto|]. discriminate.
  - destruct (Ascii.eqb_spec a "e"%char) as [->|He];
      [|destruct (Ascii.eqb a "p"%char); discriminate].
    destruct (Ascii.eqb_spec b "p"%char) as [->|Hp]; [auto|]. cbn. discriminate.
  - destruct (Ascii.eqb a "e"%char), (Ascii.eqb b "p"%char), (Ascii.eqb a "p"%char);
      discriminate.
Qed.

(** A loop whose rounds each establish a lasting property. *)
Lemma for_each_establish {A St : Type} (P : St -> Prop) (Q : A -> St -> Prop)
  (body : A -> St -> outcome St) (l : list A) :
  (forall a s s', In a l -> P s -> body a s = Done s' ->
     P s' /\ Q a s' /\ forall b, Q b s -> Q b s') ->
  forall (E : A -> Prop) s s',
  P s -> (forall b, E b -> Q b s) -> for_each l body s = Done s' ->
  P s' /\ forall b, E b \/ In b l -> Q b s'.
Proof.
  induction l as [|a l IH]; intros Hb E s s' Hs HE; cbn [for_each].
  - intros [= <-]; split; [exact Hs|]. intros b [Hb'|[]]; apply HE, Hb'.
  - intros H; apply bind_Done in H as (s1 & H1 & H2).
    destruct (Hb a s s1 (or_introl eq_refl) Hs H1) as (P1 & Qa & Hpres).
    destruct (IH (fun a' t t' Ha' => Hb a' t t' (or_intror Ha'))
                 (fun b => E b \/ b = a) s1 s' P1) as (P' & Q'); [|exact H2|].
    + intros b [Hb'| ->]; [apply Hpres, HE, Hb' | exact Qa].
    + split; [exact P'|].
      intros b [Hb'|[<-|Hb']]; apply Q'; auto.
Qed.

Lemma plain_names_In (g : grammar) (r : str) :
  plain_names g -> In r (keys g) ->
  r <> ("e" : str) /\ r <> ("p" : str) /\ r <> ("ep" : str).
Proof.
  unfold plain_names; rewrite forallb_forall; intros H Hr.
  specialize (H r Hr); apply negb_true_iff in H.
  apply orb_false_iff in H as [H H3]; apply orb_false_iff in H as [H1 H2].
  repeat split; apply eqb_str_neq; assumption.
Qed.

Section Erase.

Variable g : grammar.
Hypothesis names : plain_names g.

(** Lines 15-16 for a nonterminal [r] of [g]. *)
Lemma erase_symbol_step (r dr : str) (s s' : grammar) :
  In r (keys g) -> erase_symbol r dr s = Done s' ->
  keys s' = keys s
  /\ (forall k, getitem s k = Done ("ep" : str) -> getitem s' k = Done ("ep" : str))
  /\ (forall c, clean c s -> clean c s')
  /\ (forall c v, r = [c] -> getitem s' dr = Done v -> ~ In c v).
Proof.
  intros Hr H; unfold erase_symbol in H.
  apply bind_Done in H as (w & Ew & H).
  destruct (contains r w) eqn:Ec; injection H as <-.
  - repeat split.
    + apply keys_setitem_In, (getitem_Done_key _ _ _ Ew).
    + intros k Hk; destruct (eqb_str_spec dr k) as [<-|Hne].
      * rewrite Ew in Hk; injection Hk as ->.
        destruct (plain_names_In g r names Hr) as (H1 & H2 & H3).
        destruct (contains_ep r Ec) as [->|[?|[?|?]]]; try contradiction.
        rewrite getitem_setitem_same; reflexivity.
      * rewrite getitem_setitem_other by exact Hne; exact Hk.
    + intros c Hc k v Hk; destruct (eqb_str_spec dr k) as [<-|Hne].
      * rewrite getitem_setitem_same in Hk; injection Hk as <-.
        intros Hin; apply (Hc dr w Ew), (replace_chars w r c Hin).
      * rewrite getitem_setitem_other in Hk by exact Hne; apply (Hc k v Hk).
    + intros c v -> Hv; rewrite getitem_setitem_same in Hv; injection Hv as <-.
      apply replace_char_gone.
  - repeat split; auto.
    intros c v -> Hv; rewrite Ew in Hv; injection Hv as <-.
    apply contains_char_false, Ec.
Qed.

(** Lines 13-16 for a nonterminal [r] of [g]. *)
Lemma erase_epsilon_step (r : str) (s s' : grammar) :
  In r (keys g) -> keys s = keys g -> erase_epsilon r s = Done s' ->
  keys s' = keys g
  /\ (forall k, getitem s k = Done ("ep" : str) -> getitem s' k = Done ("ep" : str))
  /\ (forall c, clean c s -> clean c s')
  /\ (forall c, r = [c] -> getitem s r = Done ("ep" : str) -> clean c s').
Proof.
  intros Hr Hk H; unfold erase_epsilon in H.
  apply bind_Done in H as (v & Ev & H).
  destruct (eqb_str_spec v "ep") as [->|Hne].
  - destruct (for_each_establish
                (fun t => keys t = keys g
                          /\ (forall k, getitem s k = Done ("ep" : str) ->
                                        getitem t k = Done ("ep" : str))
                          /\ (forall c, clean c s -> clean c t))
                (fun dr t => forall c v, r = [c] -> getitem t dr = Done v -> ~ In c v)
                (erase_symbol r) (keys s)) with (E := fun _ : str => False)
                                                 (s := s) (s' := s')
      as ((K & Eps & Cl) & Q); [| |intros b []|exact H|].
    + intros dr t t' _ (Kt & Et & Ct) Hstep.
      destruct (erase_symbol_step r dr t t' Hr Hstep) as (K1 & E1 & C1 & Q1).
      repeat split; [congruence | auto | auto | exact Q1 |].
      intros b Hb c w -> Hw.
      destruct (eqb_str_spec dr b) as [<-|Hne]; [apply (Q1 c w eq_refl Hw)|].
      unfold erase_symbol in Hstep.
      apply bind_Done in Hstep as (w0 & Ew0 & Hstep).
      destruct (contains [c] w0); injection Hstep as <-;
        [rewrite getitem_setitem_other in Hw by exact Hne|];
        apply (Hb c w eq_refl Hw).
    + repeat split; auto.
    + repeat split; auto.
      intros c -> _ k w Hw; apply (Q k); [|reflexivity | exact Hw].
      right; rewrite Hk, <- K; apply (getitem_Done_key _ _ _ Hw).
  - injection H as <-; repeat split; auto.
    intros c _ E; congruence.
Qed.

(** After the first loop nothing is left of the one-character epsilon
    nonterminals. *)
Lemma erase_loop_clean (g1 : grammar) :
  for_each (keys g) erase_epsilon g = Done g1 ->
  keys g1 = keys g /\ keeps_epsilon g g1
  /\ forall c, getitem g [c] = Done ("ep" : str) -> clean c g1.
Proof.
  intros H.
  destruct (for_each_establish
              (fun t => keys t = keys g /\ keeps_epsilon g t)
              (fun r t => forall c, r = [c] -> getitem g r = Done ("ep" : str) -> clean c t)
              erase_epsilon (keys g)) with (E := fun _ : str => False)
                                           (s := g) (s' := g1)
    as ((K & Eps) & Q); [| |intros b []|exact H|].
  - intros r t t' Hr (Kt & Et) Hstep.
    destruct (erase_epsilon_step r t t' Hr Kt Hstep) as (K1 & E1 & C1 & Q1).
    repeat split; [exact K1 | intros k Hk; apply E1, Et, Hk | |].
    + intros c -> Hg; apply (Q1 c eq_refl), Et, Hg.
    + intros b Hb c -> Hg; apply C1, (Hb c eq_refl Hg).
  - split; [reflexivity | intros k Hk; exact Hk].
  - repeat split; auto.
    intros c Hc; apply (Q [c]); [|reflexivity | exact Hc].
    right; apply (getitem_Done_key _ _ _ Hc).
Qed.

(** Where no nonterminal is named [e], [p] or [ep], [correction] drops
    every nonterminal whose production is the epsilon marker, and when
    its name is one character, the character is in no production that
    is left. *)
Lemma correction_erases :
  is_dict g ->
  exists g',
    correction g = Done g' /\
    forall r, getitem g r = Done ("ep" : str) ->
      ~ In r (keys g')
      /\ forall c, r = [c] -> forall dr v, In (dr, v) g' -> ~ In c v.
Proof.
  intros Hd; destruct (correction_Done g Hd) as (g1 & E1 & K1 & E).
  destruct (erase_loop_clean g1 E1) as (_ & Eps & Cl).
  assert (Hd1 : is_dict g1) by (unfold is_dict; rewrite K1; exact Hd).
  exists (filter keepb g1); split; [exact E|].
  intros r Hr; split.
  - intros Hin; unfold keys in Hin; apply in_map_iff in Hin as ([k v] & <- & Hkv).
    apply filter_In in Hkv as (Hkv & Hkeep); cbn [fst snd] in *.
    apply (In_getitem g1 k v Hd1) in Hkv.
    rewrite (Eps k Hr) in Hkv; injection Hkv as <-.
    discriminate.
  - intros c -> dr v Hin; apply filter_In in Hin as (Hin & _).
    apply (Cl c Hr dr v), (In_getitem g1 dr v Hd1 Hin).
Qed.

End Erase.

(** C7.  The nonterminal [e] with the production [ep] survives
    [correction]: line 16 also rewrites the production of the epsilon
    nonterminal itself, here into [p], and line 18 then keeps it. *)
Theorem correction_keeps_epsilon_rule :
  correction [("e" : str, "ep" : str)] = Done [("e" : str, "p" : str)].
Proof. reflexivity. Qed.

(** The epsilon scenario that the code does handle. *)
Example correction_scenario :
  correction [("S" : str, "Ab" : str); ("A" : str, "ep" : str)]
  = Done [("S" : str, "b" : str)].
Proof. reflexivity. Qed.

(** ** [get_gramer] *)

Lemma getitem_app {V : Type} (d1 d2 : dict V) (k : str) :
  getitem (d1 ++ d2) k
  = match getitem d1 k with
    | Done v => Done v
    | _ => getitem d2 k
    end.
Proof.
  induction d1 as [|[k' v'] d1 IH]; cbn [app getitem]; [reflexivity|].
  destruct (eqb_str k' k); [reflexivity|exact IH].
Qed.

Lemma getitem_setitem_cons {V : Type} (d : dict V) (k k0 : str) (v : V) :
  getitem (setitem d k v) k0 = getitem ((k, v) :: d) k0.
Proof.
  cbn [getitem]; destruct (eqb_str_spec k k0) as [<-|H].
  - apply getitem_setitem_same.
  - apply getitem_setitem_other, H.
Qed.

Lemma length_setitem {V : Type} (d : dict V) (k : str) (v : V) :
  length (setitem d k v) <= S (length d).
Proof.
  induction d as [|[k' v'] d IH]; cbn [setitem length]; [lia|].
  destruct (eqb_str k' k); cbn [length]; lia.
Qed.

(** The loop reads the lines of as many rules as it has rounds; a
    lookup in its result finds the rule that was entered last. *)
Lemma read_rules_Some (count : nat) :
  forall rules lines rules' rest,
  read_rules count rules lines = Some (rules', rest) ->
  exists pairs,
    lines = entered pairs ++ rest /\ length pairs = count /\
    (is_dict rules -> is_dict rules') /\
    length rules' <= length rules + count /\
    forall k, getitem rules' k = getitem (rev pairs ++ rules) k.
Proof.
  induction count as [|count IH]; intros rules lines rules' rest; cbn [read_rules].
  - intros [= <- <-]; exists []; repeat split; auto; cbn [length]; lia.
  - destruct lines as [|a [|b lines]]; cbn [input]; try discriminate.
    intros H; destruct (IH _ _ _ _ H) as (pairs & -> & Hl & Hd & Hn & Hg).
    exists ((a, b) :: pairs); split; [reflexivity|]; split; [cbn [length]; lia|].
    split; [intros K; apply Hd, is_dict_setitem, K|]; split.
    + pose proof (length_setitem rules a b); lia.
    + intros k; rewrite Hg; cbn [rev]; rewrite <- app_assoc.
      rewrite (getitem_app (rev pairs) (setitem rules a b)),
        (getitem_app (rev pairs) ([(a, b)] ++ rules)).
      destruct (getitem (rev pairs) k); try reflexivity; apply getitem_setitem_cons.
Qed.

Lemma read_rules_None (count : nat) :
  forall rules lines, length lines < 2 * count -> read_rules count rules lines = None.
Proof.
  induction count as [|count IH]; intros rules lines H; [lia|].
  cbn [read_rules]; destruct lines as [|a [|b lines]]; cbn [input]; try reflexivity.
  apply IH; cbn [length] in H; lia.
Qed.

Lemma read_rules_total (count : nat) :
  forall rules lines, 2 * count <= length lines ->
  exists rules' rest, read_rules count rules lines = Some (rules', rest).
Proof.
  induction count as [|count IH]; intros rules lines H; cbn [read_rules]; [eauto|].
  destruct lines as [|a [|b lines]]; cbn [length] in H; try lia.
  cbn [input]; apply IH; lia.
Qed.

Lemma get_gramer_Some (rules_number : nat) (lines : list str) (rules : grammar)
  (rest : list str) :
  get_gramer rules_number lines = Some (rules, rest) ->
  exists pairs,
    lines = entered pairs ++ rest /\ length pairs = rules_number /\
    is_dict rules /\ length rules <= rules_number /\
    forall k, getitem rules k = getitem (rev pairs) k.
Proof.
  intros E; destruct (read_rules_Some rules_number _ _ _ _ E)
    as (pairs & Hl & Hn & Hd & Hlen & Hg).
  exists pairs; repeat split; auto.
  - apply Hd; constructor.
  - intros k; rewrite Hg, app_nil_r; reflexivity.
Qed.

(** X1.  [get_gramer] needs two lines of input for each of the
    [rules_number] rules and fails when there are fewer.  Otherwise it
    reads exactly these lines and returns a dictionary with pairwise
    distinct keys and at most [rules_number] entries, in which every
    nonterminal has the production that was entered for it last: a
    nonterminal that is entered again replaces its earlier
    production. *)
Theorem get_gramer_rules (rules_number : nat) (lines : list str) :
  (length lines < 2 * rules_number -> get_gramer rules_number lines = None) /\
  (2 * rules_number <= length lines ->
   exists rules rest pairs,
     get_gramer rules_number lines = Some (rules, rest) /\
     lines = entered pairs ++ rest /\ length pairs = rules_number /\
     is_dict rules /\ length rules <= rules_number /\
     forall k, getitem rules k = getitem (rev pairs) k).
Proof.
  split; [apply read_rules_None|]; intros H.
  destruct (read_rules_total rules_number [] lines H) as (rules & rest & E).
  destruct (get_gramer_Some rules_number lines rules rest E) as (pairs & K).
  exists rules, rest, pairs; split; [exact E|exact K].
Qed.

(** ** [get_terminals] *)

Lemma In_snoc {A : Type} (l : list A) (x y : A) : In y (l ++ [x]) <-> In y l \/ y = x.
Proof. rewrite in_app_iff; simpl; intuition. Qed.

(** A loop that only adds to a list adds what its rounds add. *)
Lemma for_each_collect {A B : Type} (Inv : list B -> Prop) (R : A -> B -> Prop)
  (body : A -> list B -> outcome (list B)) (l : list A) :
  (forall a s, In a l -> Inv s ->
     exists s', body a s = Done s' /\ Inv s' /\
                forall t, In t s' <-> In t s \/ R a t) ->
  forall s, Inv s ->
  exists s', for_each l body s = Done s' /\ Inv s' /\
             forall t, In t s' <-> In t s \/ exists a, In a l /\ R a t.
Proof.
  induction l as [|a l IH]; intros Hbody s Hs.
  - exists s; split; [reflexivity|]; split; [exact Hs|].
    intros t; split; [auto|]; intros [H|(a & [] & _)]; exact H.
  - destruct (Hbody a s (or_introl eq_refl) Hs) as (s1 & E1 & H1 & K1).
    destruct (IH (fun b s0 Hb => Hbody b s0 (or_intror Hb)) s1 H1) as (s2 & E2 & H2 & K2).
    exists s2; cbn [for_each bind]; rewrite E1; cbn [bind].
    split; [exact E2|]; split; [exact H2|].
    intros t; rewrite K2, K1; split.
    + intros [[H|H]|(b & Hb & H)]; [left; exact H|right; exists a; simpl; auto|].
      right; exists b; simpl; auto.
    + intros [H|(b & [<-|Hb] & H)]; [left; left; exact H|left; right; exact H|].
      right; exists b; auto.
Qed.

(** Lines 32-37: one symbol. *)
Lemma add_terminal_step (nts : list str) (c : ascii) (ts : list str) :
  terminal_list ts ->
  exists ts',
    add_terminal nts c ts = Done ts' /\ terminal_list ts' /\
    (forall t, In t ts' <-> In t ts \/ (listed nts c /\ t = terminal_of c)).
Proof.
  intros [Hnd Hi]; unfold add_terminal, listed, terminal_of.
  assert (Hd : eqb_str [c] "d" = true <-> c = "d"%char).
  { rewrite eqb_str_eq; change (py "d") with ["d"%char]; split; congruence. }
  assert (Hid : ("id" : str) <> ("i" : str)) by discriminate.
  destruct (mem [c] ts) eqn:Ets; cbn [negb andb].
  { exists ts; split; [reflexivity|]; split; [split; assumption|].
    intros t; split; [auto|]; intros [H|[_ ->]]; [exact H|].
    apply mem_In in Ets.
    destruct (eqb_str_spec [c] "i") as [Ei|Ei]; [|exact Ets].
    rewrite Ei in Ets; contradiction. }
  apply mem_not_In in Ets.
  destruct (eqb_str [c] "d") eqn:Ed; cbn [negb andb].
  { exists ts; split; [reflexivity|]; split; [split; assumption|].
    intros t; split; [auto|]; intros [H|[[Hc _] _]]; [exact H|].
    exfalso; apply Hc, Hd; reflexivity. }
  assert (Hc : c <> "d"%char) by (intros H; apply Hd in H; congruence).
  destruct (mem [c] nts) eqn:En; cbn [negb andb].
  { exists ts; split; [reflexivity|]; split; [split; assumption|].
    intros t; split; [auto|]; intros [H|[[_ H] _]]; [exact H|discriminate]. }
  destruct (eqb_str_spec [c] "i") as [Ei|Ei].
  - destruct (mem ("id" : str) ts) eqn:Eid; cbn [negb].
    + exists ts; split; [reflexivity|]; split; [split; assumption|].
      apply mem_In in Eid.
      intros t; split; [auto|]; intros [H|[_ ->]]; assumption.
    + apply mem_not_In in Eid.
      exists (ts ++ [("id" : str)]); split; [reflexivity|]; split.
      * split; [apply NoDup_snoc; assumption|].
        rewrite In_snoc; intros [H|H]; [contradiction|congruence].
      * intros t; rewrite In_snoc; split.
        -- intros [H | ->]; [left; exact H|right; auto].
        -- intros [H|[_ ->]]; [left; exact H|right; reflexivity].
  - exists (ts ++ [[c]]); split; [reflexivity|]; split.
    + split; [apply NoDup_snoc; assumption|].
      rewrite In_snoc; intros [H|H]; [contradiction|congruence].
    + intros t; rewrite In_snoc; split.
      * intros [H | ->]; [left; exact H|right; auto].
      * intros [H|[_ ->]]; [left; exact H|right; reflexivity].
Qed.

(** Lines 29-37: the list before [$] is appended. *)
Lemma terminals_loop (g : grammar) (nts : list str) :
  exists ts,
    for_each (keys g)
      (fun rule terminals =>
         body <- getitem g rule ;;
         for_each body (add_terminal nts) terminals) [] = Done ts /\
    terminal_list ts /\
    (forall t, In t ts <->
               exists c, occurs g c /\ listed nts c /\ t = terminal_of c).
Proof.
  destruct (for_each_collect terminal_list
              (fun rule t => exists body c, getitem g rule = Done body /\ In c body
                                            /\ listed nts c /\ t = terminal_of c)
              (fun rule terminals =>
                 body <- getitem g rule ;;
                 for_each body (add_terminal nts) terminals) (keys g))
    with (s := @nil str) as (ts & E & H & K).
  - intros rule s Hrule Hs.
    destruct (getitem_In g rule Hrule) as (body & Eb); rewrite Eb; cbn [bind].
    destruct (for_each_collect terminal_list
                (fun c t => listed nts c /\ t = terminal_of c)
                (add_terminal nts) body) with (s := s) as (s' & E' & H' & K').
    + intros c s0 _ Hs0; apply add_terminal_step; exact Hs0.
    + exact Hs.
    + exists s'; split; [exact E'|]; split; [exact H'|].
      intros t; rewrite K'; split.
      * intros [Ht|(c & Hc & Hl & ->)]; [left; exact Ht|].
        right; exists body, c; auto.
      * intros [Ht|(body' & c & Eb' & Hc & Hl & ->)]; [left; exact Ht|].
        right; exists c; injection Eb' as <-; auto.
  - split; [constructor|intros []].
  - exists ts; split; [exact E|]; split; [exact H|].
    intros t; rewrite K; split.
    + intros [[]|(rule & Hrule & body & c & Eb & Hc & Hl & ->)].
      exists c; split; [exists rule, body; auto|auto].
    + intros (c & (k & body & Eb & Hc) & Hl & ->).
      right; exists k; split; [apply (getitem_Done_key g k body Eb)|].
      exists body, c; auto.
Qed.

Lemma get_terminals_Done (g : grammar) (nts : list str) :
  exists ts,
    get_terminals g nts = Done (ts ++ [("$" : str)]) /\
    terminal_list ts /\
    (forall t, In t ts <->
               exists c, occurs g c /\ listed nts c /\ t = terminal_of c).
Proof.
  destruct (terminals_loop g nts) as (ts & E & H & K).
  exists ts; unfold get_terminals; rewrite E; cbn [bind]; auto.
Qed.

Lemma terminal_of_char (c c' : ascii) : [c] = terminal_of c' -> c = c' /\ c <> "i"%char.
Proof.
  unfold terminal_of; destruct (eqb_str_spec [c'] "i") as [E|E].
  - change (py "id") with ["i"%char; "d"%char]; discriminate.
  - intros [= ->]; split; [reflexivity|].
    intros ->; apply E; reflexivity.
Qed.

(** X3.  [get_terminals] never raises.  The list that it returns ends
    with [$]; the entries before it are pairwise distinct, none of them
    is [d] or [i], and none of them is a character that is a
    nonterminal. *)
Theorem get_terminals_shape (gramer : grammar) (none_terminals : list str) :
  exists ts,
    get_terminals gramer none_terminals = Done (ts ++ [("$" : str)]) /\
    NoDup ts /\
    ~ In ("d" : str) ts /\ ~ In ("i" : str) ts /\
    (forall c, In [c] ts -> mem [c] none_terminals = false).
Proof.
  destruct (get_terminals_Done gramer none_terminals) as (ts & E & [Hnd Hi] & K).
  exists ts; split; [exact E|]; split; [exact Hnd|]; split; [|split; [exact Hi|]].
  - intros H; apply K in H; destruct H as (c & _ & [Hc _] & H).
    change (py "d") with ["d"%char] in H.
    apply terminal_of_char in H as [H _]; apply Hc; symmetry; exact H.
  - intros c H; apply K in H; destruct H as (c' & _ & [_ Hn] & H).
    apply terminal_of_char in H as [-> _]; exact Hn.
Qed.

(** X4.  The entries of the terminal list before [$] are exactly the
    entries of the characters that occur in a production, are not [d]
    and are not nonterminals, where the entry of the character [i] is
    [id] and that of any other character is the character itself. *)
Theorem get_terminals_membership (gramer : grammar) (none_terminals : list str) :
  exists ts,
    get_terminals gramer none_terminals = Done (ts ++ [("$" : str)]) /\
    forall t, In t ts <->
              exists c, occurs gramer c /\ c <> "d"%char
                        /\ mem [c] none_terminals = false /\ t = terminal_of c.
Proof.
  destruct (get_terminals_Done gramer none_terminals) as (ts & E & _ & K).
  exists ts; split; [exact E|].
  intros t; rewrite K; unfold listed; split; intros (c & H1 & H2); exists c; tauto.
Qed.

(** ** What [correction] deletes *)

Lemma subseq_refl {A : Type} (l : list A) : subseq l l.
Proof. induction l; constructor; assumption. Qed.

Lemma subseq_trans {A : Type} (l1 l2 l3 : list A) :
  subseq l1 l2 -> subseq l2 l3 -> subseq l1 l3.
Proof.
  intros H12 H23; revert l1 H12.
  induction H23 as [|x l2 l3 H IH|x l2 l3 H IH]; intros l1 H12.
  - exact H12.
  - constructor; apply IH, H12.
  - inversion H12; subst; constructor; apply IH; assumption.
Qed.

Lemma subseq_filter {A : Type} (f : A -> bool) (l : list A) : subseq (filter f l) l.
Proof.
  induction l as [|a l IH]; simpl; [constructor|].
  destruct (f a); constructor; exact IH.
Qed.

Lemma subseq_map {A B : Type} (f : A -> B) (l1 l2 : list A) :
  subseq l1 l2 -> subseq (map f l1) (map f l2).
Proof. induction 1; simpl; constructor; assumption. Qed.

Lemma replace_scan_subseq (old s : str) :
  forall skip, subseq (replace_scan old [] skip s) s.
Proof.
  induction s as [|c s IH]; intros skip; simpl; [constructor|].
  destruct skip; [|constructor; apply IH].
  destruct (prefixb old (c :: s)); simpl; constructor; apply IH.
Qed.

Lemma replace_subseq (w old : str) : subseq (replace w old "") w.
Proof.
  unfold replace; destruct old as [|x old].
  - change (py "") with (@nil ascii); simpl.
    induction w; simpl; constructor; assumption.
  - apply replace_scan_subseq.
Qed.

Lemma shrunk_setitem (g s : grammar) (k w w' : str) :
  shrunk g s -> getitem s k = Done w -> subseq w' w -> shrunk g (setitem s k w').
Proof.
  intros H E Hw k0 v'; destruct (eqb_str_spec k k0) as [<-|Hk].
  - rewrite getitem_setitem_same; intros [= <-].
    destruct (H k w E) as (v & Ev & Hv); exists v; split; [exact Ev|].
    apply (subseq_trans _ w); assumption.
  - rewrite getitem_setitem_other by exact Hk; apply H.
Qed.

Lemma erase_symbol_shrunk (g : grammar) (r dr : str) (s s' : grammar) :
  shrunk g s -> erase_symbol r dr s = Done s' -> shrunk g s'.
Proof.
  unfold erase_symbol; intros H E.
  apply bind_Done in E as (w & Ew & E).
  destruct (contains r w); injection E as <-; [|exact H].
  apply (shrunk_setitem g s dr w); [exact H|exact Ew|apply replace_subseq].
Qed.

Lemma erase_epsilon_shrunk (g : grammar) (r : str) (s s' : grammar) :
  shrunk g s -> erase_epsilon r s = Done s' -> shrunk g s'.
Proof.
  unfold erase_epsilon; intros H E.
  apply bind_Done in E as (v & Ev & E).
  destruct (eqb_str v "ep"); [|injection E as <-; exact H].
  revert E; apply for_each_inv; [|exact H].
  intros dr s0 s1 _; apply erase_symbol_shrunk.
Qed.

Lemma correction_shrinks (g : grammar) :
  is_dict g ->
  exists g',
    correction g = Done g' /\ is_dict g' /\ no_epsilon g' /\
    subseq (keys g') (keys g) /\ shrunk g g'.
Proof.
  intros Hd; destruct (correction_Done g Hd) as (g1 & E1 & Hk & E).
  destruct (correction_no_epsilon g _ Hd E) as [Hd' He'].
  exists (filter keepb g1); split; [exact E|]; split; [exact Hd'|]; split; [exact He'|].
  split.
  - rewrite <- Hk; apply subseq_map, subseq_filter.
  - assert (H1 : shrunk g g1).
    { revert E1; apply for_each_inv.
      - intros r s s' _; apply erase_epsilon_shrunk.
      - intros k v' Ev; exists v'; split; [exact Ev|apply subseq_refl]. }
    intros k v' Ev; apply H1.
    apply In_getitem; [unfold is_dict; rewrite Hk; exact Hd|].
    apply getitem_Done_In in Ev; apply filter_In in Ev; tauto.
Qed.

(** X2.  On a dictionary [correction] never raises, and it only
    deletes: the grammar that it returns has pairwise distinct
    nonterminals, which are nonterminals of the argument in the order
    of the argument, no production in it is the epsilon marker, and
    every production in it is the production that the argument has for
    the same nonterminal with some characters deleted. *)
Theorem correction_only_deletes (geramer : grammar) (Hdict : is_dict geramer) :
  exists corrected_geramer,
    correction geramer = Done corrected_geramer /\
    is_dict corrected_geramer /\ no_epsilon corrected_geramer /\
    subseq (keys corrected_geramer) (keys geramer) /\
    (forall r v', getitem corrected_geramer r = Done v' ->
       exists v, getitem geramer r = Done v /\ subseq v' v).
Proof. apply correction_shrinks, Hdict. Qed.

(** The grammar S -> Ab, A -> ep is a dictionary. *)
Lemma correction_only_deletes_witness :
  exists corrected_geramer,
    correction epsilon_grammar = Done corrected_geramer /\
    is_dict corrected_geramer /\ no_epsilon corrected_geramer /\
    subseq (keys corrected_geramer) (keys epsilon_grammar) /\
    (forall r v', getitem corrected_geramer r = Done v' ->
       exists v, getitem epsilon_grammar r = Done v /\ subseq v' v).
Proof.
  apply (correction_only_deletes epsilon_grammar).
  apply is_dict_check; reflexivity.
Defined.

(** ** FIRST along leading nonterminals *)

Lemma store_loop_keys {V : Type} (F : str -> outcome V) (l : list str) :
  forall d d',
  for_each l (fun t d => v <- F t ;; Done (setitem d t v)) d = Done d' ->
  NoDup l -> (forall k, In k l -> ~ In k (keys d)) ->
  keys d' = keys d ++ l.
Proof.
  induction l as [|t l IH]; intros d d' E Hnd Hnew.
  - injection E as <-; rewrite app_nil_r; reflexivity.
  - cbn [for_each] in E; apply bind_Done in E as (d1 & E1 & E).
    apply bind_Done in E1 as (v & _ & E1); injection E1 as <-.
    inversion Hnd as [|? ? Ht Hl]; subst.
    rewrite (IH _ _ E Hl).
    + rewrite keys_setitem_new by (apply Hnew; left; reflexivity).
      unfold keys; rewrite map_app, <- app_assoc; reflexivity.
    + intros k Hk; rewrite In_keys_setitem; intros [->|H]; [contradiction|].
      apply (Hnew k); [right; exact Hk|exact H].
Qed.

Lemma firsts_keys (fuel : nat) (g : grammar) (nts : list str) (fd : dict str) :
  is_dict g -> firsts fuel g nts = Done fd -> keys fd = keys g.
Proof.
  intros Hd E; rewrite firsts_store in E.
  apply store_loop_keys in E; [exact E|exact Hd|intros k _ []].
Qed.

(** A production that begins with the characters [i], [d]. *)
Lemma slice02_id (body : str) :
  eqb_str (slice02 body) "id" = true ->
  exists rest, body = "i"%char :: "d"%char :: rest.
Proof.
  intros E; apply eqb_str_eq in E; change (py "id") with ["i"%char; "d"%char] in E.
  destruct body as [|x [|y body]]; try discriminate.
  cbn in E; injection E as -> ->; eauto.
Qed.

(** The walk that starts at [b] assigns what the loop body assigns to
    [b] itself. *)
Lemma chain_first_value (fuel : nat) (g : grammar) (nts : list str) (b v v' : str) :
  mem ("i" : str) nts = false ->
  chain fuel g nts b = Done v -> first_value fuel g nts b = Done v' -> v' = v.
Proof.
  intros Hi Hc Hf; destruct fuel as [|fuel]; [discriminate|].
  cbn [chain] in Hc; unfold first_value in Hf.
  destruct (getitem g b) as [body| |]; cbn [bind] in *; try discriminate.
  destruct (eqb_str (slice02 body) "id") eqn:Eid.
  - destruct (slice02_id body Eid) as (rest & ->).
    unfold char_at in Hc; cbn [nth_error bind] in Hc.
    change ["i"%char] with (py "i") in Hc; rewrite Hi in Hc; cbn [negb] in Hc.
    congruence.
  - destruct (char_at body 0) as [c| |]; cbn [bind] in *; try discriminate.
    destruct (mem c nts); cbn [negb] in *; [|congruence].
    apply (chain_mono g nts fuel (S fuel)) in Hc; [congruence|lia].
Qed.

Lemma firsts_link (fuel : nat) (g : grammar) (nts : list str) (fd : dict str) (a b : str) :
  firsts fuel g nts = Done fd -> mem ("i" : str) nts = false ->
  In a (keys g) -> link g nts a = Some b ->
  exists v, getitem fd a = Done v /\ getitem fd b = Done v.
Proof.
  intros E Hi Ha Hl.
  destruct (firsts_Done fuel g nts fd E a Ha) as (v & body & Hv & Hfa & Hb & _).
  destruct (link_Some g nts a b Hl) as (x & rest & -> & Hba & Hx).
  exists v; split; [exact Hfa|].
  unfold first_value in Hv; rewrite Hba in Hv; cbn [bind] in Hv.
  destruct (eqb_str (slice02 (x :: rest)) "id") eqn:Eid.
  { destruct (slice02_id _ Eid) as (rest' & [= -> _]).
    change ["i"%char] with (py "i") in Hx; congruence. }
  unfold char_at in Hv; cbn [nth_error bind] in Hv; rewrite Hx in Hv.
  assert (Hin : In [x] (keys g)).
  { destruct fuel as [|fuel]; [discriminate|]. cbn [chain] in Hv.
    destruct (getitem g [x]) as [bb| |] eqn:Eb; try discriminate.
    apply (getitem_Done_key g [x] bb Eb). }
  destruct (firsts_Done fuel g nts fd E [x] Hin) as (v' & _ & Hv' & Hfb & _).
  rewrite Hfb; f_equal; apply (chain_first_value fuel g nts [x]); assumption.
Qed.

(** X6.  When [firsts] has returned on a dictionary and [i] is not a
    nonterminal, the FIRST dictionary has the nonterminals of the
    grammar in their order, and a nonterminal whose production begins
    with a nonterminal has the FIRST value of that nonterminal. *)
Theorem firsts_inherits (fuel : nat) (gramer : grammar) (none_terminals : list str)
  (firsts_dict : dict str)
  (Hdict : is_dict gramer)
  (Hfirst : firsts fuel gramer none_terminals = Done firsts_dict)
  (Hi : mem ("i" : str) none_terminals = false) :
  keys firsts_dict = keys gramer /\
  forall a b, In a (keys gramer) -> link gramer none_terminals a = Some b ->
    exists v, getitem firsts_dict a = Done v /\ getitem firsts_dict b = Done v.
Proof.
  split; [apply (firsts_keys fuel gramer none_terminals); assumption|].
  intros a b; apply (firsts_link fuel); assumption.
Qed.

(** The grammar S -> Ab, A -> Bc, B -> id. *)
Lemma firsts_inherits_witness :
  keys chain_first = keys chain_grammar /\
  forall a b, In a (keys chain_grammar) ->
    link chain_grammar (keys chain_grammar) a = Some b ->
    exists v, getitem chain_first a = Done v /\ getitem chain_first b = Done v.
Proof.
  apply (firsts_inherits 3 chain_grammar (keys chain_grammar) chain_first).
  - apply is_dict_check; reflexivity.
  - reflexivity.
  - reflexivity.
Defined.

(** ** FOLLOW of a nonterminal that no production uses *)

Ltac split_run E :=
  repeat match type of E with
         | bind ?c _ = Done _ =>
             let x := fresh "x" in
             let Ex := fresh "Ex" in
             apply bind_Done in E as (x & Ex & E)
         | (if ?b then _ else _) = Done _ => destruct b
         | Done _ = Done _ => injection E as <-
         end.

Lemma follow_after_other (g : grammar) (fd : dict str) (nts : list str)
  (rule n : str) (i : nat) (d d' : dict str) (a : str) :
  follow_after g fd nts rule n i d = Done d' -> n <> a ->
  getitem d' a = getitem d a.
Proof.
  unfold follow_after; intros E Hn.
  split_run E; try reflexivity; apply getitem_setitem_other; exact Hn.
Qed.

Lemma rule3_symbol_other (target : str) (c : ascii) (d d' : dict str) (a : str) :
  rule3_symbol target c d = Done d' -> target <> a ->
  getitem d' a = getitem d a.
Proof.
  unfold rule3_symbol; intros E Hn.
  split_run E; try reflexivity; apply getitem_setitem_other; exact Hn.
Qed.

Lemma last_in {A : Type} (l : list A) (c : A) : In (last l c) (c :: l).
Proof.
  revert c; induction l as [|x l IH]; intros c; [left; reflexivity|].
  rewrite last_cons; right; apply IH.
Qed.

Section Unreferenced.

Variables (g : grammar) (fd : dict str) (nts : list str) (a : str).
Hypothesis Ha : unreferenced g a.

Lemma rule2_other (rule : str) (d d' : dict str) :
  rule2 g fd nts rule d = Done d' -> getitem d' a = getitem d a.
Proof.
  unfold rule2; intros E; apply bind_Done in E as (body & Eb & E).
  revert E; apply (for_each_inv (fun s => getitem s a = getitem d a)); [|reflexivity].
  intros c; intros s s' Hc Hs E; rewrite <- Hs; clear Hs.
  unfold rule2_symbol in E; destruct (mem [c] nts); [|injection E as <-; reflexivity].
  rewrite Eb in E; cbn [bind] in E; apply bind_Done in E as (st & E & E').
  injection E' as <-.
  revert E; apply (for_each_inv (fun st => getitem (fst (fst st)) a = getitem s a));
    [|reflexivity].
  intros n [[d0 l0] i0] [[d1 l1] i1] _ H0 E; cbn [fst] in *; rewrite <- H0; clear H0.
  unfold occurrence_round in E; rewrite Eb in E; cbn [bind] in E.
  apply bind_Done in E as (indx & _ & E); apply bind_Done in E as (d2 & E & E').
  injection E' as <- _ _.
  revert E; apply (for_each_inv (fun s0 => getitem s0 a = getitem d0 a)); [|reflexivity].
  intros j s0 s1 _ H0 E; rewrite <- H0.
  apply (follow_after_other _ _ _ _ _ _ _ _ _ E).
  intros H; apply (Ha c); [exists rule, body; auto|auto].
Qed.

Lemma rule3_other (rule : str) (d d' : dict str) :
  rule3 g nts rule d = Done d' -> getitem d' a = getitem d a.
Proof.
  unfold rule3; intros E; apply bind_Done in E as (body & Eb & E).
  apply bind_Done in E as (l & El & E).
  destruct (mem l nts); [|injection E as <-; reflexivity].
  apply bind_Done in E as (src & _ & E).
  revert E; apply (for_each_inv (fun s => getitem s a = getitem d a)); [|reflexivity].
  intros c s s' _ Hs E; rewrite <- Hs.
  apply (rule3_symbol_other _ _ _ _ _ E).
  unfold last_char in El; destruct body as [|x body]; [discriminate|].
  injection El as <-; intros H; apply (Ha (last body x)); [|auto].
  exists rule, (x :: body); split; [exact Eb|apply last_in].
Qed.

Lemma follows_init_empty (d : dict str) (k v : str) :
  follows_init g = Done d -> getitem d k = Done v -> v = "".
Proof.
  unfold follows_init; intros E; revert k v.
  revert E; apply (for_each_inv (fun s : dict str =>
                               forall k v, getitem s k = Done v -> v = ("" : str)));
    [|discriminate].
  intros r s s' _ Hs E k v; injection E as <-.
  destruct (eqb_str_spec r k) as [->|Hk].
  - rewrite getitem_setitem_same; congruence.
  - rewrite getitem_setitem_other by exact Hk; apply Hs.
Qed.

(** Rules 2 and 3 record nothing for [a]. *)
Lemma follows_rule3_other (d3 : dict str) (s : str) :
  follows_rule3 g fd nts = Done d3 -> getitem d3 a = Done s -> s = "".
Proof.
  unfold follows_rule3, follows_rule2; intros E Hs.
  apply bind_Done in E as (d2 & E2 & E3); apply bind_Done in E2 as (d1 & E1 & E2).
  apply (follows_init_empty d1 a s E1).
  rewrite <- Hs.
  transitivity (getitem d2 a).
  - symmetry; revert E2.
    apply (for_each_inv (fun s0 => getitem s0 a = getitem d1 a)); [|reflexivity].
    intros rule s0 s1 _ H0 E; rewrite <- H0; apply (rule2_other rule _ _ E).
  - symmetry; revert E3.
    apply (for_each_inv (fun s0 => getitem s0 a = getitem d2 a)); [|reflexivity].
    intros rule s0 s1 _ H0 E; rewrite <- H0; apply (rule3_other rule _ _ E).
Qed.

End Unreferenced.

Lemma unreferenced_follow (fuel : nat) (g : grammar) (fd : dict str) (a : str) :
  firsts fuel g (keys g) = Done fd -> In a (keys g) -> unreferenced g a ->
  exists fo, follows fd g fd (keys g) = Done fo /\ getitem fo a = Done ("$" : str).
Proof.
  intros Hfirst Hin Ha.
  destruct (follows_rule3_ok fuel g fd Hfirst) as (d3 & E3 & Hd3 & Hk3 & _).
  destruct (follows_from_rule3 fd g fd (keys g) d3 E3 Hd3) as (fo & E & H).
  exists fo; split; [exact E|].
  destruct (getitem_In d3 a (Hk3 a Hin)) as (s & Es).
  rewrite (H a s Es).
  rewrite (follows_rule3_other g fd (keys g) a Ha d3 s E3 Es); reflexivity.
Qed.

(** X8.  When [firsts] has returned, the FOLLOW string of a nonterminal
    that occurs in no production, such as a start symbol that no
    production refers to or a nonterminal whose name has more than one
    character, is the string [$]. *)
Theorem follows_unreferenced (fuel : nat) (gramer : grammar) (fd : dict str)
  (Hfirst : firsts fuel gramer (get_none_terminals gramer) = Done fd) :
  exists follows_dict,
    follows fd gramer fd (get_none_terminals gramer) = Done follows_dict /\
    forall a, In a (get_none_terminals gramer) -> unreferenced gramer a ->
      getitem follows_dict a = Done ("$" : str).
Proof.
  destruct (follows_finished fuel gramer fd Hfirst) as (fo & E & _).
  exists fo; split; [exact E|]; intros a Hin Ha.
  destruct (unreferenced_follow fuel gramer fd a Hfirst Hin Ha) as (fo' & E' & H).
  unfold get_none_terminals in *; congruence.
Qed.

(** The example grammar, in which no production uses S. *)
Lemma follows_unreferenced_witness :
  exists follows_dict,
    follows example_first example_grammar example_first
      (get_none_terminals example_grammar) = Done follows_dict /\
    forall a, In a (get_none_terminals example_grammar) ->
      unreferenced example_grammar a ->
      getitem follows_dict a = Done ("$" : str).
Proof.
  apply (follows_unreferenced 4 example_grammar example_first); reflexivity.
Defined.

(** ** The shape of the table *)

(** X9.  When every nonterminal has a FIRST entry and a production,
    the table of [creat_chart] has one row more than there are
    nonterminals and, in every row, one column more than there are
    terminals; its first row is the blank string followed by the
    terminals, and the row of a nonterminal begins with the
    nonterminal. *)
Theorem creat_chart_shape (gramer : grammar) (firsts follows : dict str)
  (none_terminals terminals : list str)
  (Hfirst : all_in none_terminals firsts = true)
  (Hrule : all_in none_terminals gramer = true) :
  exists chart,
    creat_chart gramer firsts follows none_terminals terminals = Done chart /\
    length chart = length none_terminals + 1 /\
    (forall row, In row chart -> length row = length terminals + 1) /\
    item chart 0 = Done ((" " : str) :: terminals) /\
    (forall i a, nth_error none_terminals i = Some a ->
       get_cell chart (i + 1) 0 = Done a).
Proof.
  assert (defined : forall a, In a none_terminals ->
            exists f body, getitem firsts a = Done f /\ getitem gramer a = Done body).
  { intros a Ha.
    destruct (all_in_getitem _ _ a Hfirst Ha) as (f & Hf).
    destruct (all_in_getitem _ _ a Hrule Ha) as (body & Hb); eauto. }
  exists (header_row terminals
            :: map (full_row gramer firsts terminals) none_terminals).
  split; [apply creat_chart_Done, defined|].
  split; [cbn [length]; rewrite length_map; lia|].
  split; [|split; [reflexivity|]].
  - intros row [<-|H]; [cbn [header_row length]; lia|].
    apply in_map_iff in H as (a & <- & _).
    unfold full_row; cbn [length]; rewrite length_map; lia.
  - intros i a Ha; unfold get_cell, item.
    rewrite Nat.add_1_r; cbn [nth_error].
    rewrite (nth_error_map (full_row gramer firsts terminals)), Ha; reflexivity.
Qed.

(** The table of the example grammar. *)
Lemma creat_chart_shape_witness :
  exists chart,
    creat_chart example_grammar example_first [] (keys example_grammar)
      example_terminals = Done chart /\
    length chart = length (keys example_grammar) + 1 /\
    (forall row, In row chart -> length row = length example_terminals + 1) /\
    item chart 0 = Done ((" " : str) :: example_terminals) /\
    (forall i a, nth_error (keys example_grammar) i = Some a ->
       get_cell chart (i + 1) 0 = Done a).
Proof.
  apply (creat_chart_shape example_grammar example_first [] (keys example_grammar)
           example_terminals); reflexivity.
Defined.

(** ** The script up to the table *)

Lemma firsts_Raised (fuel : nat) (g : grammar) (e : exn) :
  firsts fuel g (keys g) = Raised e -> e = IndexError.
Proof.
  rewrite firsts_store; intros E.
  apply for_each_Raised in E as (a & s & Ha & E).
  destruct (first_value fuel g (keys g) a) as [v|e'|] eqn:Ev; try discriminate.
  injection E as <-; apply (first_value_raises g fuel a e' Ha Ev).
Qed.

(** After [firsts] nothing fails. *)
Lemma analyse_after_firsts (fuel : nat) (g : grammar) (fd : dict str) :
  firsts fuel g (keys g) = Done fd ->
  exists fo ts ch,
    follows fd g fd (keys g) = Done fo /\
    get_terminals g (keys g) = Done ts /\
    creat_chart g fd fo (keys g) ts = Done ch.
Proof.
  intros Hfirst.
  destruct (follows_finished fuel g fd Hfirst) as (fo & Efo & _).
  destruct (get_terminals_Done g (keys g)) as (ts & Ets & _).
  exists fo, (ts ++ [("$" : str)]), (header_row (ts ++ [("$" : str)])
             :: map (full_row g fd (ts ++ [("$" : str)])) (keys g)).
  split; [exact Efo|]; split; [exact Ets|].
  apply creat_chart_Done.
  intros a Ha; destruct (firsts_Done fuel g (keys g) fd Hfirst a Ha)
    as (v & body & _ & Hv & Hb & _); eauto.
Qed.

Lemma analyse_fails_in_firsts (raw : grammar) :
  is_dict raw ->
  exists g,
    correction raw = Done g /\
    forall fuel,
      match firsts fuel g (get_none_terminals g) with
      | Done fd => exists a, analyse fuel raw = Done a /\ Gramer a = g /\ first a = fd
      | Raised e => e = IndexError /\ analyse fuel raw = Raised IndexError
      | OutOfFuel => analyse fuel raw = OutOfFuel
      end.
Proof.
  intros Hdict; destruct (correction_Done raw Hdict) as (g1 & _ & _ & E).
  exists (filter keepb g1); split; [exact E|]; intros fuel.
  unfold analyse, get_none_terminals; rewrite E; cbn [bind].
  destruct (firsts fuel (filter keepb g1) (keys (filter keepb g1))) as [fd|e|] eqn:Ef;
    cbn [bind].
  - destruct (analyse_after_firsts fuel _ fd Ef) as (fo & ts & ch & Efo & Ets & Ech).
    rewrite Efo; cbn [bind]; rewrite Ets; cbn [bind]; rewrite Ech; cbn [bind].
    eexists; split; [reflexivity|]; split; reflexivity.
  - rewrite (firsts_Raised fuel _ e Ef); split; reflexivity.
  - reflexivity.
Qed.

(** X11.  On the grammar that [get_gramer] has read, the script can
    fail before the table is built in [firsts] only: [correction]
    returns a grammar; when [firsts] returns on it, so do [follows],
    [get_terminals] and [creat_chart]; when [firsts] raises, the
    exception is [IndexError]; and otherwise [firsts] does not leave
    its [while] loop. *)
Theorem script_fails_only_in_firsts (rules_number : nat) (lines rest : list str)
  (raw : grammar)
  (Hread : get_gramer rules_number lines = Some (raw, rest)) :
  exists g,
    correction raw = Done g /\
    forall fuel,
      match firsts fuel g (get_none_terminals g) with
      | Done fd => exists a, analyse fuel raw = Done a /\ Gramer a = g /\ first a = fd
      | Raised e => e = IndexError /\ analyse fuel raw = Raised IndexError
      | OutOfFuel => analyse fuel raw = OutOfFuel
      end.
Proof.
  destruct (get_gramer_Some rules_number lines raw rest Hread) as (pairs & _ & _ & Hd & _).
  apply analyse_fails_in_firsts, Hd.
Qed.

(** The example grammar, entered line by line. *)
Lemma script_fails_only_in_firsts_witness :
  exists g,
    correction example_grammar = Done g /\
    forall fuel,
      match firsts fuel g (get_none_terminals g) with
      | Done fd => exists a, analyse fuel example_grammar = Done a
                             /\ Gramer a = g /\ first a = fd
      | Raised e => e = IndexError /\ analyse fuel example_grammar = Raised IndexError
      | OutOfFuel => analyse fuel example_grammar = OutOfFuel
      end.
Proof.
  apply (script_fails_only_in_firsts 4
           ["S" : str; "aBb" : str; "B" : str; "+C" : str;
            "C" : str; "(D)" : str; "D" : str; "id" : str] []).
  reflexivity.
Defined.

(** ** The rounds of [parse] *)

Lemma index_of_not_In (x : str) (l : list str) :
  ~ In x l -> index_of x l = Raised ValueError.
Proof.
  induction l as [|y l IH]; intros H; [reflexivity|].
  cbn [index_of]; destruct (eqb_str_spec y x) as [->|Hyx].
  - exfalso; apply H; left; reflexivity.
  - rewrite IH; [reflexivity|]. intros K; apply H; right; exact K.
Qed.

(** A round that returns leaves the variables as they are, and it
    accepts only with [$] on top of the stack. *)
Lemma parse_step_Return (string : list str) (chart : table) (nts ts : list str)
  (cf cf' : config) (e : exit) :
  parse_step string chart nts ts cf = Done (Return e cf') ->
  cf' = cf /\ (e = Stack_at_dollar -> exists rest, stack cf = ("$" : str) :: rest).
Proof.
  unfold parse_step; intros H.
  destruct (stack cf) as [|top rest]; [discriminate|]; cbn [item nth_error bind] in H.
  destruct (eqb_str_spec top "$") as [->|Hd].
  { injection H as <- <-; split; [reflexivity|]; intros _; exists rest; reflexivity. }
  destruct (mem top nts).
  - destruct (index_of top nts) as [r| |]; cbn [bind] in H; try discriminate.
    destruct (item chart (r + 1)) as [row| |]; cbn [bind] in H; try discriminate.
    destruct (index_of (pointer cf) ts) as [c| |]; cbn [bind] in H; try discriminate.
    destruct (item row (c + 1)) as [cell| |]; cbn [bind] in H; try discriminate.
    destruct (eqb_str cell ""); [|discriminate].
    injection H as <- <-; split; [reflexivity|intros [=]].
  - destruct (eqb_str top (pointer cf)).
    + destruct (item string (i cf + 1)); cbn [bind] in H; discriminate.
    + injection H as <- <-; split; [reflexivity|intros [=]].
Qed.

(** More rounds do not change what the loop returns or raises. *)
Lemma parse_loop_stable (string : list str) (chart : table) (nts ts : list str) (m : nat) :
  forall m' cf, parse_loop m string chart nts ts cf <> OutOfFuel -> m <= m' ->
  parse_loop m' string chart nts ts cf = parse_loop m string chart nts ts cf.
Proof.
  induction m as [|m IH]; intros m' cf; cbn [parse_loop]; [congruence|].
  intros H Hle; destruct m' as [|m']; [lia|]; cbn [parse_loop].
  destruct (parse_step string chart nts ts cf) as [[e c1|c1]| |]; cbn [bind] in *;
    try reflexivity.
  apply IH; [exact H|lia].
Qed.

Lemma parse_loop_accepts (bound : nat) (string : list str) (chart : table)
  (nts ts : list str) :
  forall cf cf',
  parse_loop bound string chart nts ts cf = Done (Stack_at_dollar, cf') ->
  exists rest, stack cf' = ("$" : str) :: rest.
Proof.
  induction bound as [|bound IH]; intros cf cf'; cbn [parse_loop]; [discriminate|].
  destruct (parse_step string chart nts ts cf) as [[e1 c1|c1]| |] eqn:Es;
    cbn [bind]; try discriminate.
  - intros [= -> <-].
    destruct (parse_step_Return _ _ _ _ _ _ _ Es) as [-> H]; apply H; reflexivity.
  - apply IH.
Qed.

Lemma accepts_next (string : list str) (chart : table) (nts ts : list str)
  (cf cf' : config) :
  parse_step string chart nts ts cf = Done (Continue cf') ->
  accepts string chart nts ts cf' -> accepts string chart nts ts cf.
Proof.
  intros Hs (k & r & Hk); exists (S k), r.
  cbn [parse_loop]; rewrite Hs; exact Hk.
Qed.

Lemma accepts_dollar (string : list str) (chart : table) (nts ts : list str)
  (cf : config) (rest : list str) :
  stack cf = ("$" : str) :: rest -> accepts string chart nts ts cf.
Proof.
  intros Hs; exists 1, cf; cbn [parse_loop]; unfold parse_step.
  rewrite Hs; reflexivity.
Qed.

Lemma tokens_next (string : str) (n : nat) (p : str) :
  item (tokens string) n = Done p -> p <> "$" ->
  exists p', item (tokens string) (n + 1) = Done p'.
Proof.
  unfold item, tokens; intros H Hp.
  destruct (nth_error (make_list string ++ [("$" : str)]) n) as [x|] eqn:E; [|discriminate].
  injection H as ->.
  destruct (Nat.lt_ge_cases n (length (make_list string))) as [Hn|Hn].
  - destruct (nth_error_Some_lt (make_list string ++ [("$" : str)]) (n + 1)) as (p' & ->);
      [rewrite length_app; simpl; lia|eauto].
  - rewrite nth_error_app2 in E by exact Hn.
    destruct (n - length (make_list string)) as [|[|k]]; simpl in E; congruence.
Qed.

Lemma item_nth (tokens : list str) (n : nat) :
  n < length tokens -> item tokens n = Done (nth n tokens []).
Proof.
  intros H; unfold item; rewrite (nth_error_nth' tokens [] H); reflexivity.
Qed.

(** The tokens that [make_list] makes of a string. *)
Lemma make_list_terminal_of (s : str) (t : str) :
  In t (make_list s) -> exists c, In c s /\ c <> "d"%char /\ t = terminal_of c.
Proof.
  induction s as [|c s IH]; [intros []|].
  cbn [make_list]; unfold terminal_of.
  destruct (eqb_str_spec [c] "d") as [Ed|Ed].
  { intros H; destruct (IH H) as (x & Hx & K); exists x; simpl; auto. }
  assert (Hc : c <> "d"%char).
  { intros ->; apply Ed; reflexivity. }
  destruct (eqb_str [c] "i") eqn:Ei.
  - intros [<-|H]; [exists c; rewrite Ei; simpl; auto|].
    destruct (IH H) as (x & Hx & K); exists x; simpl; auto.
  - intros [<-|H]; [exists c; rewrite Ei; simpl; auto|].
    destruct (IH H) as (x & Hx & K); exists x; simpl; auto.
Qed.

Lemma make_list_no_dollar (g : grammar) (k body : str) :
  no_dollar g -> getitem g k = Done body -> ~ In ("$" : str) (make_list body).
Proof.
  intros Hg Hb H; apply make_list_terminal_of in H as (c & Hc & _ & H).
  unfold terminal_of in H; destruct (eqb_str [c] "i"); [discriminate|].
  change (py "$") with ["$"%char] in H; injection H as <-.
  apply (no_dollar_In g k body Hg Hb Hc).
Qed.

Lemma make_list_cons (c : ascii) (s : str) :
  c <> "d"%char -> c <> "i"%char -> make_list (c :: s) = [c] :: make_list s.
Proof.
  intros Hd Hi; cbn [make_list].
  destruct (eqb_str_spec [c] "d") as [E|_].
  { change (py "d") with ["d"%char] in E; congruence. }
  destruct (eqb_str_spec [c] "i") as [E|_]; [|reflexivity].
  change (py "i") with ["i"%char] in E; congruence.
Qed.

Section Run.

Variables (fuel : nat) (g : grammar) (fd fo : dict str) (ts : list str) (chart : table).
Hypothesis Hfirst : firsts fuel g (keys g) = Done fd.
Hypothesis Hchart : creat_chart g fd fo (keys g) ts = Done chart.

(** What one round of the loop does, by the symbol on top of the stack
    and the token under the cursor. *)
Lemma parse_step_cases (string : list str) (cf : config) (top : str) (rest : list str) :
  stack cf = top :: rest ->
  (top = "$" /\
   parse_step string chart (keys g) ts cf = Done (Return Stack_at_dollar cf)) \/
  (top <> "$" /\ In top (keys g) /\ ~ In (pointer cf) ts /\
   parse_step string chart (keys g) ts cf = Raised ValueError) \/
  (top <> "$" /\ In top (keys g) /\ In (pointer cf) ts /\
   exists f body,
     getitem fd top = Done f /\ getitem g top = Done body /\ body <> [] /\
     parse_step string chart (keys g) ts cf
     = Done (Continue (Config (make_list (cell_of f body (pointer cf)) ++ rest)
                         (i cf) (pointer cf)))) \/
  (top <> "$" /\ ~ In top (keys g) /\ top = pointer cf /\
   parse_step string chart (keys g) ts cf
   = (p <- item string (i cf + 1) ;; Done (Continue (Config rest (i cf + 1) p)))) \/
  (top <> "$" /\ ~ In top (keys g) /\ top <> pointer cf /\
   parse_step string chart (keys g) ts cf = Done (Return Symbol_mismatch cf)).
Proof.
  intros Hs; unfold parse_step; rewrite Hs; cbn [item nth_error bind tl].
  destruct (eqb_str_spec top "$") as [Hd|Hd]; [left; auto|right].
  destruct (mem top (keys g)) eqn:Hm.
  - apply mem_In in Hm.
    destruct (index_of_In top (keys g) Hm) as (r & Er); rewrite Er; cbn [bind].
    assert (Hrow : item chart (r + 1) = Done (full_row g fd ts top)).
    { rewrite (analysed_chart fuel g fd fo ts chart Hfirst Hchart); unfold item.
      rewrite Nat.add_1_r; cbn [nth_error].
      rewrite (nth_error_map (full_row g fd ts)), (index_of_Done _ _ _ Er); reflexivity. }
    fold (item chart (r + 1)); rewrite Hrow; cbn [bind].
    destruct (in_dec (list_eq_dec ascii_dec) (pointer cf) ts) as [Hp|Hp].
    + right; left; split; [exact Hd|]; split; [exact Hm|]; split; [exact Hp|].
      destruct (index_of_In (pointer cf) ts Hp) as (c & Ec); rewrite Ec; cbn [bind].
      destruct (analysed_lookup fuel g fd fo ts chart Hfirst Hchart top (pointer cf) r c Er Ec)
        as (f & body & row & Ef & Eb & Hne & E1 & E2).
      rewrite Hrow in E1; injection E1 as <-.
      exists f, body; split; [exact Ef|]; split; [exact Eb|]; split; [exact Hne|].
      fold (item (full_row g fd ts top) (c + 1)); rewrite E2; cbn [bind].
      fold (cell_of f body (pointer cf)).
      assert (Hcell : eqb_str (cell_of f body (pointer cf)) "" = false).
      { unfold cell_of; destruct (eqb_str f (pointer cf)); [|reflexivity].
        destruct body; [contradiction | reflexivity]. }
      rewrite Hcell; reflexivity.
    + left; split; [exact Hd|]; split; [exact Hm|]; split; [exact Hp|].
      rewrite (index_of_not_In _ _ Hp); reflexivity.
  - apply mem_not_In in Hm; right; right.
    destruct (eqb_str_spec top (pointer cf)) as [Hp|Hp]; [left|right]; auto.
Qed.

Lemma parse_step_returns (string : list str) (cf : config) :
  parse_step string chart (keys g) ts cf <> OutOfFuel.
Proof.
  destruct (stack cf) as [|top rest] eqn:Hs.
  { unfold parse_step; rewrite Hs; discriminate. }
  destruct (parse_step_cases string cf _ _ Hs)
    as [[_ E]|[(_ & _ & _ & E)|[(_ & _ & _ & f & body & _ & _ & _ & E)
       |[(_ & _ & _ & E)|(_ & _ & _ & E)]]]]; rewrite E; try discriminate.
  unfold item; destruct (nth_error string (i cf + 1)); cbn [bind]; discriminate.
Qed.

Variable string : str.

(** A round keeps the cursor on the token list and [$] at the bottom of
    the stack; it raises only when the token under the cursor is not in
    the terminal list. *)
Lemma parse_step_safe (cf : config) :
  item (tokens string) (i cf) = Done (pointer cf) -> bottomed cf ->
  match parse_step (tokens string) chart (keys g) ts cf with
  | Done (Return e cf') => cf' = cf
  | Done (Continue cf') =>
      item (tokens string) (i cf') = Done (pointer cf') /\ bottomed cf'
  | Raised e => e = ValueError /\ ~ In (pointer cf) ts
  | OutOfFuel => False
  end.
Proof.
  intros Hp (pre & Hs).
  destruct pre as [|top pre]; cbn [app] in Hs.
  - destruct (parse_step_cases (tokens string) cf _ _ Hs)
      as [[_ ->]|[(H & _)|[(H & _)|[(H & _)|(H & _)]]]]; congruence.
  - destruct (parse_step_cases (tokens string) cf _ _ Hs)
      as [[_ ->]|[(_ & _ & H & ->)|[(_ & _ & _ & f & body & _ & _ & _ & ->)
         |[(Hd & _ & Ht & ->)|(_ & _ & _ & ->)]]]]; auto.
    + split; [exact Hp|].
      exists (make_list (cell_of f body (pointer cf)) ++ pre); cbn [stack].
      rewrite <- app_assoc; reflexivity.
    + assert (Hne : pointer cf <> "$") by congruence.
      destruct (tokens_next string (i cf) (pointer cf) Hp Hne) as (p' & Ep').
      rewrite Ep'; cbn [bind i pointer stack]; split; [exact Ep'|exists pre; reflexivity].
Qed.

Lemma parse_loop_safe (bound : nat) :
  forall cf,
  item (tokens string) (i cf) = Done (pointer cf) -> bottomed cf ->
  match parse_loop bound (tokens string) chart (keys g) ts cf with
  | Done (e, cf') => item (tokens string) (i cf') = Done (pointer cf') /\ bottomed cf'
  | Raised e => e = ValueError /\ exists t, In t (tokens string) /\ ~ In t ts
  | OutOfFuel => True
  end.
Proof.
  induction bound as [|bound IH]; intros cf Hp Hb; cbn [parse_loop]; [exact I|].
  pose proof (parse_step_safe cf Hp Hb) as H.
  destruct (parse_step (tokens string) chart (keys g) ts cf) as [[e cf'|cf']|e|];
    cbn [bind].
  - subst cf'; auto.
  - apply IH; tauto.
  - destruct H as [-> H]; split; [reflexivity|].
    exists (pointer cf); split; [apply (item_In _ _ _ Hp)|exact H].
  - exact I.
Qed.

Lemma parse_run_safe (bound : nat) :
  match parse_run bound string chart (keys g) ts with
  | Done (e, cf') => item (tokens string) (i cf') = Done (pointer cf') /\ bottomed cf'
  | Raised e => (g = [] /\ e = IndexError)
                \/ (e = ValueError /\ exists t, In t (tokens string) /\ ~ In t ts)
  | OutOfFuel => True
  end.
Proof.
  unfold parse_run, parse_init.
  assert (Hcase : (g = [] /\ item (keys g) 0 = Raised IndexError)
                  \/ exists k, item (keys g) 0 = Done k).
  { destruct g as [|[k v] g']; [left; auto|right; exists k; reflexivity]. }
  destruct Hcase as [[Hg ->]|(k & ->)]; [left; auto|].
  cbn [bind].
  destruct (item (tokens string) 0) as [p| |] eqn:Ep;
    [|unfold item, tokens in Ep; destruct (make_list string); discriminate..].
  cbn [bind].
  pose proof (parse_loop_safe bound (Config [k; "$" : str] 0 p) Ep
                (ex_intro _ [k] eq_refl)) as H.
  destruct (parse_loop bound (tokens string) chart (keys g) ts
              (Config [k; "$" : str] 0 p)) as [[e cf']|e|]; auto.
Qed.

End Run.

(** X12.  With the table that [creat_chart] builds once [firsts] has
    returned, [parse] raises no [KeyError], and an [IndexError] only
    for the grammar without rules, where line 151 finds no start
    symbol.  Otherwise the only exception is the [ValueError] of
    [terminals.index], and it is raised only when the input has a token
    that is not in the terminal list: the stack is never empty and the
    cursor never leaves the token list. *)
Theorem parse_raises_only_value_error (fuel : nat) (g : grammar) (fd fo : dict str)
  (ts : list str) (chart : table) (bound : nat) (string : str) (e : exn)
  (Hfirst : firsts fuel g (get_none_terminals g) = Done fd)
  (Hchart : creat_chart g fd fo (get_none_terminals g) ts = Done chart)
  (Hraise : parse bound string chart (get_none_terminals g) ts = Raised e) :
  (g = [] /\ e = IndexError)
  \/ (e = ValueError /\ exists t, In t (tokens string) /\ ~ In t ts).
Proof.
  unfold parse, get_none_terminals in *.
  pose proof (parse_run_safe fuel g fd fo ts chart Hfirst Hchart string bound) as H.
  destruct (parse_run bound string chart (keys g) ts) as [[e' cf']|e'|]; cbn [bind] in Hraise;
    try discriminate.
  injection Hraise as <-; exact H.
Qed.

(** The example grammar on the input a+(x)b, on which [parse] raises. *)
Lemma parse_raises_only_value_error_witness :
  (example_grammar = [] /\ ValueError = IndexError)
  \/ (ValueError = ValueError
      /\ exists t, In t (tokens "a+(x)b") /\ ~ In t example_terminals).
Proof.
  apply (parse_raises_only_value_error 4 example_grammar example_first []
           example_terminals example_chart 7 "a+(x)b" ValueError); reflexivity.
Defined.

(** ** What [parse] accepts is derived from the start symbol *)

Lemma derives_trans (g : grammar) (nts : list str) (x y z : list str) :
  derives g nts x y -> derives g nts y z -> derives g nts x z.
Proof.
  induction 1 as [w|u v w a body Ha Hb _ IH]; intros H; [exact H|].
  apply (derives_step g nts u v z a body Ha Hb), IH, H.
Qed.

Lemma derives_expand (g : grammar) (nts : list str) (x u v : list str) (a body : str) :
  derives g nts x (u ++ a :: v) -> mem a nts = true -> getitem g a = Done body ->
  derives g nts x (u ++ make_list body ++ v).
Proof.
  intros H Ha Hb; apply (derives_trans g nts x _ _ H).
  apply (derives_step g nts u v _ a body Ha Hb), derives_refl.
Qed.

Lemma sentence_snoc (nts : list str) (w : list str) (x : str) :
  sentence nts w -> ~ In x nts -> sentence nts (w ++ [x]).
Proof.
  unfold sentence; intros Hw Hx; rewrite forallb_app, Hw; cbn [forallb andb].
  apply mem_not_In in Hx; rewrite Hx; reflexivity.
Qed.

Section Sound.

Variables (fuel : nat) (g : grammar) (fd fo : dict str) (ts : list str) (chart : table).
Hypothesis Hfirst : firsts fuel g (keys g) = Done fd.
Hypothesis Hchart : creat_chart g fd fo (keys g) ts = Done chart.
Hypothesis Hblank : mem blank (keys g) = false.
Variable string : str.
Hypothesis Hinput : mem blank (tokens string) = false.
Variable start : str.

Lemma parse_step_derived (cf cf' : config) :
  derived g string start cf ->
  parse_step (tokens string) chart (keys g) ts cf = Done (Continue cf') ->
  derived g string start cf'.
Proof.
  intros (Hp & Hsent & [(pre & Hs & Hder & Hnd)|(rest & Hs)]) Hstep.
  - destruct pre as [|top pre]; cbn [app] in Hs.
    { destruct (parse_step_cases fuel g fd fo ts chart Hfirst Hchart (tokens string) cf _ _ Hs)
        as [[_ E]|[(H & _)|[(H & _)|[(H & _)|(H & _)]]]]; congruence. }
    destruct (parse_step_cases fuel g fd fo ts chart Hfirst Hchart (tokens string) cf _ _ Hs)
      as [[_ E]|[(_ & _ & _ & E)|[(_ & Hin & _ & f & body & _ & Hb & _ & E)
         |[(Hd & Hk & Ht & E)|(_ & _ & _ & E)]]]]; rewrite E in Hstep; try discriminate.
    + injection Hstep as <-; split; [exact Hp|]; split; [exact Hsent|]; cbn [stack i].
      unfold cell_of; destruct (eqb_str f (pointer cf)).
      * left; exists (make_list body ++ pre); split; [rewrite app_assoc; reflexivity|].
        split.
        -- apply (derives_expand g (keys g) [start] _ pre top body Hder);
             [apply mem_In, Hin|exact Hb].
        -- intros H1 H2 H; apply in_app_or in H as [H|H].
           ++ apply (make_list_no_dollar g top body H1 Hb H).
           ++ apply (Hnd H1 H2); right; exact H.
      * right; exists (pre ++ [("$" : str)]); reflexivity.
    + apply bind_Done in Hstep as (p & Ep & Hstep); injection Hstep as <-.
      split; [exact Ep|]; cbn [stack i].
      assert (Hn : nth_error (tokens string) (i cf) = Some top).
      { unfold item in Hp; destruct (nth_error (tokens string) (i cf)); congruence. }
      replace (i cf + 1) with (S (i cf)) by lia.
      rewrite (firstn_snoc _ _ _ Hn).
      split; [apply sentence_snoc; assumption|].
      left; exists pre; split; [reflexivity|].
      rewrite <- app_assoc; split; [exact Hder|].
      intros H1 H2 H; apply (Hnd H1 H2); right; exact H.
  - exfalso.
    destruct (parse_step_cases fuel g fd fo ts chart Hfirst Hchart (tokens string) cf _ _ Hs)
      as [[_ E]|[(_ & H & _)|[(_ & H & _)|[(_ & _ & Ht & _)|(_ & _ & _ & E)]]]];
      try congruence.
    + apply mem_not_In in Hblank; contradiction.
    + apply mem_not_In in Hblank; contradiction.
    + apply mem_not_In in Hinput; apply Hinput.
      rewrite Ht; apply (item_In _ _ _ Hp).
Qed.

Lemma parse_loop_derived (bound : nat) :
  forall cf e cf',
  derived g string start cf ->
  parse_loop bound (tokens string) chart (keys g) ts cf = Done (e, cf') ->
  derived g string start cf'.
Proof.
  induction bound as [|bound IH]; intros cf e cf' Hcf; cbn [parse_loop]; [discriminate|].
  destruct (parse_step (tokens string) chart (keys g) ts cf) as [[e1 c1|c1]| |] eqn:Es;
    cbn [bind]; try discriminate.
  - intros [= <- <-].
    destruct (parse_step_Return _ _ _ _ _ _ _ Es) as [-> _]; exact Hcf.
  - apply IH, (parse_step_derived cf c1 Hcf Es).
Qed.

End Sound.

Lemma parse_run_sound (fuel : nat) (g : grammar) (fd fo : dict str) (ts : list str)
  (chart : table) (string : str) (bound : nat) (cf : config) :
  firsts fuel g (keys g) = Done fd ->
  creat_chart g fd fo (keys g) ts = Done chart ->
  mem blank (keys g) = false -> mem blank (tokens string) = false ->
  parse_run bound string chart (keys g) ts = Done (Stack_at_dollar, cf) ->
  exists start pre,
    nth_error (keys g) 0 = Some start /\
    item (tokens string) (i cf) = Done (pointer cf) /\
    sentence (keys g) (firstn (i cf) (tokens string)) /\
    stack cf = pre ++ [("$" : str)] /\
    derives g (keys g) [start] (firstn (i cf) (tokens string) ++ pre) /\
    (no_dollar g -> mem ("$" : str) (keys g) = false -> pre = []).
Proof.
  intros Hfirst Hchart Hblank Hinput; unfold parse_run, parse_init, item.
  destruct (nth_error (keys g) 0) as [start|] eqn:Es; [|discriminate]; cbn [bind].
  destruct (nth_error (tokens string) 0) as [p|] eqn:Ep; [|discriminate]; cbn [bind].
  intros Hrun.
  assert (H0 : derived g string start (Config [start; "$" : str] 0 p)).
  { split; [unfold item; cbn [i pointer]; rewrite Ep; reflexivity|].
    split; [reflexivity|].
    left; exists [start]; split; [reflexivity|]; split; [apply derives_refl|].
    intros _ H [E|[]]; apply mem_not_In in H; apply H.
    rewrite <- E; apply (nth_error_In _ _ Es). }
  pose proof (parse_loop_derived fuel g fd fo ts chart Hfirst Hchart Hblank string Hinput
                start bound _ _ _ H0 Hrun) as (Hp & Hsent & H).
  destruct (parse_loop_accepts bound _ _ _ _ _ _ Hrun) as (rest & Hs).
  destruct H as [(pre & Hpre & Hder & Hnd)|(rest' & Hr)]; [|rewrite Hs in Hr; discriminate].
  exists start, pre; split; [reflexivity|]; split; [exact Hp|]; split; [exact Hsent|].
  split; [exact Hpre|]; split; [exact Hder|].
  intros H1 H2; destruct pre as [|x pre]; [reflexivity|].
  rewrite Hs in Hpre; injection Hpre as <- _.
  exfalso; apply (Hnd H1 H2); left; reflexivity.
Qed.

(** X14.  Let the table be the one that [creat_chart] builds once
    [firsts] has returned, let the blank string be no nonterminal and
    let the input hold no space.  When [parse] accepts, no token before
    the cursor is a nonterminal, and these tokens, followed by what the
    stack holds above its bottom [$], are derived from the start
    symbol, the first nonterminal of the grammar, by replacing
    nonterminals by their productions.  When moreover [$] is no
    nonterminal and occurs in no production, the stack holds nothing
    above [$]: the tokens that [parse] has consumed are a sentence of
    the grammar. *)
Theorem parse_sound (fuel : nat) (g : grammar) (fd fo : dict str) (ts : list str)
  (chart : table) (string : str) (bound : nat) (cf : config)
  (Hfirst : firsts fuel g (get_none_terminals g) = Done fd)
  (Hchart : creat_chart g fd fo (get_none_terminals g) ts = Done chart)
  (Hblank : mem (" " : str) (get_none_terminals g) = false)
  (Hinput : mem (" " : str) (tokens string) = false)
  (Hrun : parse_run bound string chart (get_none_terminals g) ts
          = Done (Stack_at_dollar, cf)) :
  exists start pre,
    nth_error (get_none_terminals g) 0 = Some start /\
    sentence (get_none_terminals g) (firstn (i cf) (tokens string)) /\
    stack cf = pre ++ [("$" : str)] /\
    derives g (get_none_terminals g) [start]
      (firstn (i cf) (tokens string) ++ pre) /\
    (no_dollar g -> mem ("$" : str) (get_none_terminals g) = false -> pre = []).
Proof.
  destruct (parse_run_sound fuel g fd fo ts chart string bound cf
              Hfirst Hchart Hblank Hinput Hrun) as (start & pre & H1 & _ & H).
  exists start, pre; split; [exact H1|exact H].
Qed.

(** The run of the example grammar on its sentence. *)
Lemma parse_sound_witness :
  exists start pre,
    nth_error (get_none_terminals example_grammar) 0 = Some start /\
    sentence (get_none_terminals example_grammar)
      (firstn (i (Config [("$" : str)] 6 "$")) (tokens "a+(id)b")) /\
    stack (Config [("$" : str)] 6 "$") = pre ++ [("$" : str)] /\
    derives example_grammar (get_none_terminals example_grammar) [start]
      (firstn (i (Config [("$" : str)] 6 "$")) (tokens "a+(id)b") ++ pre) /\
    (no_dollar example_grammar ->
     mem ("$" : str) (get_none_terminals example_grammar) = false -> pre = []).
Proof.
  apply (parse_sound 4 example_grammar example_first [] example_terminals
           example_chart "a+(id)b" 20); reflexivity.
Defined.

(** ** [parse] leaves its loop *)

Lemma token_names_In (g : grammar) (k : str) :
  token_names g -> In k (keys g) ->
  k <> ("d" : str) /\ k <> ("i" : str) /\ k <> ("id" : str) /\ k <> blank.
Proof.
  unfold token_names; rewrite forallb_forall; intros H Hk.
  specialize (H k Hk); apply negb_true_iff in H.
  repeat (apply orb_false_iff in H as [H ?]).
  repeat split; apply eqb_str_neq; assumption.
Qed.

Lemma i_no_key (g : grammar) : token_names g -> mem ("i" : str) (keys g) = false.
Proof.
  intros Hnames; apply mem_not_In; intros H.
  destruct (token_names_In g _ Hnames H) as (_ & K & _); apply K; reflexivity.
Qed.

Lemma rank_le (g : grammar) (nts : list str) (n : nat) :
  forall a, rank g nts n a <= n.
Proof.
  induction n as [|n IH]; intros a; cbn [rank]; [lia|].
  destruct (link g nts a) as [c|]; [specialize (IH c)|]; lia.
Qed.

Lemma rank_S (g : grammar) (nts : list str) (n : nat) (a : str) :
  rank g nts (S n) a
  = match link g nts a with
    | None => 0
    | Some c => S (rank g nts n c)
    end.
Proof. reflexivity. Qed.

Lemma rank_ends (g : grammar) (nts : list str) (n : nat) :
  forall a, ends g nts n a = true -> rank g nts (S n) a = rank g nts n a.
Proof.
  induction n as [|n IH]; intros a; [discriminate|].
  cbn [ends]; intros H; rewrite (rank_S g nts (S n)), (rank_S g nts n).
  destruct (link g nts a) as [c|]; [|reflexivity].
  rewrite (IH c H); reflexivity.
Qed.

Lemma chain_Done_ends (g : grammar) (nts : list str) (fuel : nat) :
  forall tg v, chain fuel g nts tg = Done v -> ends g nts fuel tg = true.
Proof.
  induction fuel as [|fuel IH]; intros tg v; cbn [chain ends]; [discriminate|].
  unfold link.
  destruct (getitem g tg) as [body| |]; cbn [bind]; try discriminate.
  destruct body as [|c body]; [discriminate|].
  unfold char_at; cbn [nth_error bind].
  destruct (mem [c] nts); cbn [negb]; [apply IH|reflexivity].
Qed.

Lemma potential_le (g : grammar) (n : nat) (st : list str) : potential g n st <= n + 2.
Proof.
  unfold potential; destruct st as [|top st]; [lia|].
  destruct (mem top (keys g)); [|lia].
  pose proof (rank_le g (keys g) n top); lia.
Qed.

Section Terminates.

Variables (fuel : nat) (g : grammar) (fd fo : dict str) (ts : list str) (chart : table).
Hypothesis Hfirst : firsts fuel g (keys g) = Done fd.
Hypothesis Hchart : creat_chart g fd fo (keys g) ts = Done chart.
Hypothesis Hts : get_terminals g (keys g) = Done ts.
Hypothesis Hnames : token_names g.

Lemma terminal_chars (c : ascii) :
  In [c] ts -> c <> "d"%char /\ c <> "i"%char.
Proof.
  destruct (get_terminals_Done g (keys g)) as (ts' & E & _ & K).
  rewrite Hts in E; injection E as ->; intros H.
  apply in_app_or in H as [H|[H|[]]].
  - apply K in H as (c' & _ & [Hd _] & H).
    apply terminal_of_char in H as [-> Hi]; split; assumption.
  - change (py "$") with ["$"%char] in H; injection H as <-; split; discriminate.
Qed.

(** Every walk from a nonterminal ends within the bound of [firsts]. *)
Lemma walk_ends (a : str) : In a (keys g) -> ends g (keys g) (S fuel) a = true.
Proof.
  intros Ha; cbn [ends]; destruct (link g (keys g) a) as [c|] eqn:El; [|reflexivity].
  destruct (firsts_Done fuel g (keys g) fd Hfirst a Ha) as (v & body & Hv & _ & Hb & _).
  destruct (link_Some g (keys g) a c El) as (x & rest & -> & Hba & Hx).
  unfold first_value in Hv; rewrite Hba in Hv; cbn [bind] in Hv.
  destruct (eqb_str (slice02 (x :: rest)) "id") eqn:Eid.
  { destruct (slice02_id _ Eid) as (rest' & [= -> _]).
    change ["i"%char] with (py "i") in Hx; rewrite (i_no_key g Hnames) in Hx; discriminate. }
  unfold char_at in Hv; cbn [nth_error bind] in Hv; rewrite Hx in Hv.
  apply (chain_Done_ends g (keys g) fuel [x] v Hv).
Qed.

Lemma rank_link (a c : str) :
  In a (keys g) -> link g (keys g) a = Some c ->
  rank g (keys g) (S fuel) a = S (rank g (keys g) (S fuel) c).
Proof.
  intros Ha El; pose proof (walk_ends a Ha) as He.
  cbn [ends] in He; rewrite El in He.
  rewrite (rank_ends g (keys g) fuel c He), rank_S, El; reflexivity.
Qed.

(** The production that the table selects for the nonterminal [a] under
    the token [t] begins, as a list of stack symbols, with the leading
    nonterminal of [a] or with a symbol that is no nonterminal. *)
Lemma selected_head (a body t : str) :
  In a (keys g) -> getitem fd a = Done t -> getitem g a = Done body -> In t ts ->
  exists x rest,
    make_list body = x :: rest /\
    (mem x (keys g) = true -> link g (keys g) a = Some x).
Proof.
  intros Ha Hf Hb Ht.
  destruct (firsts_Done fuel g (keys g) fd Hfirst a Ha) as (v & body' & Hv & Hf' & Hb' & Hne).
  assert (body' = body) by congruence; subst body'.
  assert (v = t) by congruence; subst v.
  unfold first_value in Hv; rewrite Hb in Hv; cbn [bind] in Hv.
  destruct (eqb_str (slice02 body) "id") eqn:Eid.
  { destruct (slice02_id _ Eid) as (rest & ->).
    exists ("id" : str), (make_list rest); split; [reflexivity|].
    intros H; apply mem_In in H; destruct (token_names_In g _ Hnames H) as (_ & _ & K & _).
    exfalso; apply K; reflexivity. }
  destruct body as [|c body]; [contradiction|].
  unfold char_at in Hv; cbn [nth_error bind] in Hv.
  destruct (mem [c] (keys g)) eqn:Hm.
  - apply mem_In in Hm; destruct (token_names_In g _ Hnames Hm) as (Hd & Hi & _).
    exists [c], (make_list body); split.
    + apply make_list_cons; intros ->; [apply Hd|apply Hi]; reflexivity.
    + intros _; unfold link; rewrite Hb; apply mem_In in Hm; rewrite Hm; reflexivity.
  - injection Hv as <-; destruct (terminal_chars c Ht) as [Hd Hi].
    exists [c], (make_list body); split; [apply make_list_cons; assumption|].
    rewrite Hm; discriminate.
Qed.

Variable string : str.

Lemma parse_step_decreases (cf cf' : config) :
  item (tokens string) (i cf) = Done (pointer cf) ->
  parse_step (tokens string) chart (keys g) ts cf = Done (Continue cf') ->
  rounds_left g (S fuel) (tokens string) cf' < rounds_left g (S fuel) (tokens string) cf.
Proof.
  intros Hp Hstep.
  destruct (stack cf) as [|top rest] eqn:Hs.
  { unfold parse_step in Hstep; rewrite Hs in Hstep; discriminate. }
  unfold rounds_left; rewrite Hs.
  destruct (parse_step_cases fuel g fd fo ts chart Hfirst Hchart (tokens string) cf _ _ Hs)
    as [[_ E]|[(_ & _ & _ & E)|[(_ & Hin & Ht & f & body & Hf & Hb & _ & E)
       |[(Hd & Hn & _ & E)|(_ & _ & _ & E)]]]]; rewrite E in Hstep; try discriminate.
  - injection Hstep as <-; cbn [stack i].
    apply Nat.add_lt_mono_l.
    pose proof Hin as Hm; apply mem_In in Hm.
    unfold potential at 2; rewrite Hm.
    unfold cell_of; destruct (eqb_str_spec f (pointer cf)) as [->|_].
    + destruct (selected_head top body (pointer cf) Hin Hf Hb Ht) as (x & r & -> & Hl).
      cbn [app potential]; destruct (mem x (keys g)); [|lia].
      rewrite (rank_link top x Hin (Hl eq_refl)); lia.
    + change (make_list blank) with [blank]; cbn [app potential].
      replace (mem blank (keys g)) with false; [lia|].
      symmetry; apply mem_not_In; intros H.
      destruct (token_names_In g _ Hnames H) as (_ & _ & _ & K); apply K; reflexivity.
  - apply bind_Done in Hstep as (p & Ep & Hstep); injection Hstep as <-; cbn [stack i].
    assert (Hlt : i cf < length (tokens string)).
    { apply nth_error_Some; unfold item in Hp.
      destruct (nth_error (tokens string) (i cf)); congruence. }
    pose proof (potential_le g (S fuel) rest) as H1.
    replace (length (tokens string) - i cf)
      with (S (length (tokens string) - (i cf + 1))) by lia.
    cbn [Nat.mul]; lia.
Qed.

Lemma parse_loop_returns (bound : nat) :
  forall cf,
  item (tokens string) (i cf) = Done (pointer cf) ->
  rounds_left g (S fuel) (tokens string) cf < bound ->
  parse_loop bound (tokens string) chart (keys g) ts cf <> OutOfFuel.
Proof.
  induction bound as [|bound IH]; intros cf Hp Hlt; [lia|].
  cbn [parse_loop].
  pose proof (parse_step_returns fuel g fd fo ts chart Hfirst Hchart (tokens string) cf)
    as Hr.
  destruct (parse_step (tokens string) chart (keys g) ts cf) as [[e c1|c1]|e|] eqn:Es;
    cbn [bind]; try discriminate; [|contradiction].
  apply IH; [apply (parse_step_pointer _ _ _ _ _ _ Es Hp)|].
  pose proof (parse_step_decreases cf c1 Hp Es); lia.
Qed.

Lemma parse_init_rounds (start p : str) :
  rounds_left g (S fuel) (tokens string) (Config [start; "$" : str] 0 p)
  < (length (tokens string) + 1) * (fuel + 4).
Proof.
  unfold rounds_left; cbn [stack i].
  pose proof (potential_le g (S fuel) [start; "$" : str]).
  rewrite Nat.sub_0_r; nia.
Qed.

Lemma parse_run_returns (bound : nat) :
  (length (tokens string) + 1) * (fuel + 4) <= bound ->
  parse_run bound string chart (keys g) ts <> OutOfFuel.
Proof.
  intros Hb; unfold parse_run, parse_init, item.
  destruct (nth_error (keys g) 0) as [start|]; cbn [bind]; try discriminate.
  destruct (nth_error (tokens string) 0) as [p|] eqn:Ep; cbn [bind]; try discriminate.
  apply parse_loop_returns; [unfold item; cbn [i pointer]; rewrite Ep; reflexivity|].
  pose proof (parse_init_rounds start p); lia.
Qed.

End Terminates.

(** X13.  Let the terminal list and the table be those that
    [get_terminals] and [creat_chart] build once [firsts] has returned
    within [fuel] rounds of its [while] loop, and let no nonterminal be
    named [d], [i], [id] or with the blank string.  Then the loop of
    [parse] is left, by a [return] or an exception, within
    (n + 1) * (fuel + 4) rounds on an input of n tokens, the sentinel
    included: every round consumes a token, or replaces the nonterminal
    on top of the stack by its leading nonterminal, or is the only
    round before the next token is consumed or the loop is left. *)
Theorem parse_terminates (fuel : nat) (g : grammar) (fd fo : dict str) (ts : list str)
  (chart : table) (string : str) (bound : nat)
  (Hfirst : firsts fuel g (get_none_terminals g) = Done fd)
  (Hterminals : get_terminals g (get_none_terminals g) = Done ts)
  (Hchart : creat_chart g fd fo (get_none_terminals g) ts = Done chart)
  (Hnames : token_names g)
  (Hbound : (length (tokens string) + 1) * (fuel + 4) <= bound) :
  parse bound string chart (get_none_terminals g) ts <> OutOfFuel.
Proof.
  unfold parse, get_none_terminals in *.
  pose proof (parse_run_returns fuel g fd fo ts chart Hfirst Hchart Hterminals Hnames
                string bound Hbound) as H.
  destruct (parse_run bound string chart (keys g) ts); cbn [bind];
    [discriminate|discriminate|contradiction].
Qed.

(** The example grammar, on which [firsts] returns within 4 rounds, and
    an input of 7 tokens. *)
Lemma parse_terminates_witness :
  (length (tokens "a+(id)b") + 1) * (4 + 4) <= 64 /\
  parse 64 "a+(id)b" example_chart (get_none_terminals example_grammar)
    example_terminals <> OutOfFuel.
Proof.
  split; [vm_compute; lia|].
  apply (parse_terminates 4 example_grammar example_first [] example_terminals
           example_chart "a+(id)b" 64); try reflexivity; vm_compute; lia.
Defined.

(** ** [parse] accepts the sentence of the grammar *)

Lemma yields_sentence (g : grammar) (nts : list str) (w : list str) :
  sentence nts w -> yields g nts w w.
Proof.
  unfold sentence; induction w as [|x w IH]; cbn [forallb]; [constructor|].
  intros H; apply andb_true_iff in H as [H1 H2]; apply negb_true_iff in H1.
  constructor; auto.
Qed.

Lemma yields_app (g : grammar) (nts : list str) (x y w1 w2 : list str) :
  yields g nts x w1 -> yields g nts y w2 -> yields g nts (x ++ y) (w1 ++ w2).
Proof.
  induction 1 as [|t form w Ht _ IH|a body form wa wb Ha Hb Hy _ _ IH]; intros H.
  - exact H.
  - cbn [app]; constructor; auto.
  - cbn [app]; rewrite <- app_assoc; apply (yields_nonterminal g nts a body); auto.
Qed.

Lemma yields_split (g : grammar) (nts : list str) (x : list str) :
  forall y w, yields g nts (x ++ y) w ->
  exists w1 w2, w = w1 ++ w2 /\ yields g nts x w1 /\ yields g nts y w2.
Proof.
  induction x as [|t x IH]; intros y w H.
  - exists [], w; repeat split; [constructor|exact H].
  - cbn [app] in H; inversion H as [|t' form w' Ht Hy|a body form wa wb Ha Hb Hya Hyb]; subst.
    + destruct (IH y w' Hy) as (w1 & w2 & -> & H1 & H2).
      exists (t :: w1), w2; repeat split; [constructor; assumption|exact H2].
    + destruct (IH y wb Hyb) as (w1 & w2 & -> & H1 & H2).
      exists (wa ++ w1), w2; rewrite app_assoc; repeat split; [|exact H2].
      apply (yields_nonterminal g nts t body); assumption.
Qed.

(** A derivation of a sentence, read as the expansion of its first
    sentential form. *)
Lemma derives_yields (g : grammar) (nts : list str) (form w : list str) :
  derives g nts form w -> sentence nts w -> yields g nts form w.
Proof.
  induction 1 as [w|u v w a body Ha Hb _ IH]; intros Hw; [apply yields_sentence, Hw|].
  destruct (yields_split g nts u _ _ (IH Hw)) as (wu & w' & -> & Hu & H').
  destruct (yields_split g nts (make_list body) _ _ H') as (wb & wv & -> & Hbody & Hv).
  apply yields_app; [exact Hu|].
  apply (yields_nonterminal g nts a body); assumption.
Qed.

Lemma leads_plainly_In (g : grammar) (k : str) (c : ascii) (body : str) :
  leads_plainly g -> getitem g k = Done (c :: body) ->
  c <> "d"%char /\ (c = "i"%char -> eqb_str (slice02 (c :: body)) "id" = true).
Proof.
  unfold leads_plainly; rewrite forallb_forall; intros H Hk.
  specialize (H (k, c :: body) (getitem_Done_In g k _ Hk)); cbn [snd] in H.
  apply andb_true_iff in H as [H1 H2]; split.
  - intros ->; discriminate.
  - intros ->; exact H2.
Qed.

(** The derivation S => aBb => a+Cb => a+(D)b => a+(id)b. *)
Lemma example_derivation :
  derives example_grammar (keys example_grammar) [("S" : str)] example_sentence.
Proof.
  apply (derives_step example_grammar (keys example_grammar) [] [] _
           ("S" : str) ("aBb" : str) eq_refl eq_refl).
  apply (derives_step example_grammar (keys example_grammar)
           [("a" : str)] [("b" : str)] _ ("B" : str) ("+C" : str) eq_refl eq_refl).
  apply (derives_step example_grammar (keys example_grammar)
           [("a" : str); ("+" : str)] [("b" : str)] _
           ("C" : str) ("(D)" : str) eq_refl eq_refl).
  apply (derives_step example_grammar (keys example_grammar)
           [("a" : str); ("+" : str); ("(" : str)] [(")" : str); ("b" : str)] _
           ("D" : str) ("id" : str) eq_refl eq_refl).
  apply derives_refl.
Qed.

Section First_token.

Variables (fuel : nat) (g : grammar) (fd : dict str).
Hypothesis Hfirst : firsts fuel g (keys g) = Done fd.
Hypothesis Hnames : token_names g.
Hypothesis Hleads : leads_plainly g.

Local Abbreviation yields := (yields g (keys g)).

(** The first symbol of a production, as [make_list] reads it. *)
Lemma production_head (a body f : str) :
  getitem g a = Done body -> getitem fd a = Done f ->
  exists rest,
    (make_list body = f :: rest /\ mem f (keys g) = false)
    \/ exists c, make_list body = [c] :: rest /\ link g (keys g) a = Some [c].
Proof.
  intros Hb Hf.
  assert (Ha : In a (keys g)) by apply (getitem_Done_key g a body Hb).
  destruct (firsts_Done fuel g (keys g) fd Hfirst a Ha) as (v & body' & Hv & Hf' & Hb' & Hne).
  assert (body' = body) by congruence; subst body'.
  assert (v = f) by congruence; subst v.
  unfold first_value in Hv; rewrite Hb in Hv; cbn [bind] in Hv.
  destruct (eqb_str (slice02 body) "id") eqn:Eid.
  { destruct (slice02_id _ Eid) as (rest & ->); injection Hv as <-.
    exists (make_list rest); left; split; [reflexivity|].
    apply mem_not_In; intros H.
    destruct (token_names_In g _ Hnames H) as (_ & _ & K & _); apply K; reflexivity. }
  destruct body as [|c body]; [contradiction|].
  destruct (leads_plainly_In g a c body Hleads Hb) as [Hd Hi].
  assert (Hi' : c <> "i"%char) by (intros E; rewrite (Hi E) in Eid; discriminate).
  exists (make_list body); rewrite (make_list_cons c body Hd Hi').
  unfold char_at in Hv; cbn [nth_error bind] in Hv.
  destruct (mem [c] (keys g)) eqn:Hm.
  - right; exists c; split; [reflexivity|].
    unfold link; rewrite Hb, Hm; reflexivity.
  - injection Hv as <-; left; split; [reflexivity|exact Hm].
Qed.

(** What a production expands to begins with the FIRST value of its
    nonterminal. *)
Lemma yields_head (form w : list str) :
  yields form w ->
  forall a body f, getitem g a = Done body -> getitem fd a = Done f ->
  form = make_list body -> exists w', w = f :: w'.
Proof.
  induction 1 as [|x form w Hx Hy _|a0 body0 form w1 w2 Ha0 Hb0 _ IH1 _ _];
    intros a body f Hb Hf Eform;
    destruct (production_head a body f Hb Hf) as (rest & [[E Hm]|(c & E & Hl)]);
    rewrite E in Eform; try discriminate.
  - injection Eform as -> _; exists w; reflexivity.
  - injection Eform as -> _.
    destruct (link_Some g (keys g) a _ Hl) as (c' & _ & [= <-] & _ & K); congruence.
  - injection Eform as -> _; congruence.
  - injection Eform as -> _.
    assert (Ha : In a (keys g)) by apply (getitem_Done_key g a body Hb).
    destruct (firsts_link fuel g (keys g) fd a [c] Hfirst (i_no_key g Hnames) Ha Hl)
      as (v & E1 & E2).
    destruct (IH1 [c] body0 v Hb0 E2 eq_refl) as (w' & ->).
    exists (w' ++ w2); rewrite Hf in E1; injection E1 as ->; reflexivity.
Qed.

(** What a nonterminal expands to begins with its FIRST value. *)
Lemma first_token (a : str) (w : list str) :
  In a (keys g) -> derives g (keys g) [a] w -> sentence (keys g) w ->
  exists f w', getitem fd a = Done f /\ w = f :: w'.
Proof.
  intros Ha Hder Hw.
  pose proof (derives_yields g (keys g) _ _ Hder Hw) as Hy.
  inversion Hy as [|x form w0 Hx _|a0 body form w1 w2 _ Hb Hy1 Hy2]; subst.
  { apply mem_not_In in Hx; contradiction. }
  inversion Hy2; subst; rewrite app_nil_r.
  destruct (firsts_Done fuel g (keys g) fd Hfirst a Ha) as (f & _ & _ & Hf & _).
  destruct (yields_head _ _ Hy1 a body f Hb Hf eq_refl) as (w' & ->).
  exists f, w'; auto.
Qed.

End First_token.

(** X7.  Let [firsts] have returned, let no nonterminal be named [d],
    [i], [id] or with the blank string, and let no production begin
    with [d] or with an [i] that is not followed by [d].  Then the
    FIRST value of every nonterminal is the first token of the sentence
    that the nonterminal derives. *)
Theorem firsts_first_token (fuel : nat) (g : grammar) (fd : dict str)
  (a : str) (w : list str)
  (Hfirst : firsts fuel g (get_none_terminals g) = Done fd)
  (Hnames : token_names g)
  (Hleads : leads_plainly g)
  (Ha : In a (get_none_terminals g))
  (Hderives : derives g (get_none_terminals g) [a] w)
  (Hsentence : sentence (get_none_terminals g) w) :
  exists f w', getitem fd a = Done f /\ w = f :: w'.
Proof. apply (first_token fuel g fd Hfirst Hnames Hleads a w); assumption. Qed.

(** The start symbol of the example grammar and its sentence. *)
Lemma firsts_first_token_witness :
  exists f w', getitem example_first ("S" : str) = Done f /\ example_sentence = f :: w'.
Proof.
  apply (firsts_first_token 4 example_grammar example_first "S" example_sentence);
    try reflexivity.
  - left; reflexivity.
  - exact example_derivation.
Defined.

Section Complete.

Variables (fuel : nat) (g : grammar) (fd fo : dict str) (ts : list str) (chart : table).
Hypothesis Hfirst : firsts fuel g (keys g) = Done fd.
Hypothesis Hchart : creat_chart g fd fo (keys g) ts = Done chart.
Hypothesis Hts : get_terminals g (keys g) = Done ts.
Hypothesis Hnames : token_names g.
Hypothesis Hleads : leads_plainly g.

Local Abbreviation yields := (yields g (keys g)).

(** The symbols of a production that are no nonterminals are in the
    terminal list. *)
Lemma production_terminals (a body x : str) :
  getitem g a = Done body -> In x (make_list body) -> mem x (keys g) = false ->
  In x ts.
Proof.
  intros Hb Hx Hm.
  destruct (get_terminals_Done g (keys g)) as (ts' & E & _ & K).
  rewrite Hts in E; injection E as ->; apply in_or_app; left.
  apply make_list_terminal_of in Hx as (c & Hc & Hd & ->).
  apply K; exists c; split; [exists a, body; auto|]; split; [|reflexivity].
  split; [exact Hd|].
  unfold terminal_of in Hm; destruct (eqb_str_spec [c] "i") as [->|_];
    [apply (i_no_key g Hnames)|exact Hm].
Qed.

Lemma yields_terminals (form w : list str) :
  yields form w ->
  (forall x, In x form -> mem x (keys g) = false -> In x ts) ->
  forall t, In t w -> In t ts.
Proof.
  induction 1 as [|x form w Hx _ IH|a body form w1 w2 Ha Hb _ IH1 _ IH2];
    intros Hform t Ht.
  - destruct Ht.
  - destruct Ht as [<-|Ht]; [apply Hform; [left; reflexivity|exact Hx]|].
    apply IH; [|exact Ht]. intros y Hy; apply Hform; right; exact Hy.
  - apply in_app_or in Ht as [Ht|Ht].
    + apply IH1; [|exact Ht]. intros y Hy; apply (production_terminals a body y Hb Hy).
    + apply IH2; [|exact Ht]. intros y Hy; apply Hform; right; exact Hy.
Qed.

Variable tokens : list str.

Local Abbreviation accepts := (accepts tokens chart (keys g) ts).

(** The loop works a stack segment off against the tokens that it
    expands to: when it accepts with the stack below the segment and
    the cursor after these tokens, it accepts with the segment on the
    stack and the cursor before them. *)
Lemma yields_accepts (form w : list str) :
  yields form w ->
  forall rest pre post,
  tokens = pre ++ w ++ post -> post <> [] ->
  accepts (at_cursor tokens rest (length pre + length w)) ->
  accepts (at_cursor tokens (form ++ rest) (length pre)).
Proof.
  induction 1 as [|x form w Hx _ IH|a body form w1 w2 Ha Hb Hy1 IH1 _ IH2];
    intros rest pre post Htok Hpost Hacc.
  - cbn [app length] in *; rewrite Nat.add_0_r in Hacc; exact Hacc.
  - cbn [length app] in *.
    assert (Hn : nth (length pre) tokens [] = x) by (rewrite Htok; apply nth_middle).
    assert (Hlen : length pre + 1 < length tokens).
    { rewrite Htok, length_app; cbn [length]; rewrite length_app.
      destruct post; [contradiction|cbn [length]; lia]. }
    destruct (parse_step_cases fuel g fd fo ts chart Hfirst Hchart tokens
                (at_cursor tokens (x :: form ++ rest) (length pre)) x (form ++ rest)
                eq_refl)
      as [[E _]|[(_ & H & _)|[(_ & H & _)|[(_ & _ & _ & E)|(_ & _ & H & _)]]]].
    + apply (accepts_dollar _ _ _ _ _ (form ++ rest)); rewrite <- E; reflexivity.
    + apply mem_not_In in Hx; contradiction.
    + apply mem_not_In in Hx; contradiction.
    + apply (accepts_next _ _ _ _ _ (at_cursor tokens (form ++ rest) (length pre + 1))).
      * rewrite E; unfold at_cursor; cbn [i].
        rewrite item_nth by lia; reflexivity.
      * replace (length pre + 1) with (length (pre ++ [x]))
          by (rewrite length_app; reflexivity).
        apply (IH rest (pre ++ [x]) post); [|exact Hpost|].
        -- rewrite Htok, <- app_assoc; reflexivity.
        -- replace (length (pre ++ [x]) + length w) with (length pre + S (length w))
             by (rewrite length_app; cbn [length]; lia).
           exact Hacc.
    + unfold at_cursor in H; cbn [pointer] in H; congruence.
  - change ((a :: form) ++ rest) with (a :: form ++ rest).
    assert (Hin : In a (keys g)) by (apply mem_In; exact Ha).
    destruct (firsts_Done fuel g (keys g) fd Hfirst a Hin) as (f & body' & _ & Hf & Hb' & _).
    assert (body' = body) by congruence; subst body'.
    destruct (yields_head fuel g fd Hfirst Hnames Hleads _ _ Hy1 a body f Hb Hf eq_refl)
      as (w' & ->).
    assert (Hn : nth (length pre) tokens [] = f) by (rewrite Htok; apply nth_middle).
    assert (Hft : In f ts).
    { apply (yields_terminals _ _ Hy1); [|left; reflexivity].
      intros y Hy; apply (production_terminals a body y Hb Hy). }
    destruct (parse_step_cases fuel g fd fo ts chart Hfirst Hchart tokens
                (at_cursor tokens (a :: form ++ rest) (length pre)) a (form ++ rest)
                eq_refl)
      as [[E _]|[(_ & _ & H & _)|[(_ & _ & _ & f' & body' & Hf' & Hb'' & _ & E)
         |[(_ & H & _)|(_ & H & _)]]]]; try contradiction.
    + apply (accepts_dollar _ _ _ _ _ (form ++ rest)); rewrite <- E; reflexivity.
    + unfold at_cursor in H; cbn [pointer] in H; rewrite Hn in H; contradiction.
    + apply (accepts_next _ _ _ _ _
               (at_cursor tokens (make_list body ++ form ++ rest) (length pre))).
      * rewrite E; unfold at_cursor; cbn [pointer i]; rewrite Hn.
        assert (f' = f) by congruence; assert (body' = body) by congruence.
        subst f' body'; unfold cell_of; rewrite eqb_str_refl; reflexivity.
      * apply (IH1 (form ++ rest) pre (w2 ++ post)).
        -- rewrite Htok, <- app_assoc; reflexivity.
        -- destruct w2; [exact Hpost|discriminate].
        -- replace (length pre + length (f :: w')) with (length (pre ++ f :: w'))
             by (rewrite length_app; reflexivity).
           apply (IH2 rest (pre ++ f :: w') post); [|exact Hpost|].
           ++ rewrite Htok, <- !app_assoc; reflexivity.
           ++ replace (length (pre ++ f :: w') + length w2)
                with (length pre + length ((f :: w') ++ w2))
                by (rewrite !length_app; lia).
              exact Hacc.
Qed.

End Complete.

Lemma parse_run_complete (fuel : nat) (g : grammar) (fd fo : dict str) (ts : list str)
  (chart : table) (start : str) (w more : list str) (string : str) :
  firsts fuel g (keys g) = Done fd ->
  get_terminals g (keys g) = Done ts ->
  creat_chart g fd fo (keys g) ts = Done chart ->
  token_names g -> leads_plainly g ->
  nth_error (keys g) 0 = Some start ->
  derives g (keys g) [start] w -> sentence (keys g) w ->
  make_list string = w ++ more ->
  forall bound, (length (tokens string) + 1) * (fuel + 4) <= bound ->
  exists cf, parse_run bound string chart (keys g) ts = Done (Stack_at_dollar, cf).
Proof.
  intros Hfirst Hts Hchart Hnames Hleads Hstart Hder Hsent Hinput bound Hbound.
  assert (Htok : tokens string = [] ++ w ++ (more ++ [("$" : str)])).
  { unfold tokens; rewrite Hinput, <- app_assoc; reflexivity. }
  assert (Hacc : accepts (tokens string) chart (keys g) ts
                   (at_cursor (tokens string) ([start] ++ [("$" : str)])
                      (length (@nil str)))).
  { apply (yields_accepts fuel g fd fo ts chart Hfirst Hchart Hts Hnames Hleads
             (tokens string) [start] w (derives_yields g (keys g) _ _ Hder Hsent)
             [("$" : str)] [] (more ++ [("$" : str)]) Htok).
    - destruct more; discriminate.
    - apply (accepts_dollar _ _ _ _ _ []); reflexivity. }
  destruct Hacc as (k & r & Hk).
  unfold parse_run, parse_init, item; rewrite Hstart; cbn [bind].
  destruct (nth_error (tokens string) 0) as [p|] eqn:Ep;
    [|unfold tokens in Ep; destruct (make_list string); discriminate].
  cbn [bind].
  assert (Ecf : at_cursor (tokens string) ([start] ++ [("$" : str)]) (length (@nil str))
                = Config [start; "$" : str] 0 p).
  { unfold at_cursor; cbn [app length]; f_equal.
    destruct (tokens string); [discriminate|]; injection Ep as ->; reflexivity. }
  rewrite Ecf in Hk.
  assert (Hret : parse_loop bound (tokens string) chart (keys g) ts
                   (Config [start; "$" : str] 0 p) <> OutOfFuel).
  { apply (parse_loop_returns fuel g fd fo ts chart Hfirst Hchart Hts Hnames).
    - unfold item; cbn [i pointer]; rewrite Ep; reflexivity.
    - pose proof (parse_init_rounds fuel g string start p); lia. }
  exists r; destruct (Nat.le_ge_cases k bound) as [Hle|Hle].
  - rewrite (parse_loop_stable _ _ _ _ k bound _); [exact Hk|congruence|exact Hle].
  - rewrite <- (parse_loop_stable _ _ _ _ bound k _ Hret Hle); exact Hk.
Qed.

(** X15.  Let the terminal list and the table be those that
    [get_terminals] and [creat_chart] build once [firsts] has returned
    within [fuel] rounds, let no nonterminal be named [d], [i], [id] or
    with the blank string, and let no production begin with [d] or
    with an [i] that is not followed by [d].  When the tokens of the
    input begin with a sentence of the grammar, that is with a list of
    symbols without nonterminals that is derived from the start
    symbol, [parse] accepts the input, whatever follows the sentence,
    within (n + 1) * (fuel + 4) rounds of its loop on n tokens. *)
Theorem parse_complete (fuel : nat) (g : grammar) (fd fo : dict str) (ts : list str)
  (chart : table) (start : str) (w more : list str) (string : str) (bound : nat)
  (Hfirst : firsts fuel g (get_none_terminals g) = Done fd)
  (Hterminals : get_terminals g (get_none_terminals g) = Done ts)
  (Hchart : creat_chart g fd fo (get_none_terminals g) ts = Done chart)
  (Hnames : token_names g)
  (Hleads : leads_plainly g)
  (Hstart : nth_error (get_none_terminals g) 0 = Some start)
  (Hderives : derives g (get_none_terminals g) [start] w)
  (Hsentence : sentence (get_none_terminals g) w)
  (Hinput : make_list string = w ++ more)
  (Hbound : (length (tokens string) + 1) * (fuel + 4) <= bound) :
  parse bound string chart (get_none_terminals g) ts = Done Accept.
Proof.
  unfold parse, get_none_terminals in *.
  destruct (parse_run_complete fuel g fd fo ts chart start w more string
              Hfirst Hterminals Hchart Hnames Hleads Hstart Hderives Hsentence Hinput
              bound Hbound) as (cf & ->).
  reflexivity.
Qed.

(** The example grammar on an input that goes on after its sentence. *)
Lemma parse_complete_witness :
  parse 100 "a+(id)b)a" example_chart (get_none_terminals example_grammar)
    example_terminals = Done Accept.
Proof.
  apply (parse_complete 4 example_grammar example_first [] example_terminals
           example_chart "S" example_sentence [(")" : str); ("a" : str)]
           "a+(id)b)a" 100);
    try reflexivity.
  - exact example_derivation.
  - vm_compute; lia.
Defined.

(** ** What [parse] accepts *)

Lemma message_Accept (e : exit) : message e = Accept -> e = Stack_at_dollar.
Proof. destruct e; [reflexivity|discriminate|discriminate]. Qed.

Lemma token_names_blank (g : grammar) : token_names g -> mem blank (keys g) = false.
Proof.
  intros Hnames; apply mem_not_In; intros H.
  destruct (token_names_In g _ Hnames H) as (_ & _ & _ & K); apply K; reflexivity.
Qed.

(** The tokens before the cursor are tokens of the input. *)
Lemma consumed_prefix (string : str) (n : nat) (p : str) :
  item (tokens string) n = Done p ->
  exists more, make_list string = firstn n (tokens string) ++ more.
Proof.
  unfold item, tokens; intros H.
  assert (Hn : n < length (make_list string ++ [("$" : str)])).
  { apply nth_error_Some; destruct (nth_error _ n); congruence. }
  rewrite length_app in Hn; cbn [length] in Hn.
  exists (skipn n (make_list string)).
  rewrite firstn_app; replace (n - length (make_list string)) with 0 by lia.
  cbn [firstn]; rewrite app_nil_r, firstn_skipn; reflexivity.
Qed.

(** X16.  Let the terminal list and the table be those that
    [get_terminals] and [creat_chart] build once [firsts] has returned
    within [fuel] rounds; let no nonterminal be named [d], [i], [id],
    [$] or with the blank string; let no production contain [$] or
    begin with [d] or with an [i] that is not followed by [d]; and let
    the input hold no space.  Then [parse], given enough rounds,
    accepts the input if and only if its tokens begin with a sentence
    of the grammar: a list of symbols without nonterminals that is
    derived from the start symbol.  What follows the sentence in the
    input is not examined. *)
Theorem parse_accepts_iff (fuel : nat) (g : grammar) (fd fo : dict str) (ts : list str)
  (chart : table) (string : str) (bound : nat)
  (Hfirst : firsts fuel g (get_none_terminals g) = Done fd)
  (Hterminals : get_terminals g (get_none_terminals g) = Done ts)
  (Hchart : creat_chart g fd fo (get_none_terminals g) ts = Done chart)
  (Hnames : token_names g)
  (Hname : mem ("$" : str) (get_none_terminals g) = false)
  (Hdollar : no_dollar g)
  (Hleads : leads_plainly g)
  (Hinput : mem (" " : str) (tokens string) = false)
  (Hbound : (length (tokens string) + 1) * (fuel + 4) <= bound) :
  parse bound string chart (get_none_terminals g) ts = Done Accept <->
  exists start w more,
    nth_error (get_none_terminals g) 0 = Some start /\
    derives g (get_none_terminals g) [start] w /\
    sentence (get_none_terminals g) w /\
    make_list string = w ++ more.
Proof.
  unfold get_none_terminals in *; split.
  - unfold parse; intros H; apply bind_Done in H as ([e cf] & Hrun & H).
    cbn [fst] in H; injection H as H; apply message_Accept in H; subst e.
    destruct (parse_run_sound fuel g fd fo ts chart string bound cf Hfirst Hchart
                (token_names_blank g Hnames) Hinput Hrun)
      as (start & pre & Hs & Hp & Hsent & _ & Hder & Hpre).
    rewrite (Hpre Hdollar Hname), app_nil_r in Hder.
    destruct (consumed_prefix string (i cf) (pointer cf) Hp) as (more & Hmore).
    exists start, (firstn (i cf) (tokens string)), more; auto.
  - intros (start & w & more & Hs & Hder & Hsent & Hmore).
    unfold parse.
    destruct (parse_run_complete fuel g fd fo ts chart start w more string
                Hfirst Hterminals Hchart Hnames Hleads Hs Hder Hsent Hmore
                bound Hbound) as (cf & ->).
    reflexivity.
Qed.

(** The example grammar on an input that begins with its sentence. *)
Lemma parse_accepts_iff_witness :
  parse 100 "a+(id)bb" example_chart (get_none_terminals example_grammar)
    example_terminals = Done Accept <->
  exists start w more,
    nth_error (get_none_terminals example_grammar) 0 = Some start /\
    derives example_grammar (get_none_terminals example_grammar) [start] w /\
    sentence (get_none_terminals example_grammar) w /\
    make_list "a+(id)bb" = w ++ more.
Proof.
  apply (parse_accepts_iff 4 example_grammar example_first [] example_terminals
           example_chart "a+(id)bb" 100); try reflexivity.
  vm_compute; lia.
Defined.

(** ** When [firsts] returns, and what it returns *)

Lemma link_not_id (g : grammar) (nts : list str) (a c : str) :
  mem ("i" : str) nts = false -> link g nts a = Some c -> leads_with_id g a = false.
Proof.
  intros Hi Hl; destruct (link_Some g nts a c Hl) as (x & rest & -> & Hb & Hx).
  unfold leads_with_id; rewrite Hb.
  destruct (eqb_str (slice02 (x :: rest)) "id") eqn:Eid; [|reflexivity].
  destruct (slice02_id _ Eid) as (rest' & [= -> _]).
  change ["i"%char] with (py "i") in Hx; congruence.
Qed.

Lemma firsts_Done_nonempty (fuel : nat) (g : grammar) (nts : list str) (fd : dict str) :
  is_dict g -> firsts fuel g nts = Done fd -> nonempty_rules g.
Proof.
  intros Hd E; unfold nonempty_rules; apply forallb_forall; intros [k v] Hin.
  cbn [snd]; pose proof (In_getitem g k v Hd Hin) as Hk.
  destruct (firsts_Done fuel g nts fd E k (getitem_Done_key g k v Hk))
    as (_ & body & _ & _ & Hb & Hne).
  assert (body = v) by congruence; subst body.
  destruct v; [contradiction|reflexivity].
Qed.

Lemma firsts_Done_acyclic (fuel : nat) (g : grammar) (nts : list str) (fd : dict str) :
  mem ("i" : str) nts = false -> firsts fuel g nts = Done fd -> acyclic g nts.
Proof.
  intros Hi E a n Hn Hc.
  assert (Hid : leads_with_id g a = false).
  { destruct n as [|n]; [lia|]; cbn [iter_link] in Hc.
    destruct (link g nts a) as [c|] eqn:El; [|discriminate].
    apply (link_not_id g nts a c Hi El). }
  destruct (first_value_cycle g nts n a Hn Hc Hid) as [Ha Hloop].
  destruct (firsts_Done fuel g nts fd E a Ha) as (v & _ & Hv & _).
  rewrite Hloop in Hv; discriminate.
Qed.

(** X5.  On a dictionary in which [i] is no nonterminal, [firsts]
    returns, given enough rounds for its [while] loop, if and only if
    no production is empty and no nonterminal leads back to itself
    through leading nonterminals. *)
Theorem firsts_returns_iff (g : grammar)
  (Hdict : is_dict g)
  (Hi : mem ("i" : str) (get_none_terminals g) = false) :
  (exists fuel fd, firsts fuel g (get_none_terminals g) = Done fd)
  <-> nonempty_rules g /\ acyclic g (get_none_terminals g).
Proof.
  unfold get_none_terminals in *; split.
  - intros (fuel & fd & E); split.
    + apply (firsts_Done_nonempty fuel g (keys g) fd Hdict E).
    + apply (firsts_Done_acyclic fuel g (keys g) fd Hi E).
  - intros [Hne Hac]; destruct (firsts_acyclic g Hne Hac) as (fd & E & _).
    exists (length g), fd; exact E.
Qed.

(** The example grammar. *)
Lemma firsts_returns_iff_witness :
  (exists fuel fd, firsts fuel example_grammar (get_none_terminals example_grammar) = Done fd)
  <-> nonempty_rules example_grammar
      /\ acyclic example_grammar (get_none_terminals example_grammar).
Proof.
  apply (firsts_returns_iff example_grammar).
  - apply is_dict_check; reflexivity.
  - reflexivity.
Defined.

(** The value of a walk is [id], from a production that begins with
    it, or a character of a production that is no nonterminal. *)
Lemma chain_value (g : grammar) (nts : list str) (fuel : nat) :
  forall tg v, chain fuel g nts tg = Done v ->
  (v = "id" /\ occurs g "i"%char)
  \/ exists c, v = [c] /\ occurs g c /\ mem [c] nts = false.
Proof.
  induction fuel as [|fuel IH]; intros tg v; cbn [chain]; [discriminate|].
  destruct (getitem g tg) as [body| |] eqn:Eb; cbn [bind]; try discriminate.
  destruct body as [|c body]; [discriminate|].
  unfold char_at; cbn [nth_error bind].
  destruct (mem [c] nts) eqn:Hm; cbn [negb]; [apply IH|].
  destruct (eqb_str (slice02 (c :: body)) "id") eqn:Eid; intros [= <-].
  - destruct (slice02_id _ Eid) as (rest & E); left; split.
    + apply eqb_str_eq, Eid.
    + exists tg, (c :: body); split; [exact Eb|rewrite E; left; reflexivity].
  - right; exists c; split; [reflexivity|]; split; [|exact Hm].
    exists tg, (c :: body); split; [exact Eb|left; reflexivity].
Qed.

Lemma first_value_value (g : grammar) (nts : list str) (fuel : nat) (t v : str) :
  first_value fuel g nts t = Done v ->
  (v = "id" /\ occurs g "i"%char)
  \/ exists c, v = [c] /\ occurs g c /\ mem [c] nts = false.
Proof.
  unfold first_value.
  destruct (getitem g t) as [body| |] eqn:Eb; cbn [bind]; try discriminate.
  destruct (eqb_str (slice02 body) "id") eqn:Eid.
  - intros [= <-]; destruct (slice02_id _ Eid) as (rest & E); left; split.
    + apply eqb_str_eq, Eid.
    + exists t, body; split; [exact Eb|rewrite E; left; reflexivity].
  - destruct body as [|c body]; [discriminate|].
    unfold char_at; cbn [nth_error bind].
    destruct (mem [c] nts) eqn:Hm; [apply chain_value|].
    intros [= <-]; right; exists c; split; [reflexivity|]; split; [|exact Hm].
    exists t, (c :: body); split; [exact Eb|left; reflexivity].
Qed.

Lemma first_value_listed (fuel : nat) (g : grammar) (fd : dict str) (ts : list str)
  (a f : str) :
  firsts fuel g (keys g) = Done fd -> get_terminals g (keys g) = Done ts ->
  mem ("i" : str) (keys g) = false ->
  getitem fd a = Done f -> In a (keys g) ->
  f <> ("d" : str) -> f <> ("i" : str) -> In f ts.
Proof.
  intros Hfirst Hts Hi Hf Ha Hd Hni.
  destruct (firsts_Done fuel g (keys g) fd Hfirst a Ha) as (v & _ & Hv & Hf' & _).
  assert (v = f) by congruence; subst v.
  destruct (get_terminals_Done g (keys g)) as (ts' & E & _ & K).
  rewrite Hts in E; injection E as ->; apply in_or_app; left; apply K.
  destruct (first_value_value g (keys g) fuel a f Hv) as [[-> Ho]|(c & -> & Ho & Hm)].
  - exists "i"%char; split; [exact Ho|]; split; [|reflexivity].
    split; [discriminate|exact Hi].
  - exists c; split; [exact Ho|]; split.
    + split; [|exact Hm]. intros ->; apply Hd; reflexivity.
    + unfold terminal_of; destruct (eqb_str_spec [c] "i") as [E|_]; [|reflexivity].
      contradiction.
Qed.

(** X10.  Let [firsts] have returned and let [i] be no nonterminal.
    Then the FIRST value of a nonterminal is in the list of
    [get_terminals], unless it is one of the characters [d] and [i],
    which that list never holds; so the row of the nonterminal in the
    table of [creat_chart] holds its production in the column of its
    FIRST value. *)
Theorem firsts_in_terminals (fuel : nat) (g : grammar) (fd fo : dict str)
  (ts : list str) (chart : table) (a f : str) (r : nat)
  (Hfirst : firsts fuel g (get_none_terminals g) = Done fd)
  (Hterminals : get_terminals g (get_none_terminals g) = Done ts)
  (Hchart : creat_chart g fd fo (get_none_terminals g) ts = Done chart)
  (Hi : mem ("i" : str) (get_none_terminals g) = false)
  (Ha : nth_error (get_none_terminals g) r = Some a)
  (Hf : getitem fd a = Done f)
  (Hd : f <> ("d" : str))
  (Hni : f <> ("i" : str)) :
  exists c,
    nth_error ts c = Some f /\
    get_cell chart (r + 1) (c + 1) = getitem g a.
Proof.
  unfold get_none_terminals in *.
  pose proof (first_value_listed fuel g fd ts a f Hfirst Hterminals Hi Hf
                (nth_error_In _ _ Ha) Hd Hni) as Hin.
  apply In_nth_error in Hin as (c & Hc); exists c; split; [exact Hc|].
  rewrite (analysed_chart fuel g fd fo ts chart Hfirst Hchart).
  destruct (analysed_defined fuel g fd Hfirst a (nth_error_In _ _ Ha))
    as (f' & body & Hf' & Hb).
  assert (f' = f) by congruence; subst f'.
  unfold get_cell, item.
  rewrite Nat.add_1_r; cbn [nth_error].
  rewrite (nth_error_map (full_row g fd ts)), Ha; cbn [option_map bind].
  rewrite Nat.add_1_r; unfold full_row; cbn [nth_error].
  rewrite (nth_error_map (entry g fd a)), Hc; cbn [option_map].
  rewrite (entry_eq g fd a f body f Hf Hb), eqb_str_refl, Hb; reflexivity.
Qed.

(** The nonterminal D of the example grammar, whose FIRST value is
    [id]. *)
Lemma firsts_in_terminals_witness :
  exists c,
    nth_error example_terminals c = Some ("id" : str) /\
    get_cell example_chart (3 + 1) (c + 1) = getitem example_grammar ("D" : str).
Proof.
  apply (firsts_in_terminals 4 example_grammar example_first [] example_terminals
           example_chart "D" "id" 3); try reflexivity; discriminate.
Defined.

(** ** The FOLLOW strings hold what stands behind a nonterminal *)

Lemma prefixb_app (e s more : str) :
  prefixb e s = true -> prefixb e (s ++ more) = true.
Proof.
  revert s; induction e as [|x e IH]; intros s; [reflexivity|].
  destruct s as [|y s]; [discriminate|]; cbn [prefixb app].
  intros H; apply andb_true_iff in H as [H1 H2]; rewrite H1, (IH s H2); reflexivity.
Qed.

Lemma prefixb_refl_app (e more : str) : prefixb e (e ++ more) = true.
Proof.
  induction e as [|x e IH]; [reflexivity|].
  cbn [prefixb app]; rewrite Ascii.eqb_refl, IH; reflexivity.
Qed.

Lemma contains_nil (s : str) : contains [] s = true.
Proof. destruct s; reflexivity. Qed.

Lemma contains_app (e s more : str) :
  contains e s = true -> contains e (s ++ more) = true.
Proof.
  induction s as [|x s IH]; cbn [contains app].
  - rewrite orb_false_r; destruct e; [intros _; apply contains_nil|discriminate].
  - intros H; apply orb_true_iff in H as [H|H].
    + apply (prefixb_app e (x :: s) more) in H; cbn [app] in H; rewrite H; reflexivity.
    + rewrite (IH H); apply orb_true_r.
Qed.

Lemma contains_mid (e a b : str) : contains e (a ++ e ++ b) = true.
Proof.
  induction a as [|x a IH]; cbn [app].
  - destruct (e ++ b) eqn:E; cbn [contains].
    + destruct e; [reflexivity|discriminate].
    + rewrite <- E, prefixb_refl_app; reflexivity.
  - cbn [contains]; rewrite IH; apply orb_true_r.
Qed.

Lemma holds_grows (d d' : dict str) (n e : str) :
  grows d d' -> holds d n e -> holds d' n e.
Proof.
  intros Hg (s & Es & Hs); destruct (Hg n s Es) as (more & E').
  exists (s ++ more); split; [exact E'|apply contains_app, Hs].
Qed.

Lemma grows_trans (d1 d2 d3 : dict str) : grows d1 d2 -> grows d2 d3 -> grows d1 d3.
Proof.
  intros H12 H23 k s Hs; destruct (H12 k s Hs) as (m1 & E1).
  destruct (H23 k _ E1) as (m2 & E2); exists (m1 ++ m2); rewrite app_assoc; exact E2.
Qed.

Lemma for_each_grows {A : Type} (body : A -> dict str -> outcome (dict str)) (l : list A) :
  (forall a s s', In a l -> body a s = Done s' -> grows s s') ->
  forall s s', for_each l body s = Done s' -> grows s s'.
Proof.
  intros Hbody s s' E.
  apply (for_each_inv (fun x => grows s x) body l) with (s := s);
    [|apply grows_refl|exact E].
  intros a s1 s2 Ha H1 E1; apply (grows_trans _ s1); [exact H1|apply (Hbody a _ _ Ha E1)].
Qed.

(** Lines 77-83 leave what they have to record in the FOLLOW string. *)
Lemma follow_after_records (g : grammar) (fd : dict str) (nts : list str)
  (rule n body : str) (i : nat) (d d' : dict str) :
  getitem g rule = Done body -> In n (keys d) ->
  follow_after g fd nts rule n i d = Done d' ->
  holds d' n (recorded fd nts body i).
Proof.
  intros Eb Hn; unfold follow_after, recorded; rewrite Eb; cbn [bind].
  destruct (getitem_In d n Hn) as (fo & Efo).
  unfold char_at.
  destruct (nth_error (body ++ ("|" : str)) (i + 1)) as [y|]; cbn [bind]; [|discriminate].
  rewrite Efo.
  assert (Hkeep : forall e, contains e fo = true -> holds d n e).
  { intros e He; exists fo; auto. }
  assert (Hadd : forall e, holds (setitem d n (fo ++ e ++ ("," : str))) n e).
  { intros e; exists (fo ++ e ++ ("," : str)); split;
      [apply getitem_setitem_same|apply contains_mid]. }
  assert (Hgrow : forall e x, holds d n e -> holds (setitem d n (fo ++ x)) n e).
  { intros e x H; apply (holds_grows d); [apply grows_setitem, Efo|exact H]. }
  destruct (mem [y] nts).
  - destruct (getitem fd [y]) as [f| |]; cbn [bind]; try discriminate.
    destruct (contains f fo) eqn:Hc; cbn [negb bind].
    + (* the FIRST value is there already; the other tests may add more *)
      intros E.
      assert (H0 : holds d n f) by (apply Hkeep, Hc).
      destruct (eqb_str (slice (body ++ ("|" : str)) (i + 1) (i + 3)) "id");
        cbn [bind] in E.
      * destruct (contains "id" fo); cbn [negb bind] in E.
        -- destruct (eqb_str [y] "|"); cbn [negb bind] in E;
             [injection E as <-; exact H0|].
           destruct (contains [y] fo); cbn [negb bind] in E; injection E as <-;
             [exact H0|apply Hgrow, H0].
        -- injection E as <-; apply Hgrow, H0.
      * destruct (eqb_str [y] "|"); cbn [negb bind] in E;
          [injection E as <-; exact H0|].
        destruct (contains [y] fo); cbn [negb bind] in E; injection E as <-;
          [exact H0|apply Hgrow, H0].
    + intros [= <-]; apply Hadd.
  - cbn [bind].
    destruct (eqb_str (slice (body ++ ("|" : str)) (i + 1) (i + 3)) "id"); cbn [bind].
    + destruct (contains "id" fo) eqn:Hc; cbn [negb bind].
      * intros E.
        assert (H0 : holds d n "id") by (apply Hkeep, Hc).
        destruct (eqb_str [y] "|"); cbn [negb bind] in E;
          [injection E as <-; exact H0|].
        destruct (contains [y] fo); cbn [negb bind] in E; injection E as <-;
          [exact H0|apply Hgrow, H0].
      * intros [= <-]; exact (Hadd ("id" : str)).
    + destruct (eqb_str [y] "|"); cbn [negb bind].
      * intros [= <-]; exists fo; split; [exact Efo|apply contains_nil].
      * destruct (contains [y] fo) eqn:Hc; cbn [negb bind]; intros [= <-].
        -- apply Hkeep, Hc.
        -- exact (Hadd [y]).
Qed.

Lemma grows_keys (d d' : dict str) (k : str) :
  grows d d' -> In k (keys d) -> In k (keys d').
Proof.
  intros Hg Hk; destruct (getitem_In d k Hk) as (s & Es).
  destruct (Hg k s Es) as (more & E'); apply (getitem_Done_key d' k _ E').
Qed.

(** A loop over [seq] with an invariant that knows the counter. *)
Lemma for_each_seq_inv {St : Type} (P : nat -> St -> Prop)
  (body : nat -> St -> outcome St) (m : nat) :
  forall k,
  (forall n s s', k <= n < k + m -> P n s -> body n s = Done s' -> P (S n) s') ->
  forall s s', P k s -> for_each (seq k m) body s = Done s' -> P (k + m) s'.
Proof.
  induction m as [|m IH]; intros k Hbody s s' Hs E.
  - injection E as <-; rewrite Nat.add_0_r; exact Hs.
  - cbn [seq for_each] in E; apply bind_Done in E as (s1 & E1 & E).
    replace (k + S m) with (S k + m) by lia.
    apply (IH (S k)) with (s := s1); [|apply (Hbody k s s1); [lia|exact Hs|exact E1]|exact E].
    intros n t t' Hn; apply Hbody; lia.
Qed.

Lemma count_lower (c : ascii) (s : str) :
  forall j, nth_error s j = Some c ->
  count_occ ascii_dec (skipn (S j) s) c + 1 <= count_occ ascii_dec s c.
Proof.
  induction s as [|x s IH]; intros [|j] H; try discriminate.
  - injection H as ->; cbn [skipn count_occ].
    destruct (ascii_dec c c); [lia|congruence].
  - cbn [nth_error] in H; specialize (IH j H).
    change (skipn (S (S j)) (x :: s)) with (skipn (S j) s).
    cbn [count_occ]; destruct (ascii_dec x c); lia.
Qed.

(** The occurrence that [index] finds is the first one from [start]
    on. *)
Lemma first_occurrence (c : ascii) (s : str) :
  forall start j,
  start <= j -> nth_error s j = Some c ->
  count_occ ascii_dec (skipn (S j) s) c + 1 = count_occ ascii_dec (skipn start s) c ->
  forall j', start <= j' < j -> nth_error s j' <> Some c.
Proof.
  induction s as [|x s IH]; intros start j Hle Hj Hc j' Hj'.
  - destruct j; discriminate.
  - destruct j as [|j]; [lia|].
    cbn [nth_error] in Hj; change (skipn (S (S j)) (x :: s)) with (skipn (S j) s) in Hc.
    destruct start as [|start].
    + change (skipn 0 (x :: s)) with (x :: s) in Hc; cbn [count_occ] in Hc.
      pose proof (count_lower c s j Hj) as Hlow.
      destruct (ascii_dec x c) as [->|Hx]; [lia|].
      destruct j' as [|j']; [cbn [nth_error]; congruence|].
      cbn [nth_error]; apply (IH 0 j); [lia|exact Hj|exact Hc|lia].
    + change (skipn (S start) (x :: s)) with (skipn start s) in Hc.
      destruct j' as [|j']; [lia|].
      cbn [nth_error]; apply (IH start j); [lia|exact Hj|exact Hc|lia].
Qed.

Lemma count_zero_after (c : ascii) (s : str) (a j : nat) :
  count_occ ascii_dec (skipn a s) c = 0 -> nth_error s j = Some c -> j < a.
Proof.
  intros H0 Hj; destruct (Nat.lt_ge_cases j a) as [H|H]; [exact H|exfalso].
  apply (count_occ_not_In ascii_dec) in H0; apply H0.
  apply (nth_error_In _ (j - a)); rewrite nth_error_skipn.
  replace (a + (j - a)) with j by lia; exact Hj.
Qed.

Section Recorded.

Variables (g : grammar) (fd : dict str) (nts : list str).


(** Lines 76-83: the loop over the offsets found so far. *)
Lemma offsets_loop (rule body : str) (c : ascii) (l : list nat) (d d' : dict str) :
  getitem g rule = Done body -> In [c] (keys d) ->
  for_each l (follow_after g fd nts rule [c]) d = Done d' ->
  grows d d' /\ forall i, In i l -> holds d' [c] (recorded fd nts body i).
Proof.
  intros Eb Hc E.
  destruct (for_each_establish (fun s => grows d s)
              (fun i s => holds s [c] (recorded fd nts body i))
              (follow_after g fd nts rule [c]) l) with (E := fun _ : nat => False)
              (s := d) (s' := d') as [H1 H2].
  - intros i s s' _ Hs Es; split; [|split].
    + apply (grows_trans _ s); [exact Hs|apply (follow_after_grows _ _ _ _ _ _ _ _ Es)].
    + apply (follow_after_records g fd nts rule [c] body i s s' Eb); [|exact Es].
      apply (grows_keys d s [c] Hs Hc).
    + intros b; apply holds_grows, (follow_after_grows _ _ _ _ _ _ _ _ Es).
  - apply grows_refl.
  - intros b [].
  - exact E.
  - split; [exact H1|]; intros i Hi; apply H2; right; exact Hi.
Qed.

(** Lines 69-83 for the nonterminal [c]: every occurrence of [c] in
    [body] is found and recorded for. *)
Lemma occurrence_loop_records (rule body : str) (c : ascii) (d : dict str)
  (st : dict str * list nat * nat) :
  getitem g rule = Done body -> In [c] (keys d) ->
  for_each (seq 0 (str_count body [c]))
    (occurrence_round g fd nts rule [c]) (d, [], 0) = Done st ->
  grows d (fst (fst st)) /\
  forall j, nth_error body j = Some c -> holds (fst (fst st)) [c] (recorded fd nts body j).
Proof.
  intros Eb Hc E.
  pose (P := fun (k : nat) (st : dict str * list nat * nat) =>
               grows d (fst (fst st))
               /\ count_occ ascii_dec (skipn (snd st) body) c + k = str_count body [c]
               /\ (forall j, j < snd st -> nth_error body j = Some c -> In j (snd (fst st)))
               /\ (forall i, In i (snd (fst st)) ->
                     holds (fst (fst st)) [c] (recorded fd nts body i))).
  assert (H : P (0 + str_count body [c]) st).
  { apply (for_each_seq_inv P (occurrence_round g fd nts rule [c]) (str_count body [c]) 0)
      with (s := (d, @nil nat, 0)); [| |exact E].
    - intros k [[dk idxs] indx] st' Hk (I0 & I1 & I2 & I3) Est; cbn [fst snd] in *.
      unfold occurrence_round in Est; rewrite Eb in Est; cbn [bind] in Est.
      apply bind_Done in Est as (j & Ej & Est).
      apply bind_Done in Est as (d2 & E2 & Est); injection Est as <-.
      destruct (index_scan_char c body indx 0) as (j0 & E0 & Hle & Hj & Hcount).
      { rewrite Nat.sub_0_r; lia. }
      unfold str_index in Ej; rewrite E0 in Ej; injection Ej as <-.
      rewrite Nat.sub_0_r in Hle, Hcount; cbn [Nat.add] in *.
      destruct (offsets_loop rule body c (idxs ++ [j0]) dk d2 Eb
                  (grows_keys d dk [c] I0 Hc) E2) as [G2 H2].
      unfold P; cbn [fst snd]; split; [apply (grows_trans _ dk); assumption|].
      split; [replace (j0 + 1) with (S j0) by lia; lia|]; split; [|exact H2].
      intros j' Hj' Hcj'; apply in_or_app.
      destruct (Nat.lt_ge_cases j' indx) as [Hlt|Hge]; [left; apply I2; assumption|].
      right; left.
      destruct (Nat.eq_dec j' j0) as [->|Hne]; [reflexivity|exfalso].
      apply (first_occurrence c body indx j0 Hle Hj Hcount j'); [lia|exact Hcj'].
    - unfold P; cbn [fst snd skipn]; split; [apply grows_refl|].
      split; [rewrite str_count_char; lia|]; split; [intros j Hj; lia|intros i []]. }
  destruct H as (I0 & I1 & I2 & I3); split; [exact I0|].
  intros j Hj; apply I3, I2; [|exact Hj].
  apply (count_zero_after c body _ j); [lia|exact Hj].
Qed.

Lemma rule2_symbol_records (rule body : str) (c : ascii) (d d' : dict str) :
  getitem g rule = Done body -> (mem [c] nts = true -> In [c] (keys d)) ->
  rule2_symbol g fd nts rule c d = Done d' ->
  grows d d' /\
  (mem [c] nts = true ->
   forall j, nth_error body j = Some c -> holds d' [c] (recorded fd nts body j)).
Proof.
  intros Eb Hc; unfold rule2_symbol.
  destruct (mem [c] nts); [|intros [= <-]; split; [apply grows_refl|discriminate]].
  rewrite Eb; cbn [bind]; intros E; apply bind_Done in E as (st & E & [= <-]).
  destruct (occurrence_loop_records rule body c d st Eb (Hc eq_refl) E) as [H1 H2].
  split; [exact H1|intros _; exact H2].
Qed.

(** Lines 66-83 for one production. *)
Lemma rule2_records (rule : str) (d d' : dict str) :
  (forall k, mem k nts = true -> In k (keys d)) ->
  rule2 g fd nts rule d = Done d' ->
  grows d d' /\
  forall body j c, getitem g rule = Done body -> nth_error body j = Some c ->
    mem [c] nts = true -> holds d' [c] (recorded fd nts body j).
Proof.
  intros Hk; unfold rule2; intros E; apply bind_Done in E as (body & Eb & E).
  destruct (for_each_establish (fun s => grows d s)
              (fun c s => mem [c] nts = true ->
                          forall j, nth_error body j = Some c ->
                            holds s [c] (recorded fd nts body j))
              (rule2_symbol g fd nts rule) body) with (E := fun _ : ascii => False)
              (s := d) (s' := d') as [H1 H2].
  - intros c s s' _ Hs Es.
    destruct (rule2_symbol_records rule body c s s' Eb) as [G1 G2]; [|exact Es|].
    { intros Hm; apply (grows_keys d s _ Hs), Hk, Hm. }
    split; [apply (grows_trans _ s); assumption|]; split; [exact G2|].
    intros b Hb Hm j Hj; apply (holds_grows s s' _ _ G1), Hb; assumption.
  - apply grows_refl.
  - intros b [].
  - exact E.
  - split; [exact H1|].
    intros body' j c Eb' Hj Hm; assert (body' = body) by congruence; subst body'.
    apply H2; [right; apply (nth_error_In _ _ Hj)|exact Hm|exact Hj].
Qed.

Lemma rule3_grows (rule : str) (d d' : dict str) :
  rule3 g nts rule d = Done d' -> grows d d'.
Proof.
  unfold rule3; intros E; apply bind_Done in E as (body & _ & E).
  apply bind_Done in E as (l & _ & E).
  destruct (mem l nts); [|injection E as <-; apply grows_refl].
  apply bind_Done in E as (src & _ & E).
  apply (for_each_grows _ _ (fun c s s' _ => rule3_symbol_grows l c s s') _ _ E).
Qed.

(** After rule 2 the FOLLOW strings hold what was to be recorded for
    every occurrence of a nonterminal. *)
Lemma follows_rule2_records (d2 : dict str) :
  (forall k, mem k nts = true -> In k (keys g)) ->
  follows_rule2 g fd nts = Done d2 ->
  forall rule body j c, getitem g rule = Done body -> nth_error body j = Some c ->
    mem [c] nts = true -> holds d2 [c] (recorded fd nts body j).
Proof.
  intros Hk; unfold follows_rule2; intros E2.
  apply bind_Done in E2 as (d1 & E1 & E2).
  assert (Hk1 : forall k, mem k nts = true -> In k (keys d1)).
  { intros k Hm; unfold follows_init in E1.
    destruct (for_each_establish (fun _ : dict str => True)
                (fun r s => In r (keys s))
                (fun rule d => Done (setitem d rule ("" : str))) (keys g))
      with (E := fun _ : str => False) (s := @nil (str * str)) (s' := d1) as [_ H];
      [|exact I|intros b []|exact E1|apply H; right; apply Hk, Hm].
    intros r s s' _ _ [= <-]; split; [exact I|]; split.
    - apply In_keys_setitem; left; reflexivity.
    - intros b Hb; apply In_keys_setitem; right; exact Hb. }
  destruct (for_each_establish (fun s => grows d1 s)
              (fun rule s => forall body j c, getitem g rule = Done body ->
                 nth_error body j = Some c -> mem [c] nts = true ->
                 holds s [c] (recorded fd nts body j))
              (rule2 g fd nts) (keys g)) with (E := fun _ : str => False)
              (s := d1) (s' := d2) as [G2 H2].
  - intros rule s s' _ Hs Es.
    destruct (rule2_records rule s s') as [G1 G]; [|exact Es|].
    { intros k Hm; apply (grows_keys d1 s _ Hs), Hk1, Hm. }
    split; [apply (grows_trans _ s); assumption|]; split; [exact G|].
    intros b Hb body j c Eb Hj Hm; apply (holds_grows s s' _ _ G1), (Hb body j c); assumption.
  - apply grows_refl.
  - intros b [].
  - exact E2.
  - intros rule body j c Eb Hj Hm.
    apply (H2 rule); [right; apply (getitem_Done_key g rule body Eb)|assumption..].
Qed.


End Recorded.

Lemma contains_single (e : str) (x : ascii) :
  contains e [x] = true -> e = [] \/ e = [x].
Proof.
  destruct e as [|y [|z e]]; [auto| |]; cbn [contains prefixb].
  - rewrite andb_true_r, !orb_false_r.
    destruct (Ascii.eqb_spec y x) as [->|]; [auto|discriminate].
  - rewrite andb_false_r; discriminate.
Qed.

(** Lines 102-110 keep what a FOLLOW string holds, its separator
    apart. *)
Lemma finish_contains (e s3 : str) :
  contains e s3 = true -> e <> ("," : str) ->
  contains e (with_dollar (stripped s3)) = true.
Proof.
  intros He Hne; destruct e as [|y e]; [apply contains_nil|].
  destruct s3 as [|x s3]; [discriminate|].
  unfold stripped; destruct (last_char (x :: s3)) as [l| |] eqn:El; try discriminate.
  pose proof (last_char_snoc _ _ El) as Hs.
  destruct (eqb_str_spec l ",") as [->|Hl].
  - destruct (removelast (x :: s3)) as [|z t] eqn:Et.
    + rewrite Hs in He; cbn [app] in He; change (py ",") with [","%char] in He.
      apply contains_single in He as [He|He]; [discriminate|].
      exfalso; apply Hne; exact He.
    + unfold with_dollar; change (negb (eqb_str (z :: t) "")) with true; cbv iota.
      change (py ",$") with (py "," ++ py "$"); rewrite app_assoc, <- Hs.
      apply contains_app, He.
  - unfold with_dollar; change (negb (eqb_str (x :: s3) "")) with true; cbv iota.
    apply contains_app, He.
Qed.



(** ** Rule 3 passes the FOLLOW strings on *)

Lemma prefixb_In (e s : str) (x : ascii) : prefixb e s = true -> In x e -> In x s.
Proof.
  revert s; induction e as [|y e IH]; intros s H Hx; [destruct Hx|].
  destruct s as [|z s]; [discriminate|]; cbn [prefixb] in H.
  apply andb_true_iff in H as [H1 H2]; apply Ascii.eqb_eq in H1; subst z.
  destruct Hx as [->|Hx]; [left; reflexivity|right; apply (IH s H2 Hx)].
Qed.

Lemma contains_In (e s : str) (x : ascii) : contains e s = true -> In x e -> In x s.
Proof.
  induction s as [|y s IH]; cbn [contains]; intros H Hx.
  - rewrite orb_false_r in H; apply (prefixb_In e [] x H Hx).
  - apply orb_true_iff in H as [H|H]; [apply (prefixb_In e _ x H Hx)|].
    right; apply IH; assumption.
Qed.

(** Lines 88-101 leave the character that they are given in the FOLLOW
    string of [target], the separator apart. *)
Lemma rule3_symbol_records (target : str) (c : ascii) (d d' : dict str) :
  rule3_symbol target c d = Done d' -> c <> ","%char -> holds d' target [c].
Proof.
  unfold rule3_symbol; intros E Hc.
  apply bind_Done in E as (t & Et & E).
  assert (Hadd : forall a b : str,
            holds (setitem d target (t ++ a ++ c :: b)) target [c]).
  { intros a b; exists (t ++ a ++ c :: b); split; [apply getitem_setitem_same|].
    apply contains_char; rewrite !in_app_iff; right; right; left; reflexivity. }
  destruct (contains [c] t) eqn:Hct; cbn [negb] in E.
  { injection E as <-; exists t; auto. }
  destruct (eqb_str_spec [c] "i") as [Ei|Ei].
  - change (py "i") with ["i"%char] in Ei; injection Ei as ->.
    destruct (eqb_str t ""); injection E as <-.
    + exact (Hadd [] ["d"%char]).
    + exact (Hadd [","%char] ["d"%char]).
  - destruct (eqb_str_spec [c] ",") as [Ec|Ec].
    { change (py ",") with [","%char] in Ec; congruence. }
    cbn [negb] in E; destruct (eqb_str t "").
    + injection E as <-; rewrite <- (app_nil_r (t ++ [c])), <- app_assoc.
      exact (Hadd [] []).
    + apply bind_Done in E as (l & _ & E).
      destruct (negb (eqb_str l ",")); injection E as <-.
      * exact (Hadd [","%char] []).
      * rewrite <- (app_nil_r (t ++ [c])), <- app_assoc; exact (Hadd [] []).
Qed.

Section Passed.

Variables (g : grammar) (nts : list str).

(** Lines 86-101 for one production: every character of the FOLLOW
    string of [rule] is left in that of the last symbol. *)
Lemma rule3_records (rule body target : str) (d d' : dict str) (src : str) :
  getitem g rule = Done body -> last_char body = Done target ->
  mem target nts = true -> getitem d rule = Done src ->
  rule3 g nts rule d = Done d' ->
  forall x, In x src -> x <> ","%char -> holds d' target [x].
Proof.
  intros Eb El Hm Es; unfold rule3; rewrite Eb; cbn [bind]; rewrite El; cbn [bind].
  rewrite Hm, Es; cbn [bind]; intros E.
  destruct (for_each_establish (fun _ : dict str => True)
              (fun x s => x <> ","%char -> holds s target [x])
              (rule3_symbol target) src) with (E := fun _ : ascii => False)
              (s := d) (s' := d') as [_ H];
    [|exact I|intros b []|exact E|intros x Hx; apply H; right; exact Hx].
  intros x s s' _ _ Ex; split; [exact I|]; split.
  - intros Hx; apply (rule3_symbol_records target x s s' Ex Hx).
  - intros b Hb Hne; apply (holds_grows s s'); [|apply Hb, Hne].
    apply (rule3_symbol_grows target x s s' Ex).
Qed.

(** The loop of lines 85-101, started on [d2]. *)
Lemma rule3_loop_records (d2 d3 : dict str) :
  for_each (keys g) (rule3 g nts) d2 = Done d3 ->
  forall rule body target src,
    getitem g rule = Done body -> last_char body = Done target ->
    mem target nts = true -> getitem d2 rule = Done src ->
    forall x, In x src -> x <> ","%char -> holds d3 target [x].
Proof.
  intros E.
  destruct (for_each_establish (fun s => grows d2 s)
              (fun rule s => forall body target src,
                 getitem g rule = Done body -> last_char body = Done target ->
                 mem target nts = true -> getitem d2 rule = Done src ->
                 forall x, In x src -> x <> ","%char -> holds s target [x])
              (rule3 g nts) (keys g)) with (E := fun _ : str => False)
              (s := d2) (s' := d3) as [_ H].
  - intros rule s s' _ Hs Es; split; [|split].
    + apply (grows_trans _ s); [exact Hs|apply (rule3_grows g nts rule s s' Es)].
    + intros body target src Eb El Hm Esrc x Hx Hne.
      destruct (Hs rule src Esrc) as (more & Esrc').
      apply (rule3_records rule body target s s' (src ++ more) Eb El Hm Esrc' Es);
        [apply in_or_app; left; exact Hx|exact Hne].
    + intros b Hb body target src Eb El Hm Esrc x Hx Hne.
      apply (holds_grows s s'); [apply (rule3_grows g nts rule s s' Es)|].
      apply (Hb body target src); assumption.
  - apply grows_refl.
  - intros b [].
  - exact E.
  - intros rule body target src Eb El Hm Esrc x Hx Hne.
    apply (H rule (or_intror (getitem_Done_key g rule body Eb)) body target src);
      assumption.
Qed.

End Passed.

(** X18.  When [firsts] has returned, [follows] returns, and rule 3 has
    passed on what rule 2 recorded: if the production of the
    nonterminal [r] ends with the nonterminal [target], then every
    character of what stands behind an occurrence of [r] in a production
    (the text [recorded] of that occurrence) is in the FOLLOW string of
    [target], the separator [,] apart. *)
Theorem follows_passes_on (fuel : nat) (g : grammar) (fd : dict str)
  (Hfirst : firsts fuel g (get_none_terminals g) = Done fd) :
  exists fo,
    follows fd g fd (get_none_terminals g) = Done fo /\
    forall r tail target rule body j x,
      getitem g [r] = Done tail -> last_char tail = Done target ->
      mem target (get_none_terminals g) = true ->
      getitem g rule = Done body -> nth_error body j = Some r ->
      In x (recorded fd (get_none_terminals g) body j) -> x <> ","%char ->
      exists s, getitem fo target = Done s /\ In x s.
Proof.
  unfold get_none_terminals in *.
  destruct (follows_rule3_ok fuel g fd Hfirst) as (d3 & E3 & Hd3 & _).
  destruct (follows_from_rule3 fd g fd (keys g) d3 E3 Hd3) as (fo & E & H).
  exists fo; split; [exact E|].
  intros r tail target rule body j x Er El Hm Eb Hj Hx Hne.
  pose proof E3 as E3'; unfold follows_rule3 in E3'.
  apply bind_Done in E3' as (d2 & E2 & E23).
  assert (Hr : mem [r] (keys g) = true).
  { apply mem_In, (getitem_Done_key g [r] tail Er). }
  destruct (follows_rule2_records g fd (keys g) d2 (fun k Hk => proj1 (mem_In k _) Hk) E2
              rule body j r Eb Hj Hr) as (src & Esrc & Hsrc).
  destruct (rule3_loop_records g (keys g) d2 d3 E23 [r] tail target src Er El Hm Esrc x
              (contains_In _ _ x Hsrc Hx) Hne) as (s3 & Es3 & Hs3).
  exists (with_dollar (stripped s3)); split; [apply H, Es3|].
  apply contains_char, finish_contains; [exact Hs3|].
  change (py ",") with [","%char]; congruence.
Qed.

(** In the example grammar B occurs before [b] in the production of S,
    and its own production ends with C. *)
Lemma follows_passes_on_witness :
  exists fo,
    follows example_first example_grammar example_first
      (get_none_terminals example_grammar) = Done fo /\
    forall r tail target rule body j x,
      getitem example_grammar [r] = Done tail -> last_char tail = Done target ->
      mem target (get_none_terminals example_grammar) = true ->
      getitem example_grammar rule = Done body -> nth_error body j = Some r ->
      In x (recorded example_first (get_none_terminals example_grammar) body j) ->
      x <> ","%char ->
      exists s, getitem fo target = Done s /\ In x s.
Proof.
  apply (follows_passes_on 4 example_grammar example_first); reflexivity.
Defined.

(** ** The runs of [parse] on the raw input *)

(** A returning run of the loop goes through rounds that go on and
    ends with a round that returns. *)
Lemma parse_loop_reaches (bound : nat) (string : list str) (chart : table)
  (nts ts : list str) :
  forall cf e cf',
  parse_loop bound string chart nts ts cf = Done (e, cf') ->
  reaches string chart nts ts cf cf'
  /\ parse_step string chart nts ts cf' = Done (Return e cf').
Proof.
  induction bound as [|bound IH]; intros cf e cf'; cbn [parse_loop]; [discriminate|].
  destruct (parse_step string chart nts ts cf) as [[e1 c1|c1]| |] eqn:Es;
    cbn [bind]; try discriminate.
  - intros [= <- <-].
    destruct (parse_step_Return _ _ _ _ _ _ _ Es) as [-> _].
    split; [apply reaches_here|exact Es].
  - intros H; destruct (IH c1 e cf' H) as [Hr Hs]; split; [|exact Hs].
    apply (reaches_next _ _ _ _ cf c1 cf' Es Hr).
Qed.

(** The rounds that lead from one configuration to another are rounds
    of the loop. *)
Lemma reaches_parse_loop (string : list str) (chart : table) (nts ts : list str)
  (cf cf' : config) :
  reaches string chart nts ts cf cf' ->
  exists k, forall bound,
    parse_loop (k + bound) string chart nts ts cf
    = parse_loop bound string chart nts ts cf'.
Proof.
  induction 1 as [cf|cf cf1 cf2 Hs _ [k IH]].
  - exists 0; reflexivity.
  - exists (S k); intros bound; cbn [Nat.add parse_loop].
    rewrite Hs; cbn [bind]; apply IH.
Qed.

Lemma parse_init_Done (string : str) (nts : list str) (cf : config) :
  parse_init string nts = Done cf <->
  exists start t0,
    nth_error nts 0 = Some start
    /\ nth_error (make_list string ++ [("$" : str)]) 0 = Some t0
    /\ cf = Config [start; "$" : str] 0 t0.
Proof.
  unfold parse_init, tokens, item; split.
  - destruct (nth_error nts 0) as [start|]; cbn [bind]; [|discriminate].
    destruct (nth_error (make_list string ++ [("$" : str)]) 0) as [t0|]; cbn [bind];
      [|discriminate].
    intros [= <-]; exists start, t0; auto.
  - intros (start & t0 & -> & -> & ->); reflexivity.
Qed.

(** C9.  [parse] reads its raw input through [make_list]: adjacent
    characters [i], [d] of the input are one token [id], no token is a
    lone [d], and the sentinel [$] is appended.  The runs of [parse] on
    the raw input are exactly the runs of its loop on that token list,
    started with the stack of the start symbol and [$] and the cursor on
    the first token.  In every configuration of such a run, and so at
    every comparison of line 164 and at every return, the pointer is
    the token under the cursor, which is never [d]. *)
Theorem parse_reads_normalized_tokens (string : str) (chart : table)
  (none_terminals terminals : list str) :
  (forall s1 s2 : str,
     make_list (s1 ++ ("id" : str) ++ s2)
     = make_list s1 ++ [("id" : str)] ++ make_list s2) /\
  ~ In ("d" : str) (make_list string ++ [("$" : str)]) /\
  (forall e cf,
     (exists bound,
        parse_run bound string chart none_terminals terminals = Done (e, cf)) <->
     (exists start t0,
        nth_error none_terminals 0 = Some start
        /\ nth_error (make_list string ++ [("$" : str)]) 0 = Some t0
        /\ reaches (make_list string ++ [("$" : str)]) chart none_terminals terminals
             (Config [start; "$" : str] 0 t0) cf
        /\ parse_step (make_list string ++ [("$" : str)]) chart none_terminals
             terminals cf = Done (Return e cf))) /\
  (forall start t0 cf,
     nth_error none_terminals 0 = Some start ->
     nth_error (make_list string ++ [("$" : str)]) 0 = Some t0 ->
     reaches (make_list string ++ [("$" : str)]) chart none_terminals terminals
       (Config [start; "$" : str] 0 t0) cf ->
     nth_error (make_list string ++ [("$" : str)]) (i cf) = Some (pointer cf)
     /\ pointer cf <> ("d" : str)) /\
  (forall bound e cf,
     parse_run bound string chart none_terminals terminals = Done (e, cf) ->
     nth_error (make_list string ++ [("$" : str)]) (i cf) = Some (pointer cf)
     /\ pointer cf <> ("d" : str)).
Proof.
  fold (tokens string).
  assert (Hall : forall start t0 cf,
            nth_error none_terminals 0 = Some start ->
            nth_error (tokens string) 0 = Some t0 ->
            reaches (tokens string) chart none_terminals terminals
              (Config [start; "$" : str] 0 t0) cf ->
            nth_error (tokens string) (i cf) = Some (pointer cf)
            /\ pointer cf <> ("d" : str)).
  { intros start t0 cf Hs Ht Hr.
    assert (Hp : item (tokens string) (i cf) = Done (pointer cf)).
    { apply (reaches_pointer _ _ _ _ _ _ Hr); cbn [i pointer]; unfold item.
      rewrite Ht; reflexivity. }
    assert (Hn : nth_error (tokens string) (i cf) = Some (pointer cf)).
    { unfold item in Hp; destruct (nth_error (tokens string) (i cf)); [|discriminate].
      injection Hp as ->; reflexivity. }
    split; [exact Hn|].
    intros E; apply (tokens_no_d string); rewrite <- E; apply (nth_error_In _ _ Hn). }
  assert (Hrun : forall e cf,
            (exists bound,
               parse_run bound string chart none_terminals terminals = Done (e, cf)) <->
            (exists start t0,
               nth_error none_terminals 0 = Some start
               /\ nth_error (tokens string) 0 = Some t0
               /\ reaches (tokens string) chart none_terminals terminals
                    (Config [start; "$" : str] 0 t0) cf
               /\ parse_step (tokens string) chart none_terminals terminals cf
                  = Done (Return e cf))).
  { intros e cf; unfold parse_run; split.
    - intros (bound & H); apply bind_Done in H as (cf0 & H0 & H).
      apply parse_init_Done in H0 as (start & t0 & Hs & Ht & ->).
      destruct (parse_loop_reaches _ _ _ _ _ _ _ _ H) as [Hr Hstep].
      exists start, t0; auto.
    - intros (start & t0 & Hs & Ht & Hr & Hstep).
      destruct (reaches_parse_loop _ _ _ _ _ _ Hr) as (k & Hk).
      exists (k + 1).
      rewrite (proj2 (parse_init_Done string none_terminals _)) by eauto.
      cbn [bind]; rewrite Hk; cbn [parse_loop]; rewrite Hstep; reflexivity. }
  split; [|split; [|split; [|split]]].
  - intros s1 s2; rewrite !make_list_app; reflexivity.
  - apply tokens_no_d.
  - exact Hrun.
  - exact Hall.
  - intros bound e cf H.
    destruct (proj1 (Hrun e cf) (ex_intro _ bound H)) as (start & t0 & Hs & Ht & Hr & _).
    apply (Hall start t0 cf Hs Ht Hr).
Qed.

(** ** Rejection through the blank cell *)

(** With no production for the nonterminal on top and the token under
    the cursor, the loop pushes the blank string and returns through
    line 169 in its second round. *)
Lemma parse_loop_blank (fuel : nat) (g : grammar) (fd fo : dict str) (ts : list str)
  (chart : table) (string : list str) (cf : config) (a f : str) (rest : list str)
  (bound : nat) :
  firsts fuel g (keys g) = Done fd ->
  creat_chart g fd fo (keys g) ts = Done chart ->
  mem blank (keys g) = false ->
  stack cf = a :: rest -> a <> ("$" : str) -> In a (keys g) -> In (pointer cf) ts ->
  getitem fd a = Done f -> f <> pointer cf -> pointer cf <> blank ->
  parse_loop (S (S bound)) string chart (keys g) ts cf
  = Done (Symbol_mismatch, Config (blank :: rest) (i cf) (pointer cf)).
Proof.
  intros Hfirst Hchart Hb Hs Ha Hin Hp Hf Hne Hpb.
  cbn [parse_loop].
  rewrite (parse_step_blank fuel g fd fo ts chart Hfirst Hchart string cf a f rest
             Hs Ha Hin Hp Hf Hne); cbn [bind].
  rewrite (parse_step_blank_mismatch g ts chart string
             (Config (blank :: rest) (i cf) (pointer cf)) rest eq_refl Hb Hpb).
  reflexivity.
Qed.

(** C10.  Let the table be the one that [creat_chart] builds from the
    result of [firsts].  A cell whose column is not FIRST of its row
    holds the string of one space, not the empty string, and no run of
    [parse] returns through the test of line 158.  When a run of
    [parse] comes to a nonterminal, not named [$], on top of the stack
    that has no production for the token under the cursor, where that
    token is in the terminal list and is not the space, and no
    nonterminal is named with one space, then [parse] rejects: the
    space string is pushed in place of the nonterminal, fails the
    comparison of line 164 and the run returns through line 169. *)
Theorem no_production_rejects_by_mismatch (fuel : nat) (g : grammar)
  (fd fo : dict str) (ts : list str) (chart : table)
  (Hfirst : firsts fuel g (get_none_terminals g) = Done fd)
  (Hchart : creat_chart g fd fo (get_none_terminals g) ts = Done chart) :
  (forall i j a t f,
     nth_error (get_none_terminals g) i = Some a -> nth_error ts j = Some t ->
     getitem fd a = Done f -> f <> t ->
     get_cell chart (i + 1) (j + 1) = Done (" " : str)) /\
  (forall bound string e cf,
     parse_run bound string chart (get_none_terminals g) ts = Done (e, cf) ->
     e <> Empty_cell) /\
  (forall string cf0 cf a f rest,
     mem (" " : str) (get_none_terminals g) = false ->
     parse_init string (get_none_terminals g) = Done cf0 ->
     reaches (tokens string) chart (get_none_terminals g) ts cf0 cf ->
     stack cf = a :: rest -> a <> ("$" : str) ->
     In a (get_none_terminals g) -> In (pointer cf) ts ->
     getitem fd a = Done f -> f <> pointer cf -> pointer cf <> (" " : str) ->
     exists k, forall bound, k <= bound ->
       parse_run bound string chart (get_none_terminals g) ts
       = Done (Symbol_mismatch, Config ((" " : str) :: rest) (i cf) (pointer cf))
       /\ parse bound string chart (get_none_terminals g) ts = Done Reject).
Proof.
  unfold get_none_terminals in *.
  split; [|split].
  - intros i j a t f Ha Ht Hf Hne.
    destruct (analysed_defined fuel g fd Hfirst a (nth_error_In _ _ Ha))
      as (f' & body & Ef & Eb).
    rewrite (analysed_chart fuel g fd fo ts chart Hfirst Hchart).
    unfold get_cell, item; rewrite Nat.add_1_r; cbn [nth_error].
    rewrite (nth_error_map (full_row g fd ts)), Ha; cbn [option_map bind].
    rewrite Nat.add_1_r; unfold full_row; cbn [nth_error].
    rewrite (nth_error_map (entry g fd a)), Ht; cbn [option_map].
    rewrite (entry_eq g fd a f' body t Ef Eb).
    assert (f' = f) by congruence; subst f'.
    apply eqb_str_neq in Hne; rewrite Hne; reflexivity.
  - intros bound string e cf H; unfold parse_run in H.
    apply bind_Done in H as (cf0 & _ & H).
    apply (parse_loop_not_empty_cell fuel g fd fo ts chart Hfirst Hchart _ _ _ _ _ H).
  - intros string cf0 cf a f rest Hb H0 Hr Hs Ha Hin Hp Hf Hne Hpb.
    destruct (reaches_parse_loop _ _ _ _ _ _ Hr) as (k & Hk).
    exists (k + 2); intros bound Hle.
    assert (E : parse_run bound string chart (keys g) ts
                = Done (Symbol_mismatch, Config ((" " : str) :: rest) (i cf) (pointer cf))).
    { unfold parse_run; rewrite H0; cbn [bind].
      replace bound with (k + S (S (bound - k - 2))) by lia.
      rewrite Hk.
      apply (parse_loop_blank fuel g fd fo ts chart (tokens string) cf a f rest _
               Hfirst Hchart Hb Hs Ha Hin Hp Hf Hne Hpb). }
    split; [exact E|].
    unfold parse; rewrite E; reflexivity.
Qed.

(** The example grammar on the input [aa]: after the first [a] the
    nonterminal B is on top, whose FIRST value is [+]. *)
Lemma no_production_rejects_by_mismatch_witness :
  exists k, forall bound, k <= bound ->
    parse_run bound "aa" example_chart (get_none_terminals example_grammar)
      example_terminals
    = Done (Symbol_mismatch, Config [(" " : str); ("b" : str); ("$" : str)] 1 "a")
    /\ parse bound "aa" example_chart (get_none_terminals example_grammar)
         example_terminals = Done Reject.
Proof.
  destruct (no_production_rejects_by_mismatch 4 example_grammar example_first []
              example_terminals example_chart eq_refl eq_refl) as (_ & _ & H).
  apply (H "aa" (Config [("S" : str); ("$" : str)] 0 "a")
           (Config [("B" : str); ("b" : str); ("$" : str)] 1 "a") "B" "+");
    try reflexivity; try discriminate.
  - eapply reaches_next; [vm_compute; reflexivity|].
    eapply reaches_next; [vm_compute; reflexivity|].
    apply reaches_here.
  - vm_compute; auto.
  - vm_compute; auto.
Defined.

(** The space that stands for "no production" is taken for a token of
    the input or for a nonterminal, and a table of [creat_chart] that
    was not built from the result of [firsts] can hold the empty string.
    For S -> a b the FIRST value of S is [a], so S has no production
    for the token of one space, and [parse] accepts the input of one
    space all the same: the space is pushed and matches that token.
    For S -> ab and a nonterminal named with one space whose production
    is b, S has no production for the token [b], and [parse] accepts
    the input [b]: the space is pushed and expanded as a nonterminal.
    For the empty production of S and a FIRST value [a] given by hand,
    the cell of S and [a] holds the empty string and [parse] returns
    through the test of line 158. *)
Lemma blank_cell_matches_space :
  (exists a,
     analyse 1 spaced_grammar = Done a
     /\ getitem (first a) ("S" : str) = Done ("a" : str)
     /\ terminals a = [("a" : str); (" " : str); ("b" : str); ("$" : str)]
     /\ get_cell (chart a) 1 2 = Done (" " : str)
     /\ parse_run 3 " " (chart a) (none_terminals a) (terminals a)
        = Done (Stack_at_dollar, Config [("$" : str)] 1 "$")
     /\ parse_with 3 a " " = Done Accept) /\
  (exists a,
     analyse 1 blank_named_grammar = Done a
     /\ getitem (first a) ("S" : str) = Done ("a" : str)
     /\ terminals a = [("a" : str); ("b" : str); ("$" : str)]
     /\ get_cell (chart a) 1 2 = Done (" " : str)
     /\ parse_run 4 "b" (chart a) (none_terminals a) (terminals a)
        = Done (Stack_at_dollar, Config [("$" : str)] 1 "$")
     /\ parse_with 4 a "b" = Done Accept) /\
  (exists chart,
     creat_chart empty_grammar [("S" : str, "a" : str)] [] [("S" : str)]
       [("a" : str); ("$" : str)] = Done chart
     /\ get_cell chart 1 1 = Done ("" : str)
     /\ parse_run 1 "a" chart [("S" : str)] [("a" : str); ("$" : str)]
        = Done (Empty_cell, Config [("S" : str); ("$" : str)] 0 "a")).
Proof.
  split; [|split].
  - eexists; split; [vm_compute; reflexivity|]. repeat split.
  - eexists; split; [vm_compute; reflexivity|]. repeat split.
  - eexists; split; [vm_compute; reflexivity|]. repeat split.
Qed.
